(** * mcp-logseq: block parser, block references and block search

    A shallow embedding of [block-parser.ts], [block-ref.ts] and
    [search.ts], and the properties of the specification proved or
    refuted on it; then of the path filter, the URI of a page or block
    and the operations of the file-system service on the blocks of a
    page, with further properties of the code.

    - A JavaScript string is the list of its code units; the code units
      are the 256 values of [ascii] (Basic Latin and Latin-1), on which
      the character classes of the regular expressions of the source
      ([\s], [.], [\d], [\b], the [i] flag) and [trim] / [toLowerCase]
      are written out exactly.
    - The objects that [buildBlockTree] links live in a heap of objects
      with addresses; [lastIndex] of the shared [BLOCK_REF_REGEX] and the
      result list of [search] are passed along as state.
    - [uuidv4()], the printing of a [Number] and the disk are outside
      the source: they are parameters of the functions that use them.
    - A number that is compared, such as the limit of [search], is
      [NaN], an infinity or a rational number. *)

From Stdlib Require Import String Ascii List Bool Arith ZArith Lia.
From Stdlib Require QArith Qround.
Import ListNotations.
Open Scope list_scope.

(* ================================================================== *)
(** ** JavaScript strings *)
(* ================================================================== *)

Module Js.

Definition jsstring := list ascii.

(** A string literal of the source. *)
Definition str (s : string) : jsstring := list_ascii_of_string s.

Definition code (c : ascii) : N := N_of_ascii c.

Definition in_range (lo hi c : ascii) : bool :=
  (code lo <=? code c)%N && (code c <=? code hi)%N.

(** [\d] *)
Definition is_digit (c : ascii) : bool := in_range "0" "9" c.
Definition is_lower (c : ascii) : bool := in_range "a" "z" c.
Definition is_upper (c : ascii) : bool := in_range "A" "Z" c.

(** [\w], used by [\b] *)
Definition is_word (c : ascii) : bool :=
  is_lower c || is_upper c || is_digit c || Ascii.eqb c "_".

(** [[0-9a-f]] under the [i] flag *)
Definition is_hex (c : ascii) : bool :=
  is_digit c || in_range "a" "f" c || in_range "A" "F" c.

(** [[0-9a-f]] without the [i] flag *)
Definition is_lower_hex (c : ascii) : bool :=
  is_digit c || in_range "a" "f" c.

(** [[a-zA-Z0-9_-]] *)
Definition is_key_char (c : ascii) : bool :=
  is_word c || Ascii.eqb c "-".

(** White space and line terminators: the characters matched by [\s] and
    stripped by [trim] (TAB, LF, VT, FF, CR, SP, NBSP). *)
Definition is_space (c : ascii) : bool :=
  match code c with
  | 9 | 10 | 11 | 12 | 13 | 32 | 160 => true
  | _ => false
  end%N.

(** Line terminators, which [.] does not match (LF, CR). *)
Definition is_line_terminator (c : ascii) : bool :=
  match code c with
  | 10 | 13 => true
  | _ => false
  end%N.

Definition tab : ascii := ascii_of_nat 9.
Definition lf : ascii := ascii_of_nat 10.

(** [String.prototype.toLowerCase], per code unit: A-Z and the Latin-1
    capitals (except the multiplication sign) move up by 32. *)
Definition lower_char (c : ascii) : ascii :=
  let n := code c in
  if ((65 <=? n) && (n <=? 90) ||
      (192 <=? n) && (n <=? 222) && negb (n =? 215))%N
  then ascii_of_N (n + 32) else c.

Definition toLowerCase (s : jsstring) : jsstring := map lower_char s.

(** [String.prototype.toUpperCase] on Basic Latin letters. *)
Definition upper_char (c : ascii) : ascii :=
  if is_lower c then ascii_of_N (code c - 32) else c.

Definition eqb (a b : jsstring) : bool :=
  if list_eq_dec ascii_dec a b then true else false.

(** [s.trim()] *)
Fixpoint trimStart (s : jsstring) : jsstring :=
  match s with
  | c :: s' => if is_space c then trimStart s' else s
  | [] => []
  end.

Definition trimEnd (s : jsstring) : jsstring := rev (trimStart (rev s)).

Definition trim (s : jsstring) : jsstring := trimEnd (trimStart s).

(** [s.split(sep)] for a separator of one character: never empty, and
    the segments do not hold the separator. *)
Fixpoint split_char (sep : ascii) (s : jsstring) : list jsstring :=
  match s with
  | [] => [[]]
  | c :: s' =>
      if Ascii.eqb c sep then [] :: split_char sep s'
      else match split_char sep s' with
           | l :: ls => (c :: l) :: ls
           | [] => [[c]]
           end
  end.

(** [s.split('\n')] *)
Definition split_lf (s : jsstring) : list jsstring := split_char lf s.

(** [lines.join('\n')] *)
Fixpoint join_lf (ls : list jsstring) : jsstring :=
  match ls with
  | [] => []
  | [l] => l
  | l :: ls' => l ++ lf :: join_lf ls'
  end.

(** ['\t'.repeat(n)] *)
Definition tabs (n : nat) : jsstring := repeat tab n.

(** Length of the match of [/^\t*/]. *)
Fixpoint leading_tabs (s : jsstring) : nat :=
  match s with
  | c :: s' => if Ascii.eqb c tab then S (leading_tabs s') else 0
  | [] => 0
  end.

Fixpoint starts_with (p s : jsstring) : bool :=
  match p, s with
  | [], _ => true
  | a :: p', b :: s' => Ascii.eqb a b && starts_with p' s'
  | _ :: _, [] => false
  end.

(** [s.indexOf(q)] as an offset, [None] standing for -1. *)
Fixpoint index_of (q s : jsstring) : option nat :=
  if starts_with q s then Some 0
  else match s with
       | [] => None
       | _ :: s' => option_map S (index_of q s')
       end.

(** [s.indexOf(q)] *)
Definition indexOf (s q : jsstring) : Z :=
  match index_of q s with
  | Some i => Z.of_nat i
  | None => (-1)%Z
  end.

(** [s.includes(q)] *)
Definition includes (s q : jsstring) : bool :=
  match index_of q s with Some _ => true | None => false end.

(** [s.slice(a, b)] for integer arguments that are not negative. *)
Definition slice (s : jsstring) (a b : Z) : jsstring :=
  firstn (Z.to_nat b - Z.to_nat a) (skipn (Z.to_nat a) s).

End Js.
Import Js.

(* ================================================================== *)
(** ** Regular expressions of the source

    Each regular expression is embedded as the matcher it denotes.  All
    of them are anchored sequences of character classes and greedy runs,
    so the first (greedy) attempt is the only one that can succeed; the
    comments say why where it is not obvious. *)
(* ================================================================== *)

Module Re.

Definition bind {A B} (o : option A) (f : A -> option B) : option B :=
  match o with Some a => f a | None => None end.

Notation "x >>= f" := (bind x f) (at level 50, left associativity).

Notation "'let*' x := e 'in' k" := (bind e (fun x => k))
  (at level 10, x name, e at level 100, k at level 200).

(** A greedy run [c*]: the longest prefix in the class, and the rest. *)
Fixpoint span (p : ascii -> bool) (s : jsstring) : jsstring * jsstring :=
  match s with
  | c :: s' =>
      if p c then let (a, b) := span p s' in (c :: a, b) else ([], s)
  | [] => ([], [])
  end.

(** A counted run [c{n}]: the rest after exactly [n] characters of the
    class. *)
Fixpoint count (p : ascii -> bool) (n : nat) (s : jsstring)
  : option jsstring :=
  match n with
  | 0 => Some s
  | S n' =>
      match s with
      | c :: s' => if p c then count p n' s' else None
      | [] => None
      end
  end.

(** A literal character. *)
Definition lit (a : ascii) (s : jsstring) : option jsstring :=
  match s with
  | c :: s' => if Ascii.eqb c a then Some s' else None
  | [] => None
  end.

(** A final group of [.] repeated up to [$]: the rest of the input, when
    it holds no line terminator. *)
Definition dot_star_end (s : jsstring) : option jsstring :=
  if forallb (fun c => negb (is_line_terminator c)) s then Some s else None.

(** [hex{8}-hex{4}-hex{4}-hex{4}-hex{12}] at the start of [s]: the rest
    of the input after the 36 characters. *)
Definition uuid_prefix (hex : ascii -> bool) (s : jsstring)
  : option jsstring :=
  count hex 8 s >>= lit "-" >>= count hex 4 >>= lit "-" >>=
  count hex 4 >>= lit "-" >>= count hex 4 >>= lit "-" >>= count hex 12.

(** The pattern between [^] and [$]: the whole of [s] is a UUID. *)
Definition uuid_whole (hex : ascii -> bool) (s : jsstring) : bool :=
  match uuid_prefix hex s with
  | Some [] => true
  | _ => false
  end.

(** Two characters match under the [i] flag when their upper-case forms
    agree; one side is always a Basic Latin character of a pattern. *)
Definition ci_eqb (a b : ascii) : bool :=
  Ascii.eqb (upper_char a) (upper_char b).

(** A literal word under the [i] flag: the rest of the input after it. *)
Fixpoint lit_ci (p s : jsstring) : option jsstring :=
  match p, s with
  | [], _ => Some s
  | a :: p', c :: s' => if ci_eqb a c then lit_ci p' s' else None
  | _ :: _, [] => None
  end.

End Re.
Import Re.

(* ================================================================== *)
(** ** Property objects

    [Record<string, string | number | boolean>]: an object literal used
    as a map.  The model keeps the own properties in creation order. *)
(* ================================================================== *)

Module Props.

(** A number keeps the decimal literal it was read from; the value of
    [Number(literal)] is an IEEE double, which only its printer
    observes. *)
Inductive PropValue :=
| PString (s : jsstring)
| PNumber (literal : jsstring)
| PBoolean (b : bool).

Definition Obj := list (jsstring * PropValue).

(** [o[k]] *)
Fixpoint get (o : Obj) (k : jsstring) : option PropValue :=
  match o with
  | (k', v) :: o' => if Js.eqb k' k then Some v else get o' k
  | [] => None
  end.

Fixpoint update (o : Obj) (k : jsstring) (v : PropValue) : Obj :=
  match o with
  | (k', v') :: o' =>
      if Js.eqb k' k then (k', v) :: o' else (k', v') :: update o' k v
  | [] => [(k, v)]
  end.

(** [o[k] = v] on an object literal, [v] a primitive: an existing key
    keeps its place, a new key goes last, and the inherited setter of
    [__proto__] ignores a primitive. *)
Definition set (o : Obj) (k : jsstring) (v : PropValue) : Obj :=
  if Js.eqb k (str "__proto__") then o else update o k v.

Fixpoint digits_value (s : jsstring) (acc : N) : N :=
  match s with
  | c :: s' => digits_value s' (acc * 10 + (code c - 48))%N
  | [] => acc
  end.

(** An array index: the canonical decimal form of an integer below
    2^32 - 1. *)
Definition is_array_index (k : jsstring) : bool :=
  match k with
  | [] => false
  | c :: k' =>
      forallb is_digit k &&
      (negb (Ascii.eqb c "0") || match k' with [] => true | _ => false end) &&
      (length k <=? 10) && (digits_value k 0 <? 4294967295)%N
  end.

Fixpoint insert_index (kv : jsstring * PropValue) (l : Obj) : Obj :=
  match l with
  | kv' :: l' =>
      if (digits_value (fst kv) 0 <=? digits_value (fst kv') 0)%N
      then kv :: l else kv' :: insert_index kv l'
  | [] => [kv]
  end.

(** [Object.entries(o)]: array indices in ascending order, then the other
    keys in creation order. *)
Definition entries (o : Obj) : Obj :=
  fold_right insert_index [] (filter (fun kv => is_array_index (fst kv)) o)
  ++ filter (fun kv => negb (is_array_index (fst kv))) o.

(** [const { id: _id, ...rest } = o] *)
Definition rest_without_id (o : Obj) : Obj :=
  filter (fun kv => negb (Js.eqb (fst kv) (str "id"))) (entries o).

End Props.
Import Props.

(* ================================================================== *)
(** ** block-parser.ts *)
(* ================================================================== *)

Module BlockParser.

(** [UUID_REGEX.test(s)]: anchored, with the [i] flag and without [g], so
    the test keeps no state. *)
Definition UUID_REGEX (s : jsstring) : bool := uuid_whole is_hex s.

(** [t.match(PROPERTY_REGEX)], with the key and the value it captures.
    The key class excludes [:], so the key is the whole run in front of
    the two colons.  White space that the greedy run behind the colons
    gave back would have to be matched by the last group, which would
    still meet the line terminator that stopped it: the greedy split is
    the only one. *)
Definition PROPERTY_REGEX (t : jsstring) : option (jsstring * jsstring) :=
  let (key, r) := span is_key_char t in
  match key with
  | [] => None
  | _ :: _ =>
      let* r1 := lit ":" r in
      let* r2 := lit ":" r1 in
      let* value := dot_star_end (trimStart r2) in
      Some (key, value)
  end.

Inductive TaskMarker :=
| TODO | DOING | DONE | LATER | NOW | CANCELED | CANCELLED | IN_PROGRESS
| WAIT | WAITING.

Definition marker_text (m : TaskMarker) : jsstring :=
  match m with
  | TODO => str "TODO" | DOING => str "DOING" | DONE => str "DONE"
  | LATER => str "LATER" | NOW => str "NOW" | CANCELED => str "CANCELED"
  | CANCELLED => str "CANCELLED" | IN_PROGRESS => str "IN-PROGRESS"
  | WAIT => str "WAIT" | WAITING => str "WAITING"
  end.

Definition TASK_MARKERS : list TaskMarker :=
  [TODO; DOING; DONE; LATER; NOW; CANCELED; CANCELLED; IN_PROGRESS;
   WAIT; WAITING].

(** [\b] behind a marker, whose last character is a word character. *)
Definition word_boundary (s : jsstring) : bool :=
  match s with
  | c :: _ => negb (is_word c)
  | [] => true
  end.

(** What follows the marker in [TASK_MARKER_REGEX]: white space, the
    optional priority in brackets, white space, and the rest of the line.
    [Some p] is a match with priority capture [p]. *)
Definition task_tail (s : jsstring) : option (option jsstring) :=
  let r1 := trimStart s in
  let bracket :=
    let* r2 := lit "[" r1 in
    let* r3 := lit "#" r2 in
    match r3 with
    | x :: r4 =>
        if existsb (ci_eqb x) (str "ABC")
        then let* r' := lit "]" r4 in Some (x, r')
        else None
    | [] => None
    end in
  match bracket with
  | Some (x, r') =>
      let* _ := dot_star_end (trimStart r') in Some (Some [x])
  | None =>
      let* _ := dot_star_end r1 in Some None
  end.

(** [trimmed.match(TASK_MARKER_REGEX)]: the alternatives are tried in
    the order of [TASK_MARKERS]. *)
Fixpoint task_match (ms : list TaskMarker) (s : jsstring)
  : option (TaskMarker * option jsstring) :=
  match ms with
  | [] => None
  | m :: ms' =>
      match lit_ci (marker_text m) s with
      | Some r =>
          if word_boundary r then
            match task_tail r with
            | Some p => Some (m, p)
            | None => task_match ms' s
            end
          else task_match ms' s
      | None => task_match ms' s
      end
  end.

Definition parseTaskFromContent (content : jsstring)
  : option TaskMarker * option jsstring :=
  match task_match TASK_MARKERS (trim content) with
  | None => (None, None)
  | Some (m, p) =>
      let normalizedMarker :=
        match m with CANCELLED => CANCELED | WAITING => WAIT | _ => m end in
      (Some normalizedMarker, p)
  end.

(** [/^-?\d+(\.\d+)?$/.test(t)] *)
Definition is_number_literal (t : jsstring) : bool :=
  let t1 := match lit "-" t with Some r => r | None => t end in
  let (int, r) := span is_digit t1 in
  match int, r with
  | [], _ => false
  | _ :: _, [] => true
  | _ :: _, _ :: _ =>
      match lit "." r with
      | Some ((_ :: _) as f) => forallb is_digit f
      | _ => false
      end
  end.

Definition parsePropertyValue (v : jsstring) : PropValue :=
  let t := trim v in
  if Js.eqb t (str "true") then PBoolean true
  else if Js.eqb t (str "false") then PBoolean false
  else if is_number_literal t then PNumber t
  else PString t.

Record Item := mkItem {
  item_level : nat;
  item_content : jsstring;
  item_properties : Obj }.

#[local] Unset Elimination Schemes.
Inductive LogseqBlock := mkBlock {
  uuid : jsstring;
  content : jsstring;
  level : nat;
  properties : Obj;
  children : list LogseqBlock;
  parentUuid : option jsstring;
  sourcePath : jsstring;
  marker : option TaskMarker;
  priority : option jsstring }.
#[local] Set Elimination Schemes.

(** *** buildBlockTree

    The blocks that [buildBlockTree] makes are objects that it reaches
    through several references: a block sits in the [children] array of
    its parent (or in [blocks]) from the moment it is made, and its own
    [children] array grows later, through the reference kept on the
    stack.  The embedding keeps the objects in a heap, in the order in
    which they are made; an address is a position in the heap, and a
    [children] array holds addresses. *)

(** An object: its fields other than [children], and its [children]. *)
Record Object := mkObject {
  fields : LogseqBlock;
  refs : list nat }.

Record BuildState := mkState {
  heap : list Object;
  blocks : list nat;
  stack : list (nat * nat);   (* block, level *)
  calls : nat                 (* the calls of uuidv4() so far *) }.

(** [heap[parent].children.push(a)] *)
Fixpoint push_ref (heap : list Object) (parent a : nat) : list Object :=
  match heap, parent with
  | o :: heap', 0 => mkObject (fields o) (refs o ++ [a]) :: heap'
  | o :: heap', S parent' => o :: push_ref heap' parent' a
  | [], _ => []
  end.

(** [while (stack.length > 0 && stack[stack.length - 1].level >= lvl)
    stack.pop()] *)
Fixpoint pop_while (lvl : nat) (stack : list (nat * nat))
  : list (nat * nat) :=
  match stack with
  | (_, l) :: stack' => if lvl <=? l then pop_while lvl stack' else stack
  | [] => []
  end.

Section WithUuid.

(** [uuidv4()] of the [uuid] package: [uuidv4 n] is what call number [n]
    of a parse returns. *)
Variable uuidv4 : nat -> jsstring.

Variable sourcePath0 : jsstring.

(** One turn of the loop over [items]. *)
Definition build_step (st : BuildState) (item : Item) : BuildState :=
  let id := match get (item_properties item) (str "id") with
            | Some (PString s) => if UUID_REGEX s then Some s else None
            | _ => None
            end in
  let uuid := match id with Some s => s | None => uuidv4 (calls st) end in
  let calls' := match id with Some _ => calls st | None => S (calls st) end in
  let rest := rest_without_id (item_properties item) in
  let task := parseTaskFromContent (item_content item) in
  let block parentUuid :=
    mkObject (mkBlock uuid (item_content item) (item_level item) rest []
                      parentUuid sourcePath0 (fst task) (snd task)) [] in
  let a := length (heap st) in
  let stack1 := pop_while (item_level item) (stack st) in
  match stack1 with
  | (parent, _) :: _ =>
      let parentUuid :=
        option_map (fun o => BlockParser.uuid (fields o))
                   (nth_error (heap st) parent) in
      mkState (push_ref (heap st) parent a ++ [block parentUuid])
              (blocks st) ((a, item_level item) :: stack1) calls'
  | [] =>
      mkState (heap st ++ [block None]) (blocks st ++ [a])
              ((a, item_level item) :: stack1) calls'
  end.

Definition build_loop (items : list Item) : BuildState :=
  fold_left build_step items (mkState [] [] [] 0).

Definition with_children (b : LogseqBlock) (cs : list LogseqBlock)
  : LogseqBlock :=
  mkBlock (uuid b) (content b) (level b) (properties b) cs (parentUuid b)
          (sourcePath b) (marker b) (priority b).

(** What a reference that leads nowhere reads as; [buildBlockTree] makes
    none. *)
Definition dangling : LogseqBlock := mkBlock [] [] 0 [] [] None [] None None.

(** The block at address [a] with the blocks of its [children] array in
    place of the references.  An object refers to objects made after it,
    so the number of objects is fuel enough. *)
Fixpoint read (fuel : nat) (heap : list Object) (a : nat) : LogseqBlock :=
  match fuel with
  | 0 => dangling
  | S fuel' =>
      match nth_error heap a with
      | Some o => with_children (fields o) (map (read fuel' heap) (refs o))
      | None => dangling
      end
  end.

(** [return blocks] *)
Definition buildBlockTree (items : list Item) : list LogseqBlock :=
  let st := build_loop items in
  map (read (length (heap st)) (heap st)) (blocks st).

End WithUuid.

(** [line.match(...)] for a block line: tabs, a hyphen, white space, the
    rest of the line.  It returns the number of tabs and the text.  As
    in [PROPERTY_REGEX], the greedy run of white space is the only split
    that can match. *)
Definition block_line (line : jsstring) : option (nat * jsstring) :=
  let n := leading_tabs line in
  let* r := lit "-" (skipn n line) in
  match r with
  | c :: r' =>
      if is_space c then
        let* mainContent := dot_star_end (trimStart r') in
        Some (n, mainContent)
      else None
  | [] => None
  end.

(** The inner loop of [parseBlocks]: the property lines behind a block
    line of level [lvl].  It returns the properties and the lines left. *)
Fixpoint property_lines (lvl : nat) (lines : list jsstring) (props : Obj)
  : Obj * list jsstring :=
  match lines with
  | [] => (props, [])
  | next :: lines' =>
      let nextIndent := leading_tabs next in
      if (nextIndent <=? lvl) && negb (Js.eqb (trim next) []) then
        (props, lines)
      else
        match PROPERTY_REGEX (trim next) with
        | Some (key, value) =>
            if lvl <? nextIndent then
              property_lines lvl lines'
                (set props key (parsePropertyValue value))
            else (props, lines)
        | None => (props, lines)
        end
  end.

(** The outer loop of [parseBlocks].  Every turn consumes a line, so the
    number of lines is fuel enough. *)
Fixpoint parse_lines (fuel : nat) (lines : list jsstring) : list Item :=
  match fuel, lines with
  | S fuel', line :: lines' =>
      match block_line line with
      | Some (lvl, mainContent) =>
          let (props, lines'') := property_lines lvl lines' [] in
          mkItem lvl (trim mainContent) props :: parse_lines fuel' lines''
      | None => parse_lines fuel' lines'
      end
  | _, _ => []
  end.

Definition parse_items (content : jsstring) : list Item :=
  let lines := split_lf content in
  parse_lines (length lines) lines.

Definition parseBlocks (uuidv4 : nat -> jsstring)
  (content sourcePath : jsstring) : list LogseqBlock :=
  buildBlockTree uuidv4 sourcePath (parse_items content).

(** [flattenBlocks] *)
Fixpoint visit_flat (b : LogseqBlock) : list LogseqBlock :=
  match b with
  | mkBlock _ _ _ _ cs _ _ _ _ => b :: flat_map visit_flat cs
  end.

Definition flattenBlocks (bs : list LogseqBlock) : list LogseqBlock :=
  flat_map visit_flat bs.

Definition findBlockByUuid (bs : list LogseqBlock) (u : jsstring)
  : option LogseqBlock :=
  find (fun b => Js.eqb (uuid b) u) (flattenBlocks bs).

End BlockParser.
Import BlockParser.

(* ================================================================== *)
(** ** buildBlockTree without a heap

    The same loop on trees, for the proofs: a block stays on the stack
    while it can still grow, and is written into its parent's [children]
    (into [blocks] for a root) when it is popped.  The lemma
    [buildBlockTree_forest] shows that [buildBlockTree] returns what
    this loop returns. *)
(* ================================================================== *)

Module Zipper.

(** The block [parent] with one more child. *)
Definition push_child (parent child : LogseqBlock) : LogseqBlock :=
  mkBlock (uuid parent) (content parent) (level parent) (properties parent)
          (children parent ++ [child]) (parentUuid parent)
          (sourcePath parent) (marker parent) (priority parent).

Record BuildState := mkState {
  blocks : list LogseqBlock;
  stack : list (LogseqBlock * nat);
  calls : nat   (* the calls of uuidv4() so far *) }.

(** The block on top is finished. *)
Definition pop (st : BuildState) : BuildState :=
  match stack st with
  | [] => st
  | [(b, _)] => mkState (blocks st ++ [b]) [] (calls st)
  | (b, _) :: (p, pl) :: rest =>
      mkState (blocks st) ((push_child p b, pl) :: rest) (calls st)
  end.

(** The blocks on top are finished while their level is not below
    [lvl]; every turn shortens the stack, so its length is fuel enough. *)
Fixpoint pop_while (fuel : nat) (lvl : nat) (st : BuildState) : BuildState :=
  match fuel with
  | 0 => st
  | S fuel' =>
      match stack st with
      | (_, l) :: _ => if lvl <=? l then pop_while fuel' lvl (pop st) else st
      | [] => st
      end
  end.

Section WithUuid.

Variable uuidv4 : nat -> jsstring.

Variable sourcePath0 : jsstring.

(** One turn of the loop over the items. *)
Definition build_step (st : BuildState) (item : Item) : BuildState :=
  let id := match get (item_properties item) (str "id") with
            | Some (PString s) => if UUID_REGEX s then Some s else None
            | _ => None
            end in
  let uuid := match id with Some s => s | None => uuidv4 (calls st) end in
  let calls' := match id with Some _ => calls st | None => S (calls st) end in
  let rest := rest_without_id (item_properties item) in
  let task := parseTaskFromContent (item_content item) in
  let st1 := pop_while (length (stack st)) (item_level item) st in
  let block := mkBlock uuid (item_content item) (item_level item) rest []
                 (match stack st1 with
                  | (parent, _) :: _ => Some (BlockParser.uuid parent)
                  | [] => None
                  end)
                 sourcePath0 (fst task) (snd task) in
  mkState (blocks st1) ((block, item_level item) :: stack st1) calls'.

Definition build_loop (items : list Item) : BuildState :=
  fold_left build_step items (mkState [] [] 0).

(** At the end every block still on the stack is popped. *)
Definition build_forest (items : list Item) : list LogseqBlock :=
  let st := build_loop items in
  blocks (pop_while (length (stack st)) 0 st).

End WithUuid.

End Zipper.
Import Zipper.

Module Serializer.

Section WithNumbers.

(** The text of [Number(literal)] in a template string.  The value is an
    IEEE double, so its printer is taken as given. *)
Variable showNumber : jsstring -> jsstring.

Definition show_value (v : PropValue) : jsstring :=
  match v with
  | PBoolean true => str "true"
  | PBoolean false => str "false"
  | PNumber literal => showNumber literal
  | PString s => s
  end.

Definition prop_line (kv : jsstring * PropValue) : jsstring :=
  fst kv ++ str ":: " ++ show_value (snd kv).

(** [propLines] of [visit] *)
Definition propLines (b : LogseqBlock) : list jsstring :=
  (match uuid b with
   | [] => []
   | _ :: _ => [str "id:: " ++ uuid b]
   end) ++ map prop_line (entries (properties b)).

(** The lines that [visit(b, indent)] pushes. *)
Fixpoint visit (b : LogseqBlock) (indent : nat) : list jsstring :=
  match b with
  | mkBlock _ _ _ _ cs _ _ _ _ =>
      (tabs indent ++ str "- " ++ trim (content b))
      :: map (fun p => tabs (indent + 1) ++ p) (propLines b)
      ++ flat_map (fun c => visit c (indent + 1)) cs
  end.

Definition serializeBlocks (bs : list LogseqBlock) : jsstring :=
  join_lf (flat_map (fun b => visit b 0) bs).

End WithNumbers.

End Serializer.
Import Serializer.

(* ================================================================== *)
(** ** block-ref.ts *)
(* ================================================================== *)

Module BlockRef.

(** [BLOCK_REF_REGEX] at the start of [s]: two opening parentheses, a
    UUID under the [i] flag, two closing ones.  It returns capture 1 and
    the input behind the match, which is 40 characters long. *)
Definition ref_prefix (s : jsstring) : option (jsstring * jsstring) :=
  let* s0 := lit "(" s in
  let* s1 := lit "(" s0 in
  let* s2 := uuid_prefix is_hex s1 in
  let* s3 := lit ")" s2 in
  let* rest := lit ")" s3 in
  Some (firstn 36 s1, rest).

(** The leftmost match of [BLOCK_REF_REGEX] in [s]: the text in front of
    it, capture 1, and the text behind it. *)
Fixpoint find_ref (s : jsstring)
  : option (jsstring * jsstring * jsstring) :=
  match ref_prefix s with
  | Some (u, r) => Some ([], u, r)
  | None =>
      match s with
      | [] => None
      | c :: s' =>
          match find_ref s' with
          | Some (pre, u, r) => Some (c :: pre, u, r)
          | None => None
          end
      end
  end.

(** The loop [while ((m = re.exec(content)) !== null)] on a regular
    expression object of its own.  A match takes 40 characters, so the
    length of the input is fuel enough. *)
Fixpoint exec_loop (fuel : nat) (s : jsstring) : list jsstring :=
  match fuel with
  | 0 => []
  | S fuel' =>
      match find_ref s with
      | Some (_, u, r) => toLowerCase u :: exec_loop fuel' r
      | None => []
      end
  end.

(** [[...new Set(uuids)]]: the first occurrence of each value stays. *)
Fixpoint dedupe (seen l : list jsstring) : list jsstring :=
  match l with
  | [] => []
  | x :: l' =>
      if existsb (Js.eqb x) seen then dedupe seen l'
      else x :: dedupe (x :: seen) l'
  end.

Definition extractBlockRefs (content : jsstring) : list jsstring :=
  dedupe [] (exec_loop (length content) content).

(** [hasBlockRef] calls [test] on the module-level [BLOCK_REF_REGEX],
    which has the [g] flag: the search starts at the [lastIndex] of the
    object and leaves the end of the match there (0 when it fails).  The
    function takes the [lastIndex] it finds and returns the one it
    leaves. *)
Definition hasBlockRef (content : jsstring) (lastIndex : nat)
  : bool * nat :=
  if length content <? lastIndex then (false, 0)
  else match find_ref (skipn lastIndex content) with
       | Some (pre, _, _) => (true, lastIndex + length pre + 40)
       | None => (false, 0)
       end.

(** [content.replace(BLOCK_REF_REGEX, fn)] *)
Fixpoint replace_refs (fuel : nat) (fn : jsstring -> jsstring)
  (s : jsstring) : jsstring :=
  match fuel with
  | 0 => s
  | S fuel' =>
      match find_ref s with
      | Some (pre, u, r) => pre ++ fn u ++ replace_refs fuel' fn r
      | None => s
      end
  end.

Definition createBlockRef (uuid : jsstring) : jsstring :=
  str "((" ++ uuid ++ str "))".

(** [replace] with a global regular expression starts from [lastIndex]
    0 and leaves 0 behind. *)
Definition resolveBlockRefs (content : jsstring)
  (resolveUuid : jsstring -> option LogseqBlock) (lastIndex : nat)
  : jsstring * nat :=
  (replace_refs (length content)
     (fun uuid =>
        match resolveUuid uuid with
        | Some block => BlockParser.content block
        | None => str "((" ++ uuid ++ str "))"
        end) content,
   0).

(** [/[.*+?^${}()|[\]\\]/]: the characters that [resolveBlockRefsAsync]
    escapes. *)
Definition is_meta (c : ascii) : bool :=
  existsb (Ascii.eqb c) (str ".*+?^${}()|[]\").

(** [uuid.replace(..., '\\$&')] *)
Definition escape (s : jsstring) : jsstring :=
  flat_map (fun c => if is_meta c then ["\"%char; c] else [c]) s.

(** The text that a pattern made of plain and escaped characters
    matches. *)
Fixpoint pattern_text (p : jsstring) : jsstring :=
  match p with
  | "\"%char :: c :: p' => c :: pattern_text p'
  | c :: p' => c :: pattern_text p'
  | [] => []
  end.

(** The leftmost match of a literal under the [i] flag: the text in
    front, the matched text, the text behind. *)
Fixpoint find_ci (l s : jsstring)
  : option (jsstring * jsstring * jsstring) :=
  match lit_ci l s with
  | Some r => Some ([], firstn (length l) s, r)
  | None =>
      match s with
      | [] => None
      | c :: s' =>
          match find_ci l s' with
          | Some (pre, m, r) => Some (c :: pre, m, r)
          | None => None
          end
      end
  end.

(** The replacement text of [replace] with a string, for a regular
    expression without captures: [$$], [$&], [$`] and [$'] are
    expanded. *)
Fixpoint substitution (repl matched before after : jsstring) : jsstring :=
  match repl with
  | "$"%char :: tl =>
      match tl with
      | c :: repl' =>
          if Ascii.eqb c "$" then
            "$"%char :: substitution repl' matched before after
          else if Ascii.eqb c "&" then
            matched ++ substitution repl' matched before after
          else if Ascii.eqb c "`" then
            before ++ substitution repl' matched before after
          else if Ascii.eqb c "'" then
            after ++ substitution repl' matched before after
          else "$"%char :: substitution tl matched before after
      | [] => ["$"%char]
      end
  | c :: repl' => c :: substitution repl' matched before after
  | [] => []
  end.

(** [s.replace(re, repl)] for the global, case-insensitive regular
    expression of a literal [l] that is not empty.  [before] is the part
    of the subject in front of [s]. *)
Fixpoint replace_ci (fuel : nat) (l repl before s : jsstring) : jsstring :=
  match fuel with
  | 0 => s
  | S fuel' =>
      match find_ci l s with
      | Some (pre, m, r) =>
          pre ++ substitution repl m (before ++ pre) r
          ++ replace_ci fuel' l repl (before ++ pre ++ m) r
      | None => s
      end
  end.

(** One turn of the loop of [resolveBlockRefsAsync]. *)
Definition resolve_one (resolveUuid : jsstring -> option LogseqBlock)
  (result uuid : jsstring) : jsstring :=
  let block := resolveUuid uuid in
  let ref := pattern_text (str "\(\(" ++ escape uuid ++ str "\)\)") in
  replace_ci (length result) ref
    (match block with
     | Some b => BlockParser.content b
     | None => str "((" ++ uuid ++ str "))"
     end) [] result.

(** The awaited look-ups happen one after the other, so the promise is
    settled with the value of the plain loop. *)
Definition resolveBlockRefsAsync (content : jsstring)
  (resolveUuid : jsstring -> option LogseqBlock) : jsstring :=
  let refs := extractBlockRefs content in
  fold_left (resolve_one resolveUuid) refs content.

Definition isValidBlockUuid (uuid : jsstring) : bool := uuid_whole is_hex uuid.

End BlockRef.
Import BlockRef.

(* ================================================================== *)
(** ** JavaScript numbers *)
(* ================================================================== *)

Module Number.

(** A [number] as far as [Math.min] and [>=] tell numbers apart: [NaN],
    the two infinities, and a finite value, which is a rational number
    (every finite double is one, and the two zeros compare alike). *)
Inductive number :=
| NaN
| NegInfinity
| Finite (q : QArith_base.Q)
| Infinity.

(** A whole number, such as the literals [5] and [20] of the source. *)
Definition of_Z (z : Z) : number := Finite (QArith_base.inject_Z z).

(** [Math.min(a, b)] *)
Definition min (a b : number) : number :=
  match a, b with
  | NaN, _ => NaN
  | _, NaN => NaN
  | NegInfinity, _ => NegInfinity
  | _, NegInfinity => NegInfinity
  | Infinity, _ => b
  | _, Infinity => a
  | Finite p, Finite q => if QArith_base.Qle_bool p q then a else b
  end.

(** [n >= m] for the length [n] of an array: [false] when [m] is
    [NaN]. *)
Definition length_ge (n : nat) (m : number) : bool :=
  match m with
  | NaN => false
  | NegInfinity => true
  | Finite q => QArith_base.Qle_bool q (QArith_base.inject_Z (Z.of_nat n))
  | Infinity => false
  end.

End Number.

(* ================================================================== *)
(** ** search.ts *)
(* ================================================================== *)

Module SearchService.

Record SearchParams := mkParams {
  query : option jsstring;
  limit : option Number.number;
  searchContent : option bool;
  searchFrontmatter : option bool;
  searchBlockProperties : option bool;
  caseSensitive : option bool }.

Record BlockSearchResult := mkResult {
  p : jsstring;
  t : jsstring;
  uuid : option jsstring;
  ex : jsstring;
  mc : nat;
  ln : option nat }.

(** The graph on disk, as the service sees it: the paths that
    [findMarkdownFiles(graphPath)] returns, in its order, and
    [readFile], which is [None] where the read fails. *)
Record FileSystem := mkFs {
  markdownFiles : list jsstring;
  readFile : jsstring -> option jsstring }.

(** What a call did to the disk, in order. *)
Inductive Access :=
| ListFiles
| ReadFile (path : jsstring).

Inductive Outcome :=
| Threw (message : jsstring)
| Returned (results : list BlockSearchResult).

Definition dquote : ascii := ascii_of_nat 34.

Definition hex_digit (n : N) : ascii :=
  nth (N.to_nat n) (str "0123456789abcdef") "0"%char.

(** [JSON.stringify] of a string. *)
Definition json_char (c : ascii) : jsstring :=
  match code c with
  | 8 => str "\b" | 9 => str "\t" | 10 => str "\n" | 12 => str "\f"
  | 13 => str "\r" | 34 => ["\"%char; dquote] | 92 => str "\\"
  | n => if (n <? 32)%N
         then str "\u00" ++ [hex_digit (n / 16); hex_digit (n mod 16)]
         else [c]
  end%N.

Definition json_string (s : jsstring) : jsstring :=
  dquote :: flat_map json_char s ++ [dquote].

Fixpoint join_with (sep : jsstring) (ls : list jsstring) : jsstring :=
  match ls with
  | [] => []
  | [l] => l
  | l :: ls' => l ++ sep ++ join_with sep ls'
  end.

(** [/^---\n([\s\S]*?)\n---\n/]: the lazy group ends at the first closing
    fence.  It returns the length of the match and capture 1. *)
Definition frontmatter_match (raw : jsstring) : option (nat * jsstring) :=
  let fence := str "---" ++ [lf] in
  if starts_with fence raw then
    let r := skipn 4 raw in
    match index_of (lf :: fence) r with
    | Some i => Some (4 + i + 5, firstn i r)
    | None => None
    end
  else None.

(** [path.split('/').pop()?.replace(/\.md$/, '') ?? path] *)
Definition title_of (path : jsstring) : jsstring :=
  let name := last (split_char "/" path) [] in
  if starts_with (rev (str ".md")) (rev name)
  then firstn (length name - 3) name else name.

(** The loop that counts the occurrences of [q] in [s], one behind the
    other; [q] is not empty. *)
Fixpoint count_matches (fuel : nat) (q s : jsstring) : nat :=
  match fuel with
  | 0 => 0
  | S fuel' =>
      match index_of q s with
      | Some i => S (count_matches fuel' q (skipn (i + length q) s))
      | None => 0
      end
  end.

(** The excerpt around offset [i] of a match of length [n] in [s]. *)
Definition excerpt_at (s : jsstring) (i : Z) (n : nat) : jsstring :=
  let len := Z.of_nat (length s) in
  let excerptStart := Z.max 0 (i - 21) in
  let excerptEnd := Z.min len (i + Z.of_nat n + 21) in
  let e0 := trim (slice s excerptStart excerptEnd) in
  let e1 := if (0 <? excerptStart)%Z then str "..." ++ e0 else e0 in
  if (excerptEnd <? len)%Z then e1 ++ str "..." else e1.

Section WithHost.

(** [uuidv4 path n]: what call number [n] of [uuidv4()] returns while the
    file at [path] is parsed. *)
Variable uuidv4 : jsstring -> nat -> jsstring.

(** The text of [Number(literal)] inside [JSON.stringify]. *)
Variable jsonNumber : jsstring -> jsstring.

(** [this.pathFilter.isAllowed] and [this.graphPath] *)
Variable isAllowed : jsstring -> bool.
Variable graphPath : jsstring.

Variable fs : FileSystem.

Definition json_value (v : PropValue) : jsstring :=
  match v with
  | PString s => json_string s
  | PNumber literal => jsonNumber literal
  | PBoolean true => str "true"
  | PBoolean false => str "false"
  end.

(** [JSON.stringify(block.properties)] *)
Definition json_properties (o : Obj) : jsstring :=
  str "{" ++
  join_with (str ",")
    (map (fun kv => json_string (fst kv) ++ str ":" ++ json_value (snd kv))
         (entries o)) ++
  str "}".

Section OneQuery.

Variable query0 : jsstring.
Variable maxLimit : Number.number.
Variable caseSensitive0 : bool.

Definition fold_case (s : jsstring) : jsstring :=
  if caseSensitive0 then s else toLowerCase s.

Definition searchQuery : jsstring := fold_case query0.

Definition block_result (relativePath : jsstring) (block : LogseqBlock)
  (blockSearch : jsstring) : BlockSearchResult :=
  let excerpt :=
    excerpt_at (content block) (indexOf (content block) query0)
               (length query0) in
  mkResult relativePath (title_of relativePath)
    (Some (BlockParser.uuid block))
    (match excerpt with
     | [] => slice (content block) 0 42
     | _ :: _ => excerpt
     end)
    (count_matches (S (length blockSearch)) searchQuery blockSearch)
    (Some 0).

(** [for (const block of flat)] *)
Fixpoint block_loop (relativePath : jsstring) (flat : list LogseqBlock)
  (results : list BlockSearchResult) : list BlockSearchResult :=
  match flat with
  | [] => results
  | block :: flat' =>
      let blockText :=
        content block ++ str " " ++ json_properties (properties block) in
      let blockSearch := fold_case blockText in
      if includes blockSearch searchQuery then
        let results' :=
          results ++ [block_result relativePath block blockSearch] in
        if Number.length_ge (length results') maxLimit then results'
        else block_loop relativePath flat' results'
      else block_loop relativePath flat' results
  end.

Definition file_result (relativePath searchableText : jsstring)
  (index : nat) : BlockSearchResult :=
  mkResult relativePath (title_of relativePath) None
    (excerpt_at searchableText (Z.of_nat index) (length searchQuery))
    1
    (Some (length (split_lf (slice searchableText 0 (Z.of_nat index))))).

(** The body of [try] for one file that was read. *)
Definition scan_file (sc sf sbp : bool) (relativePath raw : jsstring)
  (results : list BlockSearchResult) : list BlockSearchResult :=
  let frontmatterMatch := frontmatter_match raw in
  let body := match frontmatterMatch with
              | Some (n, _) => skipn n raw
              | None => raw
              end in
  let frontmatter := match frontmatterMatch with
                     | Some (_, g) => g
                     | None => []
                     end in
  let searchableText :=
    if sc && sf && sbp then raw
    else if sc then body
    else if sf then frontmatter
    else if sbp then body
    else [] in
  let searchIn := fold_case searchableText in
  match index_of searchQuery searchIn with
  | Some index =>
      let blocks := parseBlocks (uuidv4 relativePath) body relativePath in
      let flat := flattenBlocks blocks in
      let results1 := block_loop relativePath flat results in
      match results1 with
      | [] => [file_result relativePath searchableText index]
      | _ :: _ => results1
      end
  | None => results
  end.

(** [for (const fullPath of files)], with the reads it makes. *)
Fixpoint file_loop (sc sf sbp : bool) (files : list jsstring)
  (results : list BlockSearchResult)
  : list BlockSearchResult * list Access :=
  match files with
  | [] => (results, [])
  | fullPath :: files' =>
      let relativePath :=
        map (fun c => if Ascii.eqb c "\" then "/"%char else c)
            (skipn (length graphPath + 1) fullPath) in
      if negb (isAllowed relativePath) then
        file_loop sc sf sbp files' results
      else if Number.length_ge (length results) maxLimit then (results, [])
      else
        let results' :=
          match readFile fs fullPath with
          | Some raw => scan_file sc sf sbp relativePath raw results
          | None => results
          end in
        let (out, reads) := file_loop sc sf sbp files' results' in
        (out, ReadFile fullPath :: reads)
  end.

End OneQuery.

Definition default {A} (o : option A) (d : A) : A :=
  match o with Some a => a | None => d end.

Definition search (params : SearchParams) : Outcome * list Access :=
  let limit0 := default (limit params) (Number.of_Z 5) in
  let sc := default (searchContent params) true in
  let sf := default (searchFrontmatter params) false in
  let sbp := default (searchBlockProperties params) true in
  let cs := default (caseSensitive params) false in
  match query params with
  | None => (Threw (str "Search query cannot be empty"), [])
  | Some q =>
      if match q with [] => true | _ :: _ => false end
         || (length (trim q) =? 0)
      then (Threw (str "Search query cannot be empty"), [])
      else
        let maxLimit := Number.min limit0 (Number.of_Z 20) in
        let (results, reads) :=
          file_loop q maxLimit cs sc sf sbp (markdownFiles fs) [] in
        (Returned results, ListFiles :: reads)
  end.

End WithHost.

End SearchService.

(* ================================================================== *)
(** ** Inputs and notions used by the statements *)
(* ================================================================== *)

Module Notions.

(** A query that is absent, empty, or white space only. *)
Definition blank (q : option jsstring) : Prop :=
  match q with
  | None => True
  | Some s => forallb is_space s = true
  end.

(** The results of a call that returned; none when it threw. *)
Definition results_of (o : SearchService.Outcome)
  : list SearchService.BlockSearchResult :=
  match o with
  | SearchService.Returned rs => rs
  | SearchService.Threw _ => []
  end.

(** The lower-case UUID pattern, anchored. *)
Definition lowercase_uuid (u : jsstring) : bool := uuid_whole is_lower_hex u.

(** The texts that the UUID pattern matches. *)
Inductive uuid_shape (hex : ascii -> bool) : jsstring -> Prop :=
| uuid_shape_intro a1 a2 a3 a4 a5 :
    length a1 = 8 -> length a2 = 4 -> length a3 = 4 -> length a4 = 4 ->
    length a5 = 12 ->
    forallb hex a1 = true -> forallb hex a2 = true ->
    forallb hex a3 = true -> forallb hex a4 = true ->
    forallb hex a5 = true ->
    uuid_shape hex
      (a1 ++ "-"%char :: a2 ++ "-"%char :: a3 ++ "-"%char :: a4 ++
       "-"%char :: a5).


(** The characters of a UUID. *)
Definition hex_or_dash (c : ascii) : bool := is_hex c || Ascii.eqb c "-".

(** A text that [trim] leaves as it is. *)
Definition trimmed (s : jsstring) : Prop := trimStart s = s /\ trimEnd s = s.

(** A text that [.] matches from end to end. *)
Definition one_line (s : jsstring) : bool :=
  forallb (fun c => negb (is_line_terminator c)) s.

(** The identifier that an item brings along in a well-formed [id]
    property. *)
Definition item_id (it : Item) : option jsstring :=
  match get (item_properties it) (str "id") with
  | Some (PString s) => if UUID_REGEX s then Some s else None
  | _ => None
  end.

(** The identifiers of the items, in order: the [id] property where it
    is well formed, the next value of [uuidv4()] otherwise. *)
Fixpoint assigned_uuids (uuidv4 : nat -> jsstring) (n : nat)
  (items : list Item) : list jsstring :=
  match items with
  | [] => []
  | it :: items' =>
      match item_id it with
      | Some s => s :: assigned_uuids uuidv4 n items'
      | None => uuidv4 n :: assigned_uuids uuidv4 (S n) items'
      end
  end.

(** A block without its links to other blocks. *)
Definition bare (b : LogseqBlock) : LogseqBlock :=
  mkBlock (uuid b) (content b) (level b) (properties b) [] None
          (sourcePath b) (marker b) (priority b).

(** The block that [buildBlockTree] makes of an item, before it is
    linked to its parent and its children. *)
Definition item_block (u sp : jsstring) (it : Item) : LogseqBlock :=
  mkBlock u (item_content it) (item_level it)
          (rest_without_id (item_properties it)) [] None sp
          (fst (parseTaskFromContent (item_content it)))
          (snd (parseTaskFromContent (item_content it))).

Fixpoint item_blocks (uuidv4 : nat -> jsstring) (n : nat) (sp : jsstring)
  (items : list Item) : list LogseqBlock :=
  match items with
  | [] => []
  | it :: items' =>
      match item_id it with
      | Some s => item_block s sp it :: item_blocks uuidv4 n sp items'
      | None =>
          item_block (uuidv4 n) sp it :: item_blocks uuidv4 (S n) sp items'
      end
  end.

(** The blocks of a state of the loop on trees in document order: the
    finished roots, then the open blocks from the bottom of the stack. *)
Fixpoint open_flat (stack : list (LogseqBlock * nat)) : list LogseqBlock :=
  match stack with
  | [] => []
  | (b, _) :: below => open_flat below ++ visit_flat b
  end.

Definition state_flat (st : BuildState) : list LogseqBlock :=
  flattenBlocks (blocks st) ++ open_flat (stack st).

(** *** The heap of [buildBlockTree] as a function of the trees *)

(** The number of blocks of a tree, and of a forest. *)
Definition size (t : LogseqBlock) : nat := length (visit_flat t).
Definition size_list (ts : list LogseqBlock) : nat :=
  length (flattenBlocks ts).

(** The addresses of trees whose objects lie one after the other from
    [base]. *)
Fixpoint addrs (base : nat) (ts : list LogseqBlock) : list nat :=
  match ts with
  | [] => []
  | t :: ts' => base :: addrs (base + size t) ts'
  end.

(** The objects of a tree in document order, the first at address
    [base]. *)
Fixpoint layout (base : nat) (t : LogseqBlock) : list Object :=
  match t with
  | mkBlock _ _ _ _ cs _ _ _ _ =>
      mkObject (with_children t []) (addrs (S base) cs)
      :: (fix layout_children (b : nat) (l : list LogseqBlock)
            : list Object :=
            match l with
            | [] => []
            | x :: l' => layout b x ++ layout_children (b + size x) l'
            end) (S base) cs
  end.

Fixpoint layout_list (base : nat) (ts : list LogseqBlock) : list Object :=
  match ts with
  | [] => []
  | t :: ts' => layout base t ++ layout_list (base + size t) ts'
  end.

(** The root that results when [c] and the blocks below it on the stack
    are finished. *)
Fixpoint closed (c : LogseqBlock) (below : list (LogseqBlock * nat))
  : LogseqBlock :=
  match below with
  | [] => c
  | (p, _) :: below' => closed (push_child p c) below'
  end.

(** The forest that results when every block on the stack is finished. *)
Definition close (z : Zipper.BuildState) : list LogseqBlock :=
  Zipper.blocks z ++
  match Zipper.stack z with
  | [] => []
  | (f, _) :: below => [closed f below]
  end.

(** The objects of the blocks on the stack below a block, with their
    finished children. *)
Fixpoint spine (base : nat) (below : list (LogseqBlock * nat))
  : list Object :=
  match below with
  | [] => []
  | (p, _) :: below' =>
      let bp := base + length (open_flat below') in
      spine base below' ++
      mkObject (with_children p [])
               (addrs (S bp) (children p) ++ [bp + size p])
      :: layout_list (S bp) (children p)
  end.

(** The stack of addresses that stands for a stack of trees. *)
Fixpoint frame_stack (nb : nat) (stack : list (LogseqBlock * nat))
  : list (nat * nat) :=
  match stack with
  | [] => []
  | (_, l) :: below =>
      (nb + length (open_flat below), l) :: frame_stack nb below
  end.

(** A state of [buildBlockTree] and the state of the loop on trees that
    it stands for. *)
Definition represents (h : BlockParser.BuildState) (z : Zipper.BuildState)
  : Prop :=
  BlockParser.heap h = layout_list 0 (close z) /\
  BlockParser.blocks h = addrs 0 (close z) /\
  BlockParser.stack h =
    frame_stack (size_list (Zipper.blocks z)) (Zipper.stack z) /\
  BlockParser.calls h = Zipper.calls z.

(** Every child lies deeper than its parent and names it in
    [parentUuid], all the way down. *)
#[local] Unset Elimination Schemes.
Inductive nested : LogseqBlock -> Prop :=
| nested_intro b :
    Forall (fun c => level b < level c /\ parentUuid c = Some (uuid b) /\
                     nested c)
           (children b) ->
    nested b.

(** A root has no parent. *)
Definition root_ok (r : LogseqBlock) : Prop :=
  parentUuid r = None /\ nested r.

(** [level] is the depth in the tree, all the way down. *)
Inductive at_depth : nat -> LogseqBlock -> Prop :=
| at_depth_intro d b :
    level b = d -> Forall (at_depth (S d)) (children b) -> at_depth d b.
#[local] Set Elimination Schemes.

(** No indentation gap: a level is at most [bound], and the next one at
    most one more than it. *)
Fixpoint gap_free (bound : nat) (levels : list nat) : bool :=
  match levels with
  | [] => true
  | l :: levels' => (l <=? bound) && gap_free (S l) levels'
  end.

Definition no_gaps (levels : list nat) : bool := gap_free 0 levels.

(** The blocks of a tree in document order, with their depth. *)
Fixpoint flat_depth (d : nat) (b : LogseqBlock)
  : list (nat * LogseqBlock) :=
  match b with
  | mkBlock _ _ _ _ cs _ _ _ _ => (d, b) :: flat_map (flat_depth (S d)) cs
  end.

Definition depths (bs : list LogseqBlock) : list nat :=
  map fst (flat_map (flat_depth 0) bs).

(** What the stack of the loop on trees satisfies, from the top down. *)
Fixpoint stack_nested (stack : list (LogseqBlock * nat)) : Prop :=
  match stack with
  | [] => True
  | (b, l) :: below =>
      l = level b /\ nested b /\
      match below with
      | [] => parentUuid b = None
      | (p, _) :: _ => level p < level b /\ parentUuid b = Some (uuid p)
      end /\
      stack_nested below
  end.

Fixpoint stack_depths (stack : list (LogseqBlock * nat)) : Prop :=
  match stack with
  | [] => True
  | (b, l) :: below =>
      l = level b /\ level b = length below /\
      Forall (at_depth (S (level b))) (children b) /\
      stack_depths below
  end.

(** No block is more than one level deeper than the block before it. *)
Fixpoint no_jump (levels : list nat) : bool :=
  match levels with
  | l :: ((l' :: _) as rest) => (l' <=? S l) && no_jump rest
  | _ => true
  end.

(** No block of the list lies deeper than a block in front of it. *)
Definition falls (bs : list LogseqBlock) : Prop :=
  forall k1 c k2,
    bs = k1 ++ c :: k2 -> Forall (fun x => level c <= level x) k1.

(** The children of every block stand in the order of falling levels,
    all the way down. *)
#[local] Unset Elimination Schemes.
Inductive falling : LogseqBlock -> Prop :=
| falling_intro b :
    falls (children b) -> Forall falling (children b) -> falling b.
#[local] Set Elimination Schemes.

(** The finished blocks that the block on top of the stack will stand
    behind: the children of the block below it, or the roots. *)
Definition siblings (roots : list LogseqBlock)
  (below : list (LogseqBlock * nat)) : list LogseqBlock :=
  match below with
  | [] => roots
  | (p, _) :: _ => children p
  end.

(** What the stack of the loop on trees satisfies, from the top down:
    no block on it lies deeper than a finished sibling. *)
Fixpoint stack_falling (roots : list LogseqBlock)
  (stack : list (LogseqBlock * nat)) : Prop :=
  match stack with
  | [] => True
  | (b, l) :: below =>
      l = level b /\ falling b /\
      Forall (fun x => level b <= level x) (siblings roots below) /\
      stack_falling roots below
  end.

(** What a state of the loop on trees satisfies. *)
Definition state_falling (st : BuildState) : Prop :=
  falls (blocks st) /\ Forall falling (blocks st) /\
  stack_falling (blocks st) (stack st).

(** A property key as [PROPERTY_REGEX] captures it. *)
Definition key_ok (k : jsstring) : Prop :=
  k <> [] /\ forallb is_key_char k = true.

Definition text_value_ok (v : PropValue) : Prop :=
  match v with
  | PString s => one_line s = true
  | _ => True
  end.

Definition props_ok (o : Obj) : Prop :=
  Forall (fun kv => key_ok (fst kv) /\ text_value_ok (snd kv)) o.

(** A property line as [serializeBlocks] writes it, without its tabs. *)
Definition written (k shown : jsstring) : jsstring := k ++ str ":: " ++ shown.

(** A property line written from a key and a one-line value. *)
Definition writable (line : jsstring) : Prop :=
  exists k shown,
    line = written k shown /\ key_ok k /\ one_line shown = true.

(** The same, for a key other than [id]. *)
Definition writable_other (line : jsstring) : Prop :=
  exists k shown,
    line = written k shown /\ key_ok k /\ one_line shown = true /\
    k <> str "id".

(** What [parseBlocks] guarantees of an item and of a block. *)
Definition item_clean (it : Item) : Prop :=
  trimmed (item_content it) /\ one_line (item_content it) = true /\
  props_ok (item_properties it).

Definition block_clean (b : LogseqBlock) : Prop :=
  trimmed (content b) /\ one_line (content b) = true /\
  UUID_REGEX (uuid b) = true /\ props_ok (properties b) /\
  Forall (fun kv => fst kv <> str "id") (properties b).

(** The outer loop of [parseBlocks] on all the lines. *)
Definition parse_all (lines : list jsstring) : list Item :=
  parse_lines (length lines) lines.

(** What the inner loop of [parseBlocks] does with a property line. *)
Definition consume (o : Obj) (line : jsstring) : Obj :=
  match PROPERTY_REGEX (trim line) with
  | Some (k, v) => set o k (parsePropertyValue v)
  | None => o
  end.

(** Lines at which the inner loop of [parseBlocks] stops at once. *)
Definition barrier (lines : list jsstring) : Prop :=
  forall lvl o, property_lines lvl lines o = (o, lines).

Section ReadBack.

Variable showNumber : jsstring -> jsstring.

(** The properties read back from the property lines of a block. *)
Definition consumed (b : LogseqBlock) : Obj :=
  fold_left consume (propLines showNumber b) [].

(** The items read back from the lines of a block at depth [d]. *)
Fixpoint items_of (d : nat) (b : LogseqBlock) : list Item :=
  match b with
  | mkBlock _ _ _ _ cs _ _ _ _ =>
      mkItem d (content b) (consumed b) :: flat_map (items_of (S d)) cs
  end.

End ReadBack.


End Notions.
Import Notions.

Module Examples.

(** The four lines of the specification's scenario: the [id::] lines are
    indented by two spaces. *)
Definition scenario : jsstring :=
  str "- Parent block" ++ [lf] ++
  str "  id:: 11111111-1111-1111-1111-111111111111" ++ [lf] ++
  [tab] ++ str "- Child block" ++ [lf] ++
  [tab] ++ str "  id:: 22222222-2222-2222-2222-222222222222".

Definition id1 : jsstring := str "11111111-1111-1111-1111-111111111111".
Definition id2 : jsstring := str "22222222-2222-2222-2222-222222222222".

(** The scenario with the [id::] lines indented by tabs. *)
Definition tab_scenario : jsstring :=
  str "- Parent block" ++ [lf; tab] ++ str "id:: " ++ id1 ++
  [lf; tab] ++ str "- Child block" ++ [lf; tab; tab] ++
  str "id:: " ++ id2.

(** A source of identifiers for closed examples. *)
Definition fixed_uuid (n : nat) : jsstring :=
  str "00000000-0000-4000-8000-000000000000".

(** A printer of numbers for closed examples: the digits of the
    literal. *)
Definition plain_number (literal : jsstring) : jsstring :=
  filter (fun c => negb (is_line_terminator c)) literal.

Definition upper_id : jsstring := str "AAAAAAAA-AAAA-4AAA-8AAA-AAAAAAAAAAAA".
Definition lower_id : jsstring := str "aaaaaaaa-aaaa-4aaa-8aaa-aaaaaaaaaaaa".

(** A block whose [id::] line is written in capitals. *)
Definition upper_id_page : jsstring :=
  str "- a" ++ [lf; tab] ++ str "id:: " ++ upper_id.

(** A block line two tabs below its predecessor. *)
Definition gap_page : jsstring :=
  str "- a" ++ [lf; tab; tab] ++ str "- b".

Definition upper_ref : jsstring := createBlockRef upper_id.
Definition lower_ref : jsstring := createBlockRef lower_id.

Definition no_block (u : jsstring) : option LogseqBlock := None.

(** Two pages: a block of the first holds the query, the second holds it
    in its front matter only. *)
Definition page_a : jsstring := str "- foo".
Definition page_b : jsstring :=
  str "---" ++ [lf] ++ str "title: foo" ++ [lf] ++ str "---" ++ [lf] ++
  str "- bar".

Definition two_pages : SearchService.FileSystem :=
  SearchService.mkFs [str "/g/a.md"; str "/g/b.md"]
    (fun path =>
       if Js.eqb path (str "/g/a.md") then Some page_a
       else if Js.eqb path (str "/g/b.md") then Some page_b
       else None).

Definition only_page_b : SearchService.FileSystem :=
  SearchService.mkFs [str "/g/b.md"] (SearchService.readFile two_pages).

Definition foo_everywhere : SearchService.SearchParams :=
  SearchService.mkParams (Some (str "foo")) None (Some true) (Some true)
                         (Some true) (Some true).

Definition allow_all (path : jsstring) : bool := true.

(** A page of 21 blocks that all hold the query [foo], alone in its
    graph. *)
Definition long_page : jsstring :=
  concat (repeat (str "- foo" ++ [lf]) 21).

Definition long_page_graph : SearchService.FileSystem :=
  SearchService.mkFs [str "/g/long.md"]
    (fun path =>
       if Js.eqb path (str "/g/long.md") then Some long_page else None).

Definition foo_with_limit (limit : Number.number)
  : SearchService.SearchParams :=
  SearchService.mkParams (Some (str "foo")) (Some limit) None None None
                         None.

End Examples.

(* ================================================================== *)
(** ** The path filter *)
(* ================================================================== *)

Module PathFilter.

(** [Partial<PathFilterConfig>] *)
Record PathFilterConfig := mkConfig {
  config_ignoredPatterns : option (list jsstring);
  config_allowedExtensions : option (list jsstring) }.

(** The two private fields of the class. *)
Record PathFilter := mkFilter {
  ignoredPatterns : list jsstring;
  allowedExtensions : list jsstring }.

(** [new PathFilter(config)] *)
Definition new (config : option PathFilterConfig) : PathFilter :=
  mkFilter
    ([str ".logseq/**"; str ".git/**"; str "node_modules/**";
      str ".DS_Store"; str "Thumbs.db"] ++
     match config with
     | Some c => match config_ignoredPatterns c with Some l => l | None => [] end
     | None => []
     end)
    ([str ".md"; str ".markdown"; str ".txt"] ++
     match config with
     | Some c =>
         match config_allowedExtensions c with Some l => l | None => [] end
     | None => []
     end).

(** [s.replace(/\\/g, '/')] *)
Definition slashes (s : jsstring) : jsstring :=
  map (fun c => if Ascii.eqb c "\" then "/"%char else c) s.

(** [s.replace(re, repl)] for the global regular expression of a literal
    [pat] that is not empty and a replacement without [$]: where [pat]
    starts, [repl] is written and the rest of the match is skipped. *)
Fixpoint replace_from (pat repl : jsstring) (skip : nat) (s : jsstring)
  : jsstring :=
  match s with
  | [] => []
  | c :: s' =>
      match skip with
      | S skip' => replace_from pat repl skip' s'
      | 0 =>
          if starts_with pat s
          then repl ++ replace_from pat repl (length pat - 1) s'
          else c :: replace_from pat repl 0 s'
      end
  end.

Definition replace_all (pat repl s : jsstring) : jsstring :=
  replace_from pat repl 0 s.

(** The regular expressions that [simpleGlobMatch] builds are sequences
    of atoms, each with or without a star: a character (plain, or a
    special one behind a backslash), [.], and the class [[^/]]. *)
Inductive Atom :=
| Lit (c : ascii)
| Dot
| NotSlash.

Definition accepts (a : Atom) (c : ascii) : bool :=
  match a with
  | Lit x => Ascii.eqb c x
  | Dot => negb (is_line_terminator c)
  | NotSlash => negb (Ascii.eqb c "/")
  end.

(** [new RegExp(source)] for such a source; [None] for any other
    source. *)
Fixpoint compile (source : jsstring) : option (list (Atom * bool)) :=
  match source with
  | [] => Some []
  | c :: s1 =>
      if Ascii.eqb c "\" then
        match s1 with
        | x :: s2 =>
            match s2 with
            | q :: r' =>
                if Ascii.eqb q "*"
                then option_map (cons (Lit x, true)) (compile r')
                else option_map (cons (Lit x, false)) (compile s2)
            | [] => Some [(Lit x, false)]
            end
        | [] => None
        end
      else if Ascii.eqb c "." then
        match s1 with
        | q :: r' =>
            if Ascii.eqb q "*"
            then option_map (cons (Dot, true)) (compile r')
            else option_map (cons (Dot, false)) (compile s1)
        | [] => Some [(Dot, false)]
        end
      else if Ascii.eqb c "[" then
        match s1 with
        | a :: b :: d :: s4 =>
            if Ascii.eqb a "^" && Ascii.eqb b "/" && Ascii.eqb d "]" then
              match s4 with
              | q :: r' =>
                  if Ascii.eqb q "*"
                  then option_map (cons (NotSlash, true)) (compile r')
                  else option_map (cons (NotSlash, false)) (compile s4)
              | [] => Some [(NotSlash, false)]
              end
            else None
        | _ => None
        end
      else if is_meta c then None
      else
        match s1 with
        | q :: r' =>
            if Ascii.eqb q "*"
            then option_map (cons (Lit c, true)) (compile r')
            else option_map (cons (Lit c, false)) (compile s1)
        | [] => Some [(Lit c, false)]
        end
  end.

(** [regex.test(path)] for the regular expression of the atoms between
    [^] and [$]: a starred atom takes any number of characters that it
    accepts, and the test succeeds if some choice reaches the end of the
    path. *)
Fixpoint matches (re : list (Atom * bool)) (s : jsstring) : bool :=
  match re with
  | [] => match s with [] => true | _ :: _ => false end
  | (a, false) :: re' =>
      match s with
      | c :: s' => accepts a c && matches re' s'
      | [] => false
      end
  | (a, true) :: re' =>
      (fix star (s : jsstring) : bool :=
         matches re' s ||
         match s with
         | c :: s' => accepts a c && star s'
         | [] => false
         end) s
  end.

(** [simpleGlobMatch] *)
Definition simpleGlobMatch (pattern path : jsstring) : bool :=
  let normalizedPattern := slashes pattern in
  let regexPattern :=
    replace_all (str "\?") (str "[^/]")
      (replace_all (str "\*") (str "[^/]*")
         (replace_all (str "\*\*") (str ".*") (escape normalizedPattern))) in
  match compile regexPattern with
  | Some re => matches re path
  | None => false
  end.

(** [s.endsWith(suffix)] *)
Definition endsWith (s suffix : jsstring) : bool :=
  starts_with (rev suffix) (rev s).

(** [s.lastIndexOf(c)] for a character, [None] standing for -1. *)
Fixpoint lastIndexOf (s : jsstring) (c : ascii) : option nat :=
  match s with
  | [] => None
  | x :: s' =>
      match lastIndexOf s' c with
      | Some i => Some (S i)
      | None => if Ascii.eqb x c then Some 0 else None
      end
  end.

(** [isFile] *)
Definition isFile (path : jsstring) : bool :=
  if endsWith path (str "/") then false
  else
    let lastComponent :=
      match lastIndexOf path "/" with
      | None => path
      | Some lastSlashIndex => skipn (lastSlashIndex + 1) path
      end in
    match lastIndexOf lastComponent "." with
    | None => false
    | Some 0 => false
    | Some lastDotIndex =>
        let extension := skipn (lastDotIndex + 1) lastComponent in
        (1 <=? length extension) && (length extension <=? 10) &&
        match extension with
        | [] => false
        | _ :: _ => forallb (fun c => is_lower c || is_upper c || is_digit c)
                            extension
        end
    end.

(** [isAllowed] *)
Definition isAllowed (f : PathFilter) (path : jsstring) : bool :=
  let normalizedPath := slashes path in
  if existsb (fun pattern => simpleGlobMatch pattern normalizedPath)
             (ignoredPatterns f)
  then false
  else if (0 <? length (allowedExtensions f)) && isFile normalizedPath then
    if existsb (fun ext => endsWith (toLowerCase normalizedPath)
                                    (toLowerCase ext))
               (allowedExtensions f)
    then true else false
  else true.

(** [filterPaths] *)
Definition filterPaths (f : PathFilter) (paths : list jsstring)
  : list jsstring :=
  filter (isAllowed f) paths.

End PathFilter.

(* ================================================================== *)
(** ** The URI of a page or block *)
(* ================================================================== *)

Module Uri.

(** The characters that [encodeURIComponent] leaves as they are. *)
Definition is_unreserved (c : ascii) : bool :=
  is_lower c || is_upper c || is_digit c ||
  existsb (Ascii.eqb c) (str "-_.!~*'()").

Definition upper_hex_digit (n : N) : ascii :=
  nth (N.to_nat n) (str "0123456789ABCDEF") "0"%char.

(** One octet of the UTF-8 form, escaped. *)
Definition percent (octet : N) : jsstring :=
  ["%"%char; upper_hex_digit (octet / 16); upper_hex_digit (octet mod 16)].

(** A code unit below 128 is one octet, one from 128 to 255 is two. *)
Definition encode_unit (c : ascii) : jsstring :=
  if is_unreserved c then [c]
  else if (code c <? 128)%N then percent (code c)
  else percent (192 + code c / 64) ++ percent (128 + code c mod 64).

(** [encodeURIComponent(s)] *)
Definition encodeURIComponent (s : jsstring) : jsstring :=
  flat_map encode_unit s.

(** [generateLogseqUri]; an empty [blockUuid] counts as none. *)
Definition generateLogseqUri (graphPath pagePath : jsstring)
  (blockUuid : option jsstring) : jsstring :=
  let encodedPath := encodeURIComponent pagePath in
  match blockUuid with
  | Some ((_ :: _) as uuid) =>
      str "logseq://graph/" ++ encodeURIComponent graphPath ++
      str "/page/" ++ encodedPath ++ str "/block/" ++ uuid
  | _ =>
      str "logseq://graph/" ++ encodeURIComponent graphPath ++
      str "/page/" ++ encodedPath
  end.

End Uri.

(* ================================================================== *)
(** ** filesystem.ts: the operations on the blocks of a page

    [appendBlock], [createBlockRef] and [getBlockRefs] of
    [FileSystemService] read a page with [readPage], which parses its
    body with [parseBlocks], and work on [page.blocks].  The embedding
    of a method that changes the blocks is in two parts.  The first
    lies between [readPage] and [writePage]: it takes the blocks of the
    page and returns, with the result of the method, the text that the
    method hands to [writePage] as the new body of the page.  The
    second, in [Method], is the method as a whole, with [readPage] and
    [writePage] as the functions of the service that they are, which
    return or throw.

    The blocks of a page are objects that [buildBlockTree] made, each
    once, and each pushed into one [children] array (or into [blocks]):
    the forest shares no object.  A change of the object that
    [findBlockByUuid] returned is therefore the change of the forest at
    the first block in document order with that [uuid]. *)
(* ================================================================== *)

Module FileSystemService.

Inductive Outcome (A : Type) :=
| Threw (message : jsstring)
| Returned (value : A).
Arguments Threw {A} message.
Arguments Returned {A} value.

(** The forest with [change] applied to the first block in document
    order whose [uuid] is [u]; [None] if there is none. *)
Fixpoint change_first (u : jsstring) (change : LogseqBlock -> LogseqBlock)
  (b : LogseqBlock) : option LogseqBlock :=
  match b with
  | mkBlock _ _ _ _ cs _ _ _ _ =>
      if Js.eqb (uuid b) u then Some (change b)
      else
        option_map (with_children b)
          ((fix among (l : list LogseqBlock) : option (list LogseqBlock) :=
              match l with
              | [] => None
              | c :: l' =>
                  match change_first u change c with
                  | Some c' => Some (c' :: l')
                  | None => option_map (cons c) (among l')
                  end
              end) cs)
  end.

Fixpoint change_among (u : jsstring) (change : LogseqBlock -> LogseqBlock)
  (bs : list LogseqBlock) : option (list LogseqBlock) :=
  match bs with
  | [] => None
  | b :: bs' =>
      match change_first u change b with
      | Some b' => Some (b' :: bs')
      | None => option_map (cons b) (change_among u change bs')
      end
  end.

(** The [options] of [appendBlock]. *)
Record AppendOptions := mkOptions {
  parentUuid : option jsstring;
  uuid : option jsstring;
  properties : option Obj }.

Section WithHost.

Variable showNumber : jsstring -> jsstring.

(** [appendBlock] between [readPage] and [writePage]: [blocks] is
    [page.blocks], and [fresh] is what [uuidv4()] returns if it is
    called.  It returns the text handed to [writePage] and the new
    block. *)
Definition appendBlock (blocks : list LogseqBlock)
  (path content : jsstring) (options : option AppendOptions)
  (fresh : jsstring) : Outcome (jsstring * LogseqBlock) :=
  let uuid :=
    match options with
    | Some o => match uuid o with Some u => u | None => fresh end
    | None => fresh
    end in
  let properties :=
    match options with
    | Some o => match properties o with Some ps => ps | None => [] end
    | None => []
    end in
  let newBlock := mkBlock uuid content 0 properties [] None path None None in
  match match options with Some o => parentUuid o | None => None end with
  | Some ((_ :: _) as parentUuid) =>
      match findBlockByUuid blocks parentUuid with
      | None => Threw (str "Parent block not found: " ++ parentUuid)
      | Some parent =>
          let newBlock :=
            mkBlock uuid content (level parent + 1) properties []
                    (Some (BlockParser.uuid parent)) path None None in
          match change_among parentUuid (fun p => push_child p newBlock)
                             blocks with
          | Some blocks' =>
              Returned (serializeBlocks showNumber blocks', newBlock)
          | None => Threw (str "Parent block not found: " ++ parentUuid)
          end
      end
  | _ => Returned (serializeBlocks showNumber (blocks ++ [newBlock]),
                   newBlock)
  end.

(** The block with another content. *)
Definition with_content (b : LogseqBlock) (c : jsstring) : LogseqBlock :=
  mkBlock (BlockParser.uuid b) c (level b) (BlockParser.properties b)
          (children b) (BlockParser.parentUuid b) (sourcePath b) (marker b)
          (priority b).

(** [createBlockRef] between [readPage] and [writePage]: it returns
    the text handed to [writePage]. *)
Definition createBlockRef (blocks : list LogseqBlock)
  (targetBlockUuid refUuid : jsstring) : Outcome jsstring :=
  match findBlockByUuid blocks targetBlockUuid with
  | None => Threw (str "Block not found: " ++ targetBlockUuid)
  | Some _ =>
      let ref := BlockRef.createBlockRef refUuid in
      match change_among targetBlockUuid
              (fun block =>
                 with_content block (trim (content block ++ str " " ++ ref)))
              blocks with
      | Some blocks' => Returned (serializeBlocks showNumber blocks')
      | None => Threw (str "Block not found: " ++ targetBlockUuid)
      end
  end.

End WithHost.

(** The inner loop of [getBlockRefs] on the blocks of the page at
    [rel]. *)
Definition page_refs (blocks : list LogseqBlock) (rel lower : jsstring)
  : list (LogseqBlock * jsstring) :=
  map (fun b => (b, rel))
      (filter (fun b => existsb (Js.eqb lower) (extractBlockRefs (content b)))
              (flattenBlocks blocks)).

Section WithGraph.

(** [this.pathFilter.isAllowed] *)
Variable isAllowed : jsstring -> bool.

(** The markdown files of the graph as [findMarkdownFiles] lists them,
    by their path relative to the graph with slashes. *)
Variable files : list jsstring.

(** [page.blocks] of [readPage(rel)], or [None] where [readPage]
    throws. *)
Variable readPage : jsstring -> option (list LogseqBlock).

(** [getBlockRefs] *)
Definition getBlockRefs (uuid : jsstring)
  : list (LogseqBlock * jsstring) :=
  let lower := toLowerCase uuid in
  flat_map
    (fun rel =>
       if negb (isAllowed rel) then []
       else match readPage rel with
            | Some blocks => page_refs blocks rel lower
            | None => []
            end)
    files.

(** [findBlockByUuid] of the service: the first block with that [uuid]
    in the first file that has one. *)
Fixpoint find_in_files (rels : list jsstring) (uuid : jsstring)
  : option LogseqBlock :=
  match rels with
  | [] => None
  | rel :: rels' =>
      if negb (isAllowed rel) then find_in_files rels' uuid
      else match readPage rel with
           | Some blocks =>
               match BlockParser.findBlockByUuid blocks uuid with
               | Some block => Some block
               | None => find_in_files rels' uuid
               end
           | None => find_in_files rels' uuid
           end
  end.

Definition findBlockByUuid (uuid : jsstring) : option LogseqBlock :=
  find_in_files files uuid.

End WithGraph.

(** The two methods that write a page, as a whole: [readPage] in front
    of the part above, [writePage] behind it. *)
Module Method.

(** The part of a page that these methods use: its front matter, which
    they hand on as it is, and its blocks. *)
Record ParsedPage (Frontmatter : Type) := mkPage {
  page_frontmatter : Frontmatter;
  page_blocks : list LogseqBlock }.
Arguments mkPage {Frontmatter} _ _.
Arguments page_frontmatter {Frontmatter} _.
Arguments page_blocks {Frontmatter} _.

(** [PageWriteParams] *)
Record PageWriteParams (Frontmatter : Type) := mkWrite {
  write_path : jsstring;
  write_content : jsstring;
  write_frontmatter : Frontmatter;
  write_mode : jsstring }.
Arguments mkWrite {Frontmatter} _ _ _ _.
Arguments write_path {Frontmatter} _.
Arguments write_content {Frontmatter} _.
Arguments write_frontmatter {Frontmatter} _.
Arguments write_mode {Frontmatter} _.

Section WithDisk.

Variable Frontmatter : Type.
Variable showNumber : jsstring -> jsstring.

(** [this.readPage] and [this.writePage], which return or throw; the
    dynamic import of [uuid] is taken to succeed. *)
Variable readPage : jsstring -> Outcome (ParsedPage Frontmatter).
Variable writePage : PageWriteParams Frontmatter -> Outcome unit.

(** [appendBlock]: its outcome and its calls of [writePage]. *)
Definition appendBlock (path content : jsstring)
  (options : option AppendOptions) (fresh : jsstring)
  : Outcome LogseqBlock * list (PageWriteParams Frontmatter) :=
  match readPage path with
  | Threw message => (Threw message, [])
  | Returned page =>
      match FileSystemService.appendBlock showNumber (page_blocks page)
              path content options fresh with
      | Threw message => (Threw message, [])
      | Returned (serialized, newBlock) =>
          let params :=
            mkWrite path serialized (page_frontmatter page)
                    (str "overwrite") in
          match writePage params with
          | Threw message => (Threw message, [params])
          | Returned _ => (Returned newBlock, [params])
          end
      end
  end.

(** [createBlockRef]: its outcome and its calls of [writePage]. *)
Definition createBlockRef (targetPath targetBlockUuid refUuid : jsstring)
  : Outcome unit * list (PageWriteParams Frontmatter) :=
  match readPage targetPath with
  | Threw message => (Threw message, [])
  | Returned page =>
      match FileSystemService.createBlockRef showNumber (page_blocks page)
              targetBlockUuid refUuid with
      | Threw message => (Threw message, [])
      | Returned serialized =>
          let params :=
            mkWrite targetPath serialized (page_frontmatter page)
                    (str "overwrite") in
          match writePage params with
          | Threw message => (Threw message, [params])
          | Returned _ => (Returned tt, [params])
          end
      end
  end.

End WithDisk.

End Method.

End FileSystemService.

(* ================================================================== *)
(** ** Further notions the properties are stated with *)
(* ================================================================== *)

Module MoreNotions.

(** *** Block references *)

(** The text holds the reference to [u]: the token [((u))] as
    [createBlockRef] writes it. *)
Definition holds_ref (s u : jsstring) : Prop :=
  exists pre post, s = pre ++ createBlockRef u ++ post.

(** *** The block parser *)


(** [normalizedMarker] of [parseTaskFromContent]. *)
Definition normalized (m : TaskMarker) : TaskMarker :=
  match m with CANCELLED => CANCELED | WAITING => WAIT | _ => m end.

(** *** The search *)

(** [relativePath] of [search]: the full path without its first
    [graphPath.length + 1] characters, with its backslashes turned into
    slashes.  It is the path relative to the graph when the full path
    is the graph path, one separator and that path; with a graph path
    that ends in a separator it lacks the first character of that
    path. *)
Definition relative_path (graphPath fullPath : jsstring) : jsstring :=
  map (fun c => if Ascii.eqb c "\" then "/"%char else c)
      (skipn (length graphPath + 1) fullPath).

(** What [search] guarantees of every result: its title is that of its
    path and it counts at least one match; a block result has line
    number 0, a file-level result counts one match and has a line number
    from 1. *)
Definition result_ok (r : SearchService.BlockSearchResult) : Prop :=
  SearchService.t r = SearchService.title_of (SearchService.p r) /\
  1 <= SearchService.mc r /\
  match SearchService.uuid r with
  | Some _ => SearchService.ln r = Some 0
  | None =>
      SearchService.mc r = 1 /\
      exists n, SearchService.ln r = Some n /\ 1 <= n
  end.

(** The result carries the [relativePath] of one of the listed files,
    and the path filter allows that text. *)
Definition from_allowed_file (isAllowed : jsstring -> bool)
  (graphPath : jsstring) (fs : SearchService.FileSystem)
  (r : SearchService.BlockSearchResult) : Prop :=
  isAllowed (SearchService.p r) = true /\
  exists fullPath,
    In fullPath (SearchService.markdownFiles fs) /\
    SearchService.p r = relative_path graphPath fullPath.

(** The file that a call read was listed, and the path filter allows
    its [relativePath]. *)
Definition read_ok (isAllowed : jsstring -> bool) (graphPath : jsstring)
  (fs : SearchService.FileSystem) (a : SearchService.Access) : Prop :=
  match a with
  | SearchService.ListFiles => True
  | SearchService.ReadFile path =>
      In path (SearchService.markdownFiles fs) /\
      isAllowed (relative_path graphPath path) = true
  end.

(** A result for a block. *)
Definition block_level (r : SearchService.BlockSearchResult) : Prop :=
  SearchService.uuid r <> None.

(** The number of results from which [results.length >= maxLimit]
    holds: the next whole number, and 0 below it; none for [NaN] and
    [Infinity], for which it never holds. *)
Definition cap (maxLimit : Number.number) : option Z :=
  match maxLimit with
  | Number.NaN => None
  | Number.NegInfinity => Some 0%Z
  | Number.Finite q => Some (Z.max 0 (Qround.Qceiling q))
  | Number.Infinity => None
  end.

(** *** The URI of a page or block *)

(** The value of a hexadecimal digit in capitals. *)
Definition hex_value (c : ascii) : N :=
  if is_digit c then code c - 48 else code c - 55.

(** The first code unit of an encoded text, and the rest. *)
Definition decode_unit (s : jsstring) : option (ascii * jsstring) :=
  match s with
  | [] => None
  | c :: r =>
      if Ascii.eqb c "%" then
        match r with
        | h1 :: h2 :: r1 =>
            let b1 := (16 * hex_value h1 + hex_value h2)%N in
            if (b1 <? 128)%N then Some (ascii_of_N b1, r1)
            else
              match r1 with
              | _ :: h3 :: h4 :: r2 =>
                  let b2 := (16 * hex_value h3 + hex_value h4)%N in
                  Some (ascii_of_N ((b1 - 192) * 64 + (b2 - 128)), r2)
              | _ => None
              end
        | _ => None
        end
      else Some (c, r)
  end.

(** The [blockUuid] that counts. *)
Definition given_block (blockUuid : option jsstring) : option jsstring :=
  match blockUuid with
  | Some ((_ :: _) as uuid) => Some uuid
  | _ => None
  end.

(** *** The operations on the blocks of a page *)

(** The [parentUuid] of the options that counts: one that is not
    empty. *)
Definition given_parent (options : option FileSystemService.AppendOptions)
  : option jsstring :=
  match options with
  | Some o =>
      match FileSystemService.parentUuid o with
      | Some ((_ :: _) as parentUuid) => Some parentUuid
      | _ => None
      end
  | None => None
  end.

(** [options?.uuid ?? uuidv4()] and [options?.properties ?? {}] *)
Definition asked_uuid (options : option FileSystemService.AppendOptions)
  (fresh : jsstring) : jsstring :=
  match options with
  | Some o =>
      match FileSystemService.uuid o with Some u => u | None => fresh end
  | None => fresh
  end.

Definition asked_properties
  (options : option FileSystemService.AppendOptions) : Obj :=
  match options with
  | Some o =>
      match FileSystemService.properties o with Some ps => ps | None => [] end
  | None => []
  end.

(** The block and its descendants with trimmed contents. *)
Fixpoint tidy (b : LogseqBlock) : LogseqBlock :=
  match b with
  | mkBlock u c l ps cs pu sp m pr =>
      mkBlock u (trim c) l ps (map tidy cs) pu sp m pr
  end.

(** What [serializeBlocks] needs of a block to write it so that
    [parseBlocks] reads it back: a content on one line, a UUID, and
    properties with well-formed keys and one-line values, none of them
    [id]. *)
Definition writable_block (b : LogseqBlock) : Prop :=
  one_line (content b) = true /\
  UUID_REGEX (uuid b) = true /\ props_ok (properties b) /\
  Forall (fun kv => fst kv <> str "id") (properties b).

(** The [uuid] and the content of a block. *)
Definition uuid_content (b : LogseqBlock) : jsstring * jsstring :=
  (uuid b, content b).

(** What the change of the first block with the [uuid] [u] does to the
    blocks in document order: the blocks in front of it keep all but
    their children, the block and its descendants are those of the
    changed block, the blocks behind stay. *)
Definition changed (u : jsstring) (f : LogseqBlock -> LogseqBlock)
  (old new : list LogseqBlock) : Prop :=
  exists l1 l1' b l2,
    old = l1 ++ visit_flat b ++ l2 /\
    new = l1' ++ visit_flat (f b) ++ l2 /\
    map bare l1' = map bare l1 /\
    Forall (fun x => uuid x <> u) l1 /\ uuid b = u.

Definition change_ok (u : jsstring) (f : LogseqBlock -> LogseqBlock)
  (b : LogseqBlock) : Prop :=
  match FileSystemService.change_first u f b with
  | Some b' => changed u f (visit_flat b) (visit_flat b')
  | None => Forall (fun x => uuid x <> u) (visit_flat b)
  end.

(** Why a method that reads a page, changes its blocks and writes it
    threw [message], with the calls of [writePage] it made: [readPage]
    threw it, or the block it needs is [missing] in the page and it
    threw [complaint] followed by the [uuid] it was given, both without
    a call of [writePage]; or its one call of [writePage] threw it. *)
Definition threw_because {Frontmatter : Type}
  (readPage : jsstring ->
              FileSystemService.Outcome (FileSystemService.Method.ParsedPage Frontmatter))
  (writePage : FileSystemService.Method.PageWriteParams Frontmatter ->
               FileSystemService.Outcome unit)
  (path : jsstring) (missing : list LogseqBlock -> option jsstring)
  (complaint message : jsstring)
  (writes : list (FileSystemService.Method.PageWriteParams Frontmatter)) : Prop :=
  (readPage path = FileSystemService.Threw message /\ writes = []) \/
  (exists page u,
      readPage path = FileSystemService.Returned page /\
      missing (FileSystemService.Method.page_blocks page) = Some u /\
      message = complaint ++ u /\ writes = []) \/
  (exists page params,
      readPage path = FileSystemService.Returned page /\
      FileSystemService.Method.write_path params = path /\
      FileSystemService.Method.write_frontmatter params = FileSystemService.Method.page_frontmatter page /\
      writes = [params] /\
      writePage params = FileSystemService.Threw message).

(** The parent that [appendBlock] is asked for and that no block of the
    page has as its [uuid]. *)
Definition missing_parent
  (options : option FileSystemService.AppendOptions)
  (blocks : list LogseqBlock) : option jsstring :=
  match given_parent options with
  | Some pu =>
      match findBlockByUuid blocks pu with
      | Some _ => None
      | None => Some pu
      end
  | None => None
  end.


(** The page at [rel] gives [findBlockByUuid] of the service nothing
    for [u]: the path filter does not allow it, it cannot be read, or
    none of its blocks has the [uuid] [u]. *)
Definition gives_no_block (isAllowed : jsstring -> bool)
  (readPage : jsstring -> option (list LogseqBlock)) (u rel : jsstring)
  : Prop :=
  isAllowed rel = false \/ readPage rel = None \/
  exists blocks, readPage rel = Some blocks /\
                 findBlockByUuid blocks u = None.

End MoreNotions.

Module FilterNotions.

Import PathFilter MoreNotions.

(** The parts of a glob pattern: [**], [*], [?], and any other
    character. *)
Inductive Tok :=
| TAll
| TSeg
| TOne
| TChar (c : ascii).

Fixpoint tokens (p : jsstring) : list Tok :=
  match p with
  | [] => []
  | c :: p' =>
      if Ascii.eqb c "*" then
        match p' with
        | d :: p'' =>
            if Ascii.eqb d "*" then TAll :: tokens p'' else TSeg :: tokens p'
        | [] => [TSeg]
        end
      else if Ascii.eqb c "?" then TOne :: tokens p'
      else TChar c :: tokens p'
  end.

(** What a part of a glob pattern matches: [**] any run of characters
    other than line terminators, [*] any run of characters other than
    [/], [?] one character other than [/], a character itself. *)
Definition atom (t : Tok) : Atom * bool :=
  match t with
  | TAll => (Dot, true)
  | TSeg => (NotSlash, true)
  | TOne => (NotSlash, false)
  | TChar c => (Lit c, false)
  end.

Definition glob (p : jsstring) : list (Atom * bool) := map atom (tokens p).

(** The text of a part in the source of the regular expression, behind
    each of the three replacements of [simpleGlobMatch]. *)
Definition text1 (t : Tok) : jsstring :=
  match t with
  | TAll => str ".*"
  | TSeg => str "\*"
  | TOne => str "\?"
  | TChar c => if is_meta c then ["\"%char; c] else [c]
  end.

Definition text2 (t : Tok) : jsstring :=
  match t with
  | TSeg => str "[^/]*"
  | _ => text1 t
  end.

Definition text3 (t : Tok) : jsstring :=
  match t with
  | TOne => str "[^/]"
  | _ => text2 t
  end.

(** A part that [tokens] makes of a pattern without backslashes. *)
Definition tok_ok (t : Tok) : Prop :=
  match t with
  | TChar c => c <> "*"%char /\ c <> "?"%char /\ c <> "\"%char
  | _ => True
  end.

(** A letter or a digit: [[a-zA-Z0-9]]. *)
Definition alnum (c : ascii) : bool := is_lower c || is_upper c || is_digit c.

(** A path below [.logseq], [.git] or [node_modules] at the root of the
    graph, with no line terminator behind the slash. *)
Definition below_system_directory (p : jsstring) : Prop :=
  exists dir rest,
    In dir [str ".logseq"; str ".git"; str "node_modules"] /\
    p = dir ++ "/"%char :: rest /\ one_line rest = true.

(** What the five patterns of the constructor match. *)
Definition ignored_by_default (p : jsstring) : Prop :=
  below_system_directory p \/ p = str ".DS_Store" \/ p = str "Thumbs.db".

(** The full path of a file below [.logseq], [.git] or [node_modules]
    at the root of the graph: the graph path, one more character (the
    separator), the name of the directory, a slash or backslash, and a
    rest without line terminator. *)
Definition in_system_directory (graphPath fullPath : jsstring) : Prop :=
  exists sep dir sep' rest,
    In dir [str ".logseq"; str ".git"; str "node_modules"] /\
    (sep' = "/"%char \/ sep' = "\"%char) /\ one_line rest = true /\
    fullPath = graphPath ++ sep :: dir ++ sep' :: rest.

(** The file that a call read has no such full path. *)
Definition outside_system_directories (graphPath : jsstring)
  (a : SearchService.Access) : Prop :=
  match a with
  | SearchService.ListFiles => True
  | SearchService.ReadFile path => ~ in_system_directory graphPath path
  end.

End FilterNotions.

Module MoreExamples.

Import Examples.

(** A block whose [uuid] is written in capitals, and a look-up that
    knows this block only. *)
Definition upper_block : LogseqBlock :=
  mkBlock upper_id (str "B") 0 [] [] None [] None None.

Definition find_upper (u : jsstring) : option LogseqBlock :=
  if Js.eqb u upper_id then Some upper_block else None.

(** A graph whose only markdown file lies below [.git], listed for the
    graph path [/g/], which ends in a slash. *)
Definition git_graph : SearchService.FileSystem :=
  SearchService.mkFs [str "/g/.git/x.md"]
    (fun path =>
       if Js.eqb path (str "/g/.git/x.md") then Some page_a else None).

End MoreExamples.

(* ================================================================== *)
(** ** The code on concrete inputs *)
(* ================================================================== *)

Import Examples.

(** C3. On the scenario of the specification (the [id::] lines indented
    by two spaces) [parseBlocks] returns one root of level 0 with one child
    of level 1 whose [parentUuid] is the root's [uuid], but it reads
    neither [id::] line: both identifiers are the ones [uuidv4()]
    returns. *)
Theorem scenario_ids_are_generated :
  forall (uuidv4 : nat -> jsstring) (sp : jsstring),
    parseBlocks uuidv4 scenario sp =
    [mkBlock (uuidv4 0) (str "Parent block") 0 []
       [mkBlock (uuidv4 1) (str "Child block") 1 [] []
          (Some (uuidv4 0)) sp None None]
       None sp None None].
Proof. intros uuidv4 sp. vm_compute. reflexivity. Qed.

(** The same scenario with the [id::] lines indented by tabs, one more
    than their block, as [serializeBlocks] writes them. *)
Lemma scenario_with_tabs :
  forall (uuidv4 : nat -> jsstring) (sp : jsstring),
    parseBlocks uuidv4 tab_scenario sp =
    [mkBlock id1 (str "Parent block") 0 []
       [mkBlock id2 (str "Child block") 1 [] [] (Some id1) sp None None]
       None sp None None].
Proof. intros uuidv4 sp. vm_compute. reflexivity. Qed.

(** C9. Two calls of [hasBlockRef] in a row on a text that is one
    reference: the first answers [true] and leaves [lastIndex] 40, the
    second starts there and answers [false]. *)
Theorem hasBlockRef_depends_on_lastIndex :
  hasBlockRef lower_ref 0 = (true, 40) /\
  hasBlockRef lower_ref 40 = (false, 0) /\
  find_ref lower_ref = Some ([], lower_id, []).
Proof. vm_compute. repeat split; reflexivity. Qed.

(** C5. A reference written in capitals whose look-up finds nothing:
    [resolveBlockRefs] returns the text as it was, [resolveBlockRefsAsync]
    returns the reference in lower case. *)
Theorem async_rewrites_unresolved_reference :
  resolveBlockRefsAsync upper_ref no_block = lower_ref /\
  lower_ref <> upper_ref /\
  fst (resolveBlockRefs upper_ref no_block 0) = upper_ref.
Proof.
  split; [vm_compute; reflexivity|].
  split; [|vm_compute; reflexivity].
  vm_compute. discriminate.
Qed.

(** C7. Page b holds the query in its front matter only.  Scanned alone
    it yields one file-level result with line number 2; scanned behind
    page a, whose block matches, it yields nothing. *)
Theorem file_level_result_needs_empty_results :
  forall (uuidv4 : jsstring -> nat -> jsstring)
         (jsonNumber : jsstring -> jsstring),
    SearchService.search uuidv4 jsonNumber allow_all (str "/g")
      only_page_b foo_everywhere =
    (SearchService.Returned
       [SearchService.mkResult (str "b.md") (str "b") None page_b 1
          (Some 2)],
     [SearchService.ListFiles; SearchService.ReadFile (str "/g/b.md")]) /\
    SearchService.search uuidv4 jsonNumber allow_all (str "/g")
      two_pages foo_everywhere =
    (SearchService.Returned
       [SearchService.mkResult (str "a.md") (str "a")
          (Some (uuidv4 (str "a.md") 0)) (str "foo") 1 (Some 0)],
     [SearchService.ListFiles; SearchService.ReadFile (str "/g/a.md");
      SearchService.ReadFile (str "/g/b.md")]).
Proof. intros uuidv4 jsonNumber. split; vm_compute; reflexivity. Qed.

(* ================================================================== *)
(** ** Strings *)
(* ================================================================== *)

Lemma eqb_eq a b : Js.eqb a b = true <-> a = b.
Proof.
  unfold Js.eqb. destruct (list_eq_dec ascii_dec a b); split; congruence.
Qed.

Lemma eqb_refl a : Js.eqb a a = true.
Proof. now apply eqb_eq. Qed.

Lemma eqb_neq a b : Js.eqb a b = false <-> a <> b.
Proof.
  unfold Js.eqb. destruct (list_eq_dec ascii_dec a b); split; congruence.
Qed.

Lemma trimStart_spaces s : forallb is_space s = true -> trimStart s = [].
Proof.
  induction s as [|c s IH]; simpl; [reflexivity|].
  intros H. apply andb_true_iff in H as [Hc Hs]. now rewrite Hc, IH.
Qed.

Lemma trim_spaces s : forallb is_space s = true -> trim s = [].
Proof. intros H. unfold trim. now rewrite trimStart_spaces. Qed.

(* ================================================================== *)
(** ** search.ts: the empty query and the cap *)
(* ================================================================== *)

(** C8. A query that is absent, empty or white space only makes
    [search] throw, without any access to the disk and without
    results. *)
Theorem search_rejects_blank_query :
  forall uuidv4 jsonNumber isAllowed graphPath fs params,
    blank (SearchService.query params) ->
    SearchService.search uuidv4 jsonNumber isAllowed graphPath fs params =
    (SearchService.Threw (str "Search query cannot be empty"), []).
Proof.
  intros uuidv4 jsonNumber isAllowed graphPath fs params H.
  unfold SearchService.search.
  destruct (SearchService.query params) as [q|]; [|reflexivity].
  simpl in H. rewrite (trim_spaces q H). simpl.
  now rewrite orb_true_r.
Qed.

Lemma search_rejects_blank_query_witness :
  blank (SearchService.query
           (SearchService.mkParams (Some (str "  ")) (Some (Number.of_Z 50))
                                   None None None None)) /\
  SearchService.search (fun _ => fixed_uuid) (fun l => l) allow_all
    (str "/g") two_pages
    (SearchService.mkParams (Some (str "  ")) (Some (Number.of_Z 50))
                            None None None None) =
  (SearchService.Threw (str "Search query cannot be empty"), []).
Proof.
  split; [reflexivity|].
  apply search_rejects_blank_query. reflexivity.
Defined.

(** The comparison with a finite number is the comparison with the next
    whole number. *)
Lemma length_ge_ceiling q n :
  Number.length_ge n (Number.Finite q) =
  (Qround.Qceiling q <=? Z.of_nat n)%Z.
Proof.
  cbn [Number.length_ge].
  destruct (Z.leb_spec (Qround.Qceiling q) (Z.of_nat n)) as [H|H].
  - apply QArith_base.Qle_bool_iff.
    apply (QArith_base.Qle_trans _ _ _ (Qround.Qle_ceiling q)).
    now rewrite <- QArith_base.Zle_Qle.
  - destruct (QArith_base.Qle_bool q
                (QArith_base.inject_Z (Z.of_nat n))) eqn:E; [|reflexivity].
    apply QArith_base.Qle_bool_iff, Qround.Qceiling_resp_le in E.
    rewrite Qround.Qceiling_Z in E. lia.
Qed.

Section Cap.

Variable uuidv4 : jsstring -> nat -> jsstring.
Variable jsonNumber : jsstring -> jsstring.
Variable isAllowed : jsstring -> bool.
Variable graphPath : jsstring.
Variable fs : SearchService.FileSystem.
Variable query0 : jsstring.
Variable maxLimit : Number.number.
Variable cs : bool.

(** [results.length >= maxLimit] holds from [threshold] results on. *)
Variable threshold : Z.
Hypothesis maxLimit_threshold :
  forall n, Number.length_ge n maxLimit = (threshold <=? Z.of_nat n)%Z.

Local Abbreviation block_loop :=
  (SearchService.block_loop jsonNumber query0 maxLimit cs).
Local Abbreviation scan_file :=
  (SearchService.scan_file uuidv4 jsonNumber query0 maxLimit cs).
Local Abbreviation file_loop :=
  (SearchService.file_loop uuidv4 jsonNumber isAllowed graphPath fs query0
     maxLimit cs).

Lemma block_loop_length path flat results :
  (Z.of_nat (length results) < threshold)%Z ->
  (Z.of_nat (length (block_loop path flat results)) <= threshold)%Z.
Proof.
  revert results.
  induction flat as [|block flat IH]; intros results H; simpl; [lia|].
  destruct (includes _ _); [|now apply IH].
  rewrite maxLimit_threshold.
  match goal with
  | |- context [(threshold <=? ?x)%Z] =>
      destruct (Z.leb_spec threshold x) as [Hle|Hlt]
  end.
  - rewrite length_app in *. simpl in *. lia.
  - now apply IH.
Qed.

Lemma scan_file_length sc sf sbp path raw results :
  (Z.of_nat (length results) < threshold)%Z ->
  (Z.of_nat (length (scan_file sc sf sbp path raw results)) <= threshold)%Z.
Proof.
  intros H. unfold SearchService.scan_file.
  destruct (index_of _ _); [|lia].
  match goal with
  | |- context [SearchService.block_loop ?a ?b ?c ?d ?e ?f ?g] =>
      pose proof (block_loop_length e f g H) as Hb;
      destruct (SearchService.block_loop a b c d e f g)
  end; simpl in *; lia.
Qed.

Lemma file_loop_length sc sf sbp files results :
  (Z.of_nat (length results) <= Z.max 0 threshold)%Z ->
  (Z.of_nat (length (fst (file_loop sc sf sbp files results)))
   <= Z.max 0 threshold)%Z.
Proof.
  revert results.
  induction files as [|fullPath files IH]; intros results H; simpl;
    [exact H|].
  destruct (negb (isAllowed _)); [now apply IH|].
  rewrite maxLimit_threshold.
  destruct (Z.leb_spec threshold (Z.of_nat (length results))) as [Hle|Hlt];
    [exact H|].
  match goal with
  | |- context [SearchService.file_loop ?a ?b ?c ?d ?e ?f ?g ?h ?i ?j ?k ?l ?m] =>
      pose proof (IH m) as IH';
      destruct (SearchService.file_loop a b c d e f g h i j k l m)
        as [out reads]
  end.
  simpl in *. apply IH'.
  destruct (SearchService.readFile fs fullPath) as [raw|]; [|exact H].
  pose proof (scan_file_length sc sf sbp
    (map (fun c => if Ascii.eqb c "\" then "/"%char else c)
         (skipn (length graphPath + 1) fullPath)) raw results Hlt) as Hs.
  lia.
Qed.

End Cap.

(** C6. With the limit [NaN], [search] returns all 21 matching blocks of
    a page: [Math.min(NaN, 20)] is [NaN], and [results.length >= NaN] is
    never true.  With the limit 50 it stops at 20 on the same page. *)
Theorem search_with_NaN_limit_is_not_capped :
  forall (uuidv4 : jsstring -> nat -> jsstring)
         (jsonNumber : jsstring -> jsstring),
    length (results_of (fst (SearchService.search uuidv4 jsonNumber
                               allow_all (str "/g") long_page_graph
                               (foo_with_limit Number.NaN)))) = 21 /\
    length (results_of (fst (SearchService.search uuidv4 jsonNumber
                               allow_all (str "/g") long_page_graph
                               (foo_with_limit (Number.of_Z 50))))) = 20.
Proof. intros uuidv4 jsonNumber. split; vm_compute; reflexivity. Qed.

(* ================================================================== *)
(** ** The UUID pattern *)
(* ================================================================== *)

Lemma count_inv p n s r :
  count p n s = Some r ->
  exists a, s = a ++ r /\ length a = n /\ forallb p a = true.
Proof.
  revert s. induction n as [|n IH]; intros s H; simpl in H.
  - exists []. now inversion H.
  - destruct s as [|c s]; [discriminate|].
    destruct (p c) eqn:Hc; [|discriminate].
    destruct (IH _ H) as (a & -> & Hl & Ha).
    exists (c :: a). simpl. now rewrite Hc, Hl, Ha.
Qed.

Lemma count_intro p n a r :
  length a = n -> forallb p a = true -> count p n (a ++ r) = Some r.
Proof.
  intros <-. induction a as [|c a IH]; simpl; [reflexivity|].
  intros H. apply andb_true_iff in H as [Hc Ha]. now rewrite Hc, IH.
Qed.

Lemma app_cons_assoc (a b r : jsstring) c :
  (a ++ c :: b) ++ r = a ++ c :: (b ++ r).
Proof. now rewrite <- app_assoc. Qed.

Lemma lit_inv a s r : lit a s = Some r -> s = a :: r.
Proof.
  destruct s as [|c s]; simpl; [discriminate|].
  destruct (Ascii.eqb_spec c a); [|discriminate]. congruence.
Qed.

Lemma lit_intro a r : lit a (a :: r) = Some r.
Proof. simpl. now rewrite Ascii.eqb_refl. Qed.

Lemma uuid_prefix_inv hex s r :
  uuid_prefix hex s = Some r -> exists u, uuid_shape hex u /\ s = u ++ r.
Proof.
  unfold uuid_prefix, bind. intros H.
  destruct (count hex 8 s) as [s1|] eqn:E1; [|discriminate].
  destruct (lit "-" s1) as [s2|] eqn:E2; [|discriminate].
  destruct (count hex 4 s2) as [s3|] eqn:E3; [|discriminate].
  destruct (lit "-" s3) as [s4|] eqn:E4; [|discriminate].
  destruct (count hex 4 s4) as [s5|] eqn:E5; [|discriminate].
  destruct (lit "-" s5) as [s6|] eqn:E6; [|discriminate].
  destruct (count hex 4 s6) as [s7|] eqn:E7; [|discriminate].
  destruct (lit "-" s7) as [s8|] eqn:E8; [|discriminate].
  apply count_inv in E1 as (a1 & -> & L1 & H1).
  apply count_inv in E3 as (a2 & -> & L2 & H2).
  apply count_inv in E5 as (a3 & -> & L3 & H3).
  apply count_inv in E7 as (a4 & -> & L4 & H4).
  apply count_inv in H as (a5 & -> & L5 & H5).
  apply lit_inv in E2, E4, E6, E8. subst.
  exists (a1 ++ "-"%char :: a2 ++ "-"%char :: a3 ++ "-"%char :: a4 ++
          "-"%char :: a5).
  split; [now constructor|].
  now rewrite !app_cons_assoc.
Qed.

Lemma uuid_prefix_intro hex u r :
  uuid_shape hex u -> uuid_prefix hex (u ++ r) = Some r.
Proof.
  intros [a1 a2 a3 a4 a5 L1 L2 L3 L4 L5 H1 H2 H3 H4 H5].
  unfold uuid_prefix.
  rewrite !app_cons_assoc.
  rewrite (count_intro hex 8 a1) by assumption. cbn [bind].
  rewrite lit_intro. cbn [bind].
  rewrite (count_intro hex 4 a2) by assumption. cbn [bind].
  rewrite lit_intro. cbn [bind].
  rewrite (count_intro hex 4 a3) by assumption. cbn [bind].
  rewrite lit_intro. cbn [bind].
  rewrite (count_intro hex 4 a4) by assumption. cbn [bind].
  rewrite lit_intro. cbn [bind].
  now apply count_intro.
Qed.

Lemma uuid_whole_shape hex u : uuid_whole hex u = true <-> uuid_shape hex u.
Proof.
  unfold uuid_whole. split.
  - destruct (uuid_prefix hex u) as [[|c r]|] eqn:E; try discriminate.
    intros _. apply uuid_prefix_inv in E as (u' & Hu & ->).
    now rewrite app_nil_r.
  - intros H. rewrite <- (app_nil_r u), (uuid_prefix_intro hex u [] H).
    reflexivity.
Qed.

Lemma forallb_mono (p q : ascii -> bool) s :
  (forall c, p c = true -> q c = true) ->
  forallb p s = true -> forallb q s = true.
Proof.
  intros Hpq H. rewrite forallb_forall in *. auto.
Qed.

Lemma uuid_shape_mono (p q : ascii -> bool) u :
  (forall c, p c = true -> q c = true) -> uuid_shape p u -> uuid_shape q u.
Proof.
  intros Hpq [a1 a2 a3 a4 a5 L1 L2 L3 L4 L5 H1 H2 H3 H4 H5].
  constructor; eauto using forallb_mono.
Qed.

Lemma uuid_shape_length hex u : uuid_shape hex u -> length u = 36.
Proof.
  intros [a1 a2 a3 a4 a5 L1 L2 L3 L4 L5 _ _ _ _ _].
  repeat (rewrite length_app; simpl). lia.
Qed.

Lemma uuid_shape_chars hex u :
  uuid_shape hex u ->
  forallb (fun c => hex c || Ascii.eqb c "-") u = true.
Proof.
  intros [a1 a2 a3 a4 a5 _ _ _ _ _ H1 H2 H3 H4 H5].
  assert (M : forall c, hex c = true -> hex c || Ascii.eqb c "-" = true)
    by (intros c ->; reflexivity).
  repeat (rewrite forallb_app; simpl).
  rewrite !(forallb_mono _ _ _ M) by assumption.
  now rewrite !orb_true_r.
Qed.

Ltac each_char c :=
  destruct c as [[] [] [] [] [] [] [] []]; vm_compute; try reflexivity;
  try discriminate; auto.

Lemma lower_hex_is_hex c : is_lower_hex c = true -> is_hex c = true.
Proof. each_char c. Qed.

Lemma lower_char_lower_hex c :
  is_lower_hex c || Ascii.eqb c "-" = true -> lower_char c = c.
Proof. each_char c. Qed.

Lemma toLowerCase_lower_uuid u :
  uuid_shape is_lower_hex u -> toLowerCase u = u.
Proof.
  intros H. apply uuid_shape_chars in H. unfold toLowerCase.
  induction u as [|c u IH]; simpl in *; [reflexivity|].
  apply andb_true_iff in H as [Hc Hu].
  now rewrite lower_char_lower_hex, IH.
Qed.

(* ================================================================== *)
(** ** block-ref.ts: making and reading a reference *)
(* ================================================================== *)

Lemma firstn_exact (u r : jsstring) n : length u = n -> firstn n (u ++ r) = u.
Proof.
  intros <-. rewrite firstn_app, Nat.sub_diag, firstn_all, firstn_O.
  apply app_nil_r.
Qed.

Lemma createBlockRef_app u r :
  createBlockRef u ++ r = "("%char :: "("%char :: u ++ ")"%char :: ")"%char :: r.
Proof.
  unfold createBlockRef. cbn [str list_ascii_of_string app].
  now rewrite <- app_assoc.
Qed.

Lemma ref_prefix_createBlockRef u r :
  uuid_shape is_hex u -> ref_prefix (createBlockRef u ++ r) = Some (u, r).
Proof.
  intros H. rewrite createBlockRef_app. unfold ref_prefix.
  rewrite lit_intro. cbn [bind]. rewrite lit_intro. cbn [bind].
  rewrite (uuid_prefix_intro is_hex u _ H). cbn [bind].
  rewrite lit_intro. cbn [bind]. rewrite lit_intro. cbn [bind].
  now rewrite (firstn_exact u _ 36 (uuid_shape_length _ _ H)).
Qed.

Lemma find_ref_hit s u r :
  ref_prefix s = Some (u, r) -> find_ref s = Some ([], u, r).
Proof. intros H. destruct s; cbn [find_ref]; now rewrite H. Qed.

Lemma find_ref_createBlockRef u r :
  uuid_shape is_hex u -> find_ref (createBlockRef u ++ r) = Some ([], u, r).
Proof. intros H. now apply find_ref_hit, ref_prefix_createBlockRef. Qed.

(** C10. For a lower-case UUID [u], the references extracted from
    [createBlockRef u] are exactly [u]. *)
Theorem extract_createBlockRef :
  forall u, lowercase_uuid u = true ->
            extractBlockRefs (createBlockRef u) = [u].
Proof.
  intros u H. apply uuid_whole_shape in H.
  assert (Hh : uuid_shape is_hex u)
    by (eapply uuid_shape_mono; [exact lower_hex_is_hex | exact H]).
  unfold extractBlockRefs.
  assert (L : length (createBlockRef u) = 40).
  { unfold createBlockRef. rewrite !length_app.
    rewrite (uuid_shape_length _ _ H). reflexivity. }
  rewrite L.
  pose proof (find_ref_createBlockRef u [] Hh) as F.
  rewrite app_nil_r in F.
  cbn [exec_loop]. rewrite F, (toLowerCase_lower_uuid u H).
  reflexivity.
Qed.

Lemma extract_createBlockRef_witness :
  lowercase_uuid lower_id = true /\
  extractBlockRefs (createBlockRef lower_id) = [lower_id].
Proof.
  split; [reflexivity|].
  apply extract_createBlockRef. reflexivity.
Defined.

(* ================================================================== *)
(** ** block-ref.ts: the matches of the reference pattern *)
(* ================================================================== *)

Lemma ref_prefix_inv s u r :
  ref_prefix s = Some (u, r) ->
  s = createBlockRef u ++ r /\ uuid_shape is_hex u.
Proof.
  unfold ref_prefix.
  destruct (lit "(" s) as [s0|] eqn:E0; [|discriminate]. cbn [bind].
  destruct (lit "(" s0) as [s1|] eqn:E1; [|discriminate]. cbn [bind].
  destruct (uuid_prefix is_hex s1) as [s2|] eqn:E2; [|discriminate].
  cbn [bind].
  destruct (lit ")" s2) as [s3|] eqn:E3; [|discriminate]. cbn [bind].
  destruct (lit ")" s3) as [rest|] eqn:E4; [|discriminate]. cbn [bind].
  apply lit_inv in E0, E1, E3, E4. subst s s0 s2 s3.
  apply uuid_prefix_inv in E2 as (v & Hv & ->).
  rewrite (firstn_exact v _ 36 (uuid_shape_length _ _ Hv)).
  intros H. inversion H; subst. split; [|exact Hv].
  now rewrite createBlockRef_app.
Qed.

Lemma find_ref_spec s pre u r :
  find_ref s = Some (pre, u, r) ->
  s = pre ++ createBlockRef u ++ r /\ uuid_shape is_hex u.
Proof.
  revert pre. induction s as [|c s IH]; intros pre; cbn [find_ref].
  - destruct (ref_prefix []) as [[v t]|] eqn:E; [|discriminate].
    intros H. inversion H; subst. now apply ref_prefix_inv.
  - destruct (ref_prefix (c :: s)) as [[v t]|] eqn:E.
    + intros H. inversion H; subst. now apply ref_prefix_inv.
    + destruct (find_ref s) as [[[p v] t]|]; [|discriminate].
      intros H. inversion H; subst.
      destruct (IH p eq_refl) as [-> Hu]. now split.
Qed.

Lemma find_ref_shorter s pre u r :
  find_ref s = Some (pre, u, r) -> length r < length s.
Proof.
  intros H. apply find_ref_spec in H as [-> Hu].
  unfold createBlockRef. rewrite !length_app. simpl. lia.
Qed.

(** The fuel of the loops over the matches is enough. *)
Lemma exec_loop_fuel fuel s :
  length s <= fuel -> exec_loop fuel s = exec_loop (length s) s.
Proof.
  revert s. induction fuel as [fuel IH] using lt_wf_ind. intros s H.
  destruct (find_ref s) as [[[pre u] r]|] eqn:E.
  - pose proof (find_ref_shorter _ _ _ _ E) as L.
    destruct fuel as [|fuel]; [lia|].
    destruct (length s) as [|n] eqn:Ls; [lia|].
    cbn [exec_loop]. rewrite E. f_equal.
    rewrite (IH fuel) by lia. symmetry. apply (IH n); lia.
  - destruct fuel, (length s); cbn [exec_loop]; now rewrite ?E.
Qed.

Lemma replace_refs_fuel fn fuel s :
  length s <= fuel -> replace_refs fuel fn s = replace_refs (length s) fn s.
Proof.
  revert s. induction fuel as [fuel IH] using lt_wf_ind. intros s H.
  destruct (find_ref s) as [[[pre u] r]|] eqn:E.
  - pose proof (find_ref_shorter _ _ _ _ E) as L.
    destruct fuel as [|fuel]; [lia|].
    destruct (length s) as [|n] eqn:Ls; [lia|].
    cbn [replace_refs]. rewrite E. do 2 f_equal.
    rewrite (IH fuel) by lia. symmetry. apply (IH n); lia.
  - destruct fuel, (length s); cbn [replace_refs]; now rewrite ?E.
Qed.

(** [resolveBlockRefs] with a look-up that finds nothing returns the
    text as it was. *)
Lemma resolveBlockRefs_unresolved content lastIndex :
  resolveBlockRefs content no_block lastIndex = (content, 0).
Proof.
  unfold resolveBlockRefs, no_block. f_equal.
  generalize (length content) as fuel. intros fuel. revert content.
  induction fuel as [|fuel IH]; intros s; cbn [replace_refs];
    [reflexivity|].
  destruct (find_ref s) as [[[pre u] r]|] eqn:E; [|reflexivity].
  rewrite IH. now apply find_ref_spec in E as [-> _].
Qed.

(** From [lastIndex] 0, [hasBlockRef] answers whether the text holds a
    reference. *)
Lemma hasBlockRef_fresh content :
  fst (hasBlockRef content 0) =
  match find_ref content with Some _ => true | None => false end.
Proof.
  unfold hasBlockRef. cbn [Nat.ltb Nat.leb skipn].
  now destruct (find_ref content) as [[[pre u] r]|].
Qed.


(* ================================================================== *)
(** ** The loop on trees: document order *)
(* ================================================================== *)

Section BlockInduction.

Variable P : LogseqBlock -> Prop.
Hypothesis step : forall b, Forall P (children b) -> P b.

Lemma block_induction : forall b, P b.
Proof.
  fix IH 1. intros [u c l ps cs pu sp m pr]. apply step. simpl.
  revert cs. fix IHl 1. intros [|c' cs]; constructor.
  - apply IH.
  - apply IHl.
Qed.

End BlockInduction.

Lemma visit_flat_eq b : visit_flat b = b :: flat_map visit_flat (children b).
Proof. now destruct b. Qed.

Lemma flat_depth_eq d b :
  flat_depth d b = (d, b) :: flat_map (flat_depth (S d)) (children b).
Proof. now destruct b. Qed.

Lemma flattenBlocks_app a b :
  flattenBlocks (a ++ b) = flattenBlocks a ++ flattenBlocks b.
Proof. apply flat_map_app. Qed.

Lemma map_bare_push_child p c :
  map bare (visit_flat (push_child p c)) =
  map bare (visit_flat p) ++ map bare (visit_flat c).
Proof.
  rewrite (visit_flat_eq (push_child p c)), (visit_flat_eq p).
  change (children (push_child p c)) with (children p ++ [c]).
  rewrite flat_map_app. cbn [flat_map map]. rewrite app_nil_r, map_app.
  reflexivity.
Qed.

Lemma pop_flat st : map bare (state_flat (pop st)) = map bare (state_flat st).
Proof.
  unfold pop, state_flat.
  destruct (stack st) as [|[b l] [|[p pl] rest]] eqn:E;
    cbn [open_flat blocks stack app].
  - now rewrite E.
  - rewrite flattenBlocks_app, app_nil_r. unfold flattenBlocks at 2.
    cbn [flat_map]. now rewrite app_nil_r.
  - rewrite !map_app, map_bare_push_child. now rewrite <- !app_assoc.
Qed.

Lemma pop_calls st : calls (pop st) = calls st.
Proof.
  unfold pop. now destruct (stack st) as [|[b l] [|[p pl] rest]].
Qed.

Lemma pop_length st : length (stack (pop st)) = pred (length (stack st)).
Proof.
  unfold pop.
  destruct (stack st) as [|[b l] [|[p pl] rest]] eqn:E; simpl;
    [now rewrite E|reflexivity|reflexivity].
Qed.

Lemma pop_while_flat fuel lvl st :
  map bare (state_flat (pop_while fuel lvl st)) = map bare (state_flat st).
Proof.
  revert st. induction fuel as [|fuel IH]; intros st; simpl; [reflexivity|].
  destruct (stack st) as [|[b l] below] eqn:E; [reflexivity|].
  destruct (lvl <=? l); [|reflexivity].
  now rewrite IH, pop_flat.
Qed.

Lemma pop_while_calls fuel lvl st : calls (pop_while fuel lvl st) = calls st.
Proof.
  revert st. induction fuel as [|fuel IH]; intros st; simpl; [reflexivity|].
  destruct (stack st) as [|[b l] below]; [reflexivity|].
  destruct (lvl <=? l); [|reflexivity].
  now rewrite IH, pop_calls.
Qed.

(** With the length of the stack as fuel the loop ends because its
    condition fails. *)
Lemma pop_while_top fuel lvl st :
  length (stack st) <= fuel ->
  match stack (pop_while fuel lvl st) with
  | [] => True
  | (_, l) :: _ => l < lvl
  end.
Proof.
  revert st. induction fuel as [|fuel IH]; intros st H; simpl.
  - destruct (stack st); [exact I|simpl in H; lia].
  - destruct (stack st) as [|[b l] below] eqn:E; [now rewrite E|].
    destruct (Nat.leb_spec lvl l) as [Hle|Hlt].
    + apply IH. rewrite pop_length, E. simpl in *. lia.
    + now rewrite E.
Qed.

Lemma pop_while_all fuel st :
  length (stack st) <= fuel -> stack (pop_while fuel 0 st) = [].
Proof.
  intros H. pose proof (pop_while_top fuel 0 st H) as T.
  destruct (stack (pop_while fuel 0 st)) as [|[b l] ?]; [reflexivity|lia].
Qed.

Section Build.

Variable uuidv4 : nat -> jsstring.
Variable sp : jsstring.

Lemma build_step_flat st it :
  map bare (state_flat (build_step uuidv4 sp st it)) =
  map bare (state_flat st) ++ item_blocks uuidv4 (calls st) sp [it] /\
  calls (build_step uuidv4 sp st it) =
  match item_id it with Some _ => calls st | None => S (calls st) end.
Proof.
  unfold build_step, state_flat. cbn [blocks stack calls open_flat].
  rewrite visit_flat_eq. cbn [children flat_map].
  rewrite app_assoc, map_app.
  change (flattenBlocks (blocks ?s) ++ open_flat (stack ?s))
    with (state_flat s).
  rewrite pop_while_flat. cbn [item_blocks]. unfold item_id.
  destruct (get (item_properties it) (str "id")) as [[s|s|s]|];
    try (split; reflexivity).
  destruct (UUID_REGEX s); split; reflexivity.
Qed.

Lemma item_blocks_cons n it items :
  item_blocks uuidv4 n sp (it :: items) =
  item_blocks uuidv4 n sp [it] ++
  item_blocks uuidv4
    (match item_id it with Some _ => n | None => S n end) sp items.
Proof. simpl. now destruct (item_id it). Qed.

Lemma build_loop_flat items st :
  map bare (state_flat (fold_left (build_step uuidv4 sp) items st)) =
  map bare (state_flat st) ++ item_blocks uuidv4 (calls st) sp items.
Proof.
  revert st. induction items as [|it items IH]; intros st.
  - simpl. now rewrite app_nil_r.
  - cbn [fold_left]. rewrite IH.
    destruct (build_step_flat st it) as [-> ->].
    now rewrite <- app_assoc, <- item_blocks_cons.
Qed.

(** The blocks of the tree, in document order, are the blocks of the
    items in their order. *)
Lemma build_forest_flat items :
  map bare (flattenBlocks (build_forest uuidv4 sp items)) =
  item_blocks uuidv4 0 sp items.
Proof.
  unfold build_forest.
  set (st := build_loop uuidv4 sp items).
  pose proof (pop_while_flat (length (stack st)) 0 st) as F.
  unfold state_flat at 1 in F.
  rewrite (pop_while_all _ st (le_n _)) in F. simpl in F.
  rewrite app_nil_r in F. rewrite F.
  unfold st, build_loop. now rewrite build_loop_flat.
Qed.

End Build.

(* ================================================================== *)
(** ** The loop on trees: parents and levels *)
(* ================================================================== *)

Lemma nested_push_child p c :
  nested p -> nested c -> level p < level c ->
  parentUuid c = Some (uuid p) -> nested (push_child p c).
Proof.
  intros Hp Hc Hl Hu. inversion Hp as [p' Hch]; subst.
  constructor. change (children (push_child p c)) with (children p ++ [c]).
  apply Forall_app. split; [exact Hch|].
  constructor; [|constructor].
  split; [exact Hl|split; [exact Hu|exact Hc]].
Qed.

Lemma pop_nested st :
  Forall root_ok (blocks st) -> stack_nested (stack st) ->
  Forall root_ok (blocks (pop st)) /\ stack_nested (stack (pop st)).
Proof.
  intros Hb Hs. unfold pop.
  destruct (stack st) as [|[b l] [|[p pl] rest]] eqn:E;
    cbn [blocks stack].
  - now rewrite E.
  - simpl in Hs. destruct Hs as (_ & Hn & Hp & _).
    split; [|exact I]. apply Forall_app. split; [exact Hb|].
    constructor; [split; assumption|constructor].
  - split; [exact Hb|].
    destruct Hs as (Hl & Hn & (Hlt & Hpu) & Hl' & Hn' & Hp' & Hrest).
    cbn [stack_nested]. split; [exact Hl'|].
    split; [now apply nested_push_child|].
    split; [exact Hp'|exact Hrest].
Qed.

Lemma pop_while_nested fuel lvl st :
  Forall root_ok (blocks st) -> stack_nested (stack st) ->
  Forall root_ok (blocks (pop_while fuel lvl st)) /\
  stack_nested (stack (pop_while fuel lvl st)).
Proof.
  revert st. induction fuel as [|fuel IH]; intros st Hb Hs; simpl;
    [now split|].
  destruct (stack st) as [|[b l] below] eqn:E; [now rewrite E|].
  destruct (lvl <=? l); [|now rewrite E].
  rewrite <- E in Hs. destruct (pop_nested st Hb Hs). now apply IH.
Qed.

Lemma nested_leaf u c l ps pu sp m pr :
  nested (mkBlock u c l ps [] pu sp m pr).
Proof. constructor. constructor. Qed.

Lemma build_step_nested uuidv4 sp st it :
  Forall root_ok (blocks st) -> stack_nested (stack st) ->
  Forall root_ok (blocks (build_step uuidv4 sp st it)) /\
  stack_nested (stack (build_step uuidv4 sp st it)).
Proof.
  intros Hb Hs. unfold build_step. cbn [blocks stack].
  set (st1 := pop_while (length (stack st)) (item_level it) st).
  destruct (pop_while_nested (length (stack st)) (item_level it) st Hb Hs)
    as [Hb1 Hs1].
  pose proof (pop_while_top (length (stack st)) (item_level it) st
                (le_n _)) as T.
  fold st1 in Hb1, Hs1, T.
  split; [exact Hb1|].
  cbn [stack_nested]. split; [reflexivity|].
  split; [apply nested_leaf|].
  split; [|exact Hs1].
  destruct (stack st1) as [|[p pl] rest]; [reflexivity|].
  cbn [level parentUuid]. destruct Hs1 as (Hl & _). subst pl.
  split; [exact T|reflexivity].
Qed.

Lemma build_loop_nested uuidv4 sp items st :
  Forall root_ok (blocks st) -> stack_nested (stack st) ->
  Forall root_ok (blocks (fold_left (build_step uuidv4 sp) items st)) /\
  stack_nested (stack (fold_left (build_step uuidv4 sp) items st)).
Proof.
  revert st. induction items as [|it items IH]; intros st Hb Hs;
    [now split|].
  cbn [fold_left]. destruct (build_step_nested uuidv4 sp st it Hb Hs).
  now apply IH.
Qed.

(** Every root of the tree has no parent, and every block lies deeper
    than its parent and names it. *)
Lemma build_forest_nested uuidv4 sp items :
  Forall root_ok (build_forest uuidv4 sp items).
Proof.
  unfold build_forest, build_loop.
  destruct (build_loop_nested uuidv4 sp items (mkState [] [] 0))
    as [Hb Hs]; [constructor|exact I|].
  now apply pop_while_nested.
Qed.

(** The children of every block of a nested tree. *)
Lemma nested_children b p c :
  nested b -> In p (visit_flat b) -> In c (children p) ->
  level p < level c /\ parentUuid c = Some (uuid p).
Proof.
  revert p c. induction b as [b IH] using block_induction.
  intros p c Hn Hp Hc. inversion Hn as [b' Hch]; subst.
  rewrite visit_flat_eq in Hp. destruct Hp as [<-|Hp].
  - rewrite Forall_forall in Hch. destruct (Hch c Hc) as (H1 & H2 & _).
    split; assumption.
  - apply in_flat_map in Hp as (k & Hk & Hp).
    rewrite Forall_forall in IH, Hch.
    destruct (Hch k Hk) as (_ & _ & Hnk). exact (IH k Hk p c Hnk Hp Hc).
Qed.

(** A parent stands in front of its child in document order. *)
Lemma visit_flat_order b p c :
  In p (visit_flat b) -> In c (children p) ->
  exists l1 l2 l3, visit_flat b = l1 ++ p :: l2 ++ c :: l3.
Proof.
  revert p c. induction b as [b IH] using block_induction.
  intros p c Hp Hc. rewrite visit_flat_eq in Hp. destruct Hp as [<-|Hp].
  - apply in_split in Hc as (k1 & k2 & Hk).
    exists [], (flat_map visit_flat k1),
      (flat_map visit_flat (children c) ++ flat_map visit_flat k2).
    rewrite visit_flat_eq, Hk, flat_map_app. cbn [flat_map app].
    rewrite (visit_flat_eq c). cbn [app]. now rewrite <- ?app_assoc.
  - apply in_flat_map in Hp as (k & Hk & Hp).
    rewrite Forall_forall in IH.
    destruct (IH k Hk p c Hp Hc) as (l1 & l2 & l3 & E).
    apply in_split in Hk as (k1 & k2 & Hk).
    exists (b :: flat_map visit_flat k1 ++ l1), l2,
      (l3 ++ flat_map visit_flat k2).
    rewrite visit_flat_eq, Hk, flat_map_app. cbn [flat_map].
    rewrite E. cbn [app]. f_equal.
    now rewrite <- !app_assoc, <- !app_comm_cons, <- !app_assoc.
Qed.

Lemma flattenBlocks_order bs p c :
  In p (flattenBlocks bs) -> In c (children p) ->
  exists l1 l2 l3, flattenBlocks bs = l1 ++ p :: l2 ++ c :: l3.
Proof.
  intros Hp Hc. apply in_flat_map in Hp as (b & Hb & Hp).
  destruct (visit_flat_order b p c Hp Hc) as (l1 & l2 & l3 & E).
  apply in_split in Hb as (k1 & k2 & ->).
  exists (flattenBlocks k1 ++ l1), l2, (l3 ++ flattenBlocks k2).
  unfold flattenBlocks. rewrite flat_map_app. cbn [flat_map].
  rewrite E. now rewrite <- !app_assoc, <- !app_comm_cons, <- !app_assoc.
Qed.

(* ================================================================== *)
(** ** The loop on trees: levels without gaps *)
(* ================================================================== *)

Lemma pop_depths st :
  Forall (at_depth 0) (blocks st) -> stack_depths (stack st) ->
  Forall (at_depth 0) (blocks (pop st)) /\ stack_depths (stack (pop st)).
Proof.
  intros Hb Hs. unfold pop.
  destruct (stack st) as [|[b l] [|[p pl] rest]] eqn:E;
    cbn [blocks stack].
  - now rewrite E.
  - simpl in Hs. destruct Hs as (_ & Hl & Hch & _).
    split; [|exact I]. apply Forall_app. split; [exact Hb|].
    constructor; [|constructor]. constructor; [exact Hl|].
    now rewrite Hl in Hch.
  - split; [exact Hb|].
    destruct Hs as (Hl & Hlen & Hch & Hl' & Hlen' & Hch' & Hrest).
    cbn [stack_depths]. split; [exact Hl'|]. split; [exact Hlen'|].
    split; [|exact Hrest].
    change (children (push_child p b)) with (children p ++ [b]).
    change (level (push_child p b)) with (level p).
    apply Forall_app. split; [exact Hch'|].
    assert (Hb' : level b = S (level p)) by (simpl in Hlen; lia).
    constructor; [|constructor].
    constructor; [exact Hb'|now rewrite <- Hb'].
Qed.

Lemma pop_while_depths fuel lvl st :
  Forall (at_depth 0) (blocks st) -> stack_depths (stack st) ->
  lvl <= length (stack st) -> length (stack st) <= fuel ->
  Forall (at_depth 0) (blocks (pop_while fuel lvl st)) /\
  stack_depths (stack (pop_while fuel lvl st)) /\
  length (stack (pop_while fuel lvl st)) = lvl.
Proof.
  revert st. induction fuel as [|fuel IH]; intros st Hb Hs Hl Hf; simpl.
  - split; [exact Hb|]. split; [exact Hs|lia].
  - destruct (stack st) as [|[b l] below] eqn:E.
    + rewrite E. split; [exact Hb|]. split; [exact I|]. simpl in *. lia.
    + destruct (Nat.leb_spec lvl l) as [Hle|Hlt].
      * rewrite <- E in Hs. destruct (pop_depths st Hb Hs) as [Hb' Hs'].
        apply IH; try assumption.
        -- rewrite pop_length, E. rewrite E in Hs.
           destruct Hs as (-> & Hlen & _). simpl. lia.
        -- rewrite pop_length, E. simpl in *. lia.
      * rewrite E. split; [exact Hb|]. split; [exact Hs|].
        destruct Hs as (-> & Hlen & _). simpl in *. lia.
Qed.

Lemma build_step_depths uuidv4 sp st it :
  Forall (at_depth 0) (blocks st) -> stack_depths (stack st) ->
  item_level it <= length (stack st) ->
  Forall (at_depth 0) (blocks (build_step uuidv4 sp st it)) /\
  stack_depths (stack (build_step uuidv4 sp st it)) /\
  length (stack (build_step uuidv4 sp st it)) = S (item_level it).
Proof.
  intros Hb Hs Hl. unfold build_step. cbn [blocks stack].
  destruct (pop_while_depths (length (stack st)) (item_level it) st
              Hb Hs Hl (le_n _)) as (Hb1 & Hs1 & Hlen).
  split; [exact Hb1|]. split.
  - cbn [stack_depths level children]. split; [reflexivity|].
    split; [now rewrite Hlen|]. split; [constructor|exact Hs1].
  - simpl. now rewrite Hlen.
Qed.

Lemma build_loop_depths uuidv4 sp items st :
  Forall (at_depth 0) (blocks st) -> stack_depths (stack st) ->
  gap_free (length (stack st)) (map item_level items) = true ->
  Forall (at_depth 0) (blocks (fold_left (build_step uuidv4 sp) items st))
  /\ stack_depths (stack (fold_left (build_step uuidv4 sp) items st)).
Proof.
  revert st. induction items as [|it items IH]; intros st Hb Hs Hg;
    [now split|].
  cbn [fold_left]. simpl in Hg. apply andb_true_iff in Hg as [Hle Hg].
  apply Nat.leb_le in Hle.
  destruct (build_step_depths uuidv4 sp st it Hb Hs Hle) as (Hb' & Hs' & Hl').
  apply IH; try assumption. now rewrite Hl'.
Qed.

(** Without gaps in the levels of the items, the level of every block is
    its depth in the tree. *)
Lemma build_forest_depths uuidv4 sp items :
  no_gaps (map item_level items) = true ->
  Forall (at_depth 0) (build_forest uuidv4 sp items).
Proof.
  intros Hg. unfold build_forest, build_loop.
  destruct (build_loop_depths uuidv4 sp items (mkState [] [] 0))
    as [Hb Hs]; [constructor|exact I|exact Hg|].
  set (st := fold_left (build_step uuidv4 sp) items (mkState [] [] 0)) in *.
  apply (pop_while_depths (length (stack st)) 0 st Hb Hs);
    [lia|apply le_n].
Qed.

Lemma at_depth_flat d b :
  at_depth d b -> map fst (flat_depth d b) = map level (visit_flat b).
Proof.
  revert d. induction b as [b IH] using block_induction.
  intros d H. inversion H as [d' b' Hl Hch]; subst.
  rewrite flat_depth_eq, visit_flat_eq. cbn [map fst]. f_equal.
  revert IH Hch. generalize (children b) as cs.
  induction cs as [|c cs IHcs]; intros IH Hch; [reflexivity|].
  inversion IH; inversion Hch; subst.
  cbn [flat_map]. rewrite !map_app. f_equal; auto.
Qed.

Lemma at_depth_depths bs :
  Forall (at_depth 0) bs -> depths bs = map level (flattenBlocks bs).
Proof.
  unfold depths, flattenBlocks.
  induction 1 as [|b bs Hb _ IH]; [reflexivity|].
  cbn [flat_map]. rewrite !map_app, IH. f_equal. now apply at_depth_flat.
Qed.

(* ================================================================== *)
(** ** buildBlockTree returns the forest of the loop on trees *)
(* ================================================================== *)

Lemma size_eq t : size t = S (size_list (children t)).
Proof. unfold size, size_list. now rewrite visit_flat_eq. Qed.

Lemma size_list_cons t ts : size_list (t :: ts) = size t + size_list ts.
Proof.
  unfold size_list, size, flattenBlocks. cbn [flat_map].
  apply length_app.
Qed.

Lemma size_list_app ts us :
  size_list (ts ++ us) = size_list ts + size_list us.
Proof.
  unfold size_list. rewrite flattenBlocks_app. apply length_app.
Qed.

Lemma addrs_app b ts us :
  addrs b (ts ++ us) = addrs b ts ++ addrs (b + size_list ts) us.
Proof.
  revert b. induction ts as [|t ts IH]; intros b; cbn [app addrs].
  - unfold size_list. cbn. now rewrite Nat.add_0_r.
  - rewrite IH, size_list_cons. now rewrite Nat.add_assoc.
Qed.

Lemma layout_eq base t :
  layout base t =
  mkObject (with_children t []) (addrs (S base) (children t))
  :: layout_list (S base) (children t).
Proof.
  destruct t as [u c l ps cs pu sp m pr]. cbn [layout children].
  f_equal.
Qed.

Lemma layout_list_app b ts us :
  layout_list b (ts ++ us) =
  layout_list b ts ++ layout_list (b + size_list ts) us.
Proof.
  revert b. induction ts as [|t ts IH]; intros b; cbn [app layout_list].
  - unfold size_list. cbn. now rewrite Nat.add_0_r.
  - rewrite IH, size_list_cons, <- app_assoc. now rewrite Nat.add_assoc.
Qed.

Lemma length_layout t : forall base, length (layout base t) = size t.
Proof.
  induction t as [t IH] using block_induction. intros base.
  rewrite layout_eq, size_eq. cbn [length]. f_equal.
  generalize (S base) as b. revert IH.
  generalize (children t) as cs.
  induction cs as [|x cs IHcs]; intros IH b; [reflexivity|].
  inversion IH as [|x' cs' Hx Hcs]; subst.
  cbn [layout_list]. rewrite length_app, Hx, IHcs by assumption.
  now rewrite size_list_cons.
Qed.

Lemma length_layout_list ts base :
  length (layout_list base ts) = size_list ts.
Proof.
  revert base. induction ts as [|t ts IH]; intros base; [reflexivity|].
  cbn [layout_list]. now rewrite length_app, length_layout, IH, size_list_cons.
Qed.

Lemma size_push_child p c : size (push_child p c) = size p + size c.
Proof.
  rewrite (size_eq (push_child p c)), (size_eq p).
  change (children (push_child p c)) with (children p ++ [c]).
  rewrite size_list_app, size_list_cons.
  change (size_list []) with 0. lia.
Qed.

Lemma length_open_flat_cons p l below :
  length (open_flat ((p, l) :: below)) = length (open_flat below) + size p.
Proof. cbn [open_flat]. apply length_app. Qed.

Lemma layout_push_child base p c :
  layout base (push_child p c) =
  mkObject (with_children p []) (addrs (S base) (children p) ++ [base + size p])
  :: layout_list (S base) (children p) ++ layout (base + size p) c.
Proof.
  rewrite layout_eq.
  change (children (push_child p c)) with (children p ++ [c]).
  change (with_children (push_child p c) []) with (with_children p []).
  rewrite addrs_app, layout_list_app. cbn [addrs layout_list].
  rewrite app_nil_r, (size_eq p).
  now replace (S base + size_list (children p))
    with (base + S (size_list (children p))) by lia.
Qed.

Lemma layout_closed below : forall base c,
  layout base (closed c below) =
  spine base below ++ layout (base + length (open_flat below)) c.
Proof.
  induction below as [|[p l] below IH]; intros base c.
  - cbn. now rewrite Nat.add_0_r.
  - cbn [closed spine]. rewrite IH, layout_push_child.
    rewrite length_open_flat_cons, <- app_assoc. cbn [app].
    now rewrite Nat.add_assoc.
Qed.

Lemma length_spine base below :
  length (spine base below) = length (open_flat below).
Proof.
  induction below as [|[p l] below IH]; [reflexivity|].
  cbn [spine]. rewrite length_app, IH, length_open_flat_cons.
  cbn [length]. now rewrite length_layout_list, size_eq.
Qed.

Lemma size_closed below : forall c,
  size (closed c below) = length (open_flat below) + size c.
Proof.
  induction below as [|[p l] below IH]; intros c; [reflexivity|].
  cbn [closed]. rewrite IH, size_push_child, length_open_flat_cons. lia.
Qed.

Lemma close_pop z : close (pop z) = close z.
Proof.
  unfold close, pop.
  destruct (Zipper.stack z) as [|[b l] [|[p pl] rest]] eqn:E;
    cbn [Zipper.blocks Zipper.stack closed].
  - now rewrite E.
  - now rewrite app_nil_r.
  - reflexivity.
Qed.

Lemma frame_stack_pop z :
  frame_stack (size_list (Zipper.blocks (pop z))) (Zipper.stack (pop z)) =
  tl (frame_stack (size_list (Zipper.blocks z)) (Zipper.stack z)).
Proof.
  unfold pop.
  destruct (Zipper.stack z) as [|[b l] [|[p pl] rest]] eqn:E;
    cbn [Zipper.blocks Zipper.stack frame_stack tl].
  - now rewrite E.
  - reflexivity.
  - reflexivity.
Qed.

(** The two loops that pop the stack go together. *)
Lemma pop_while_represents fuel lvl z :
  length (Zipper.stack z) <= fuel ->
  let z1 := Zipper.pop_while fuel lvl z in
  BlockParser.pop_while lvl
    (frame_stack (size_list (Zipper.blocks z)) (Zipper.stack z)) =
  frame_stack (size_list (Zipper.blocks z1)) (Zipper.stack z1) /\
  close z1 = close z /\ Zipper.calls z1 = Zipper.calls z.
Proof.
  revert z. induction fuel as [|fuel IH]; intros z H; cbn zeta.
  - destruct (Zipper.stack z) eqn:E; [|simpl in H; lia].
    cbn [Zipper.pop_while]. rewrite E. now repeat split.
  - cbn [Zipper.pop_while].
    destruct (Zipper.stack z) as [|[b l] below] eqn:E.
    + rewrite E. now repeat split.
    + cbn [frame_stack BlockParser.pop_while].
      destruct (lvl <=? l) eqn:Hl.
      * assert (Hp : length (Zipper.stack (pop z)) <= fuel)
          by (rewrite pop_length, E; simpl in *; lia).
        destruct (IH (pop z) Hp) as (H1 & H2 & H3).
        rewrite <- H1, frame_stack_pop, E, H2, H3, close_pop, pop_calls.
        now repeat split.
      * rewrite E. cbn [frame_stack]. now repeat split.
Qed.

Lemma push_ref_app l1 l2 k a :
  push_ref (l1 ++ l2) (length l1 + k) a = l1 ++ push_ref l2 k a.
Proof. induction l1 as [|o l1 IH]; [reflexivity|]. cbn. now rewrite IH. Qed.

Lemma nth_error_skip {A} (l1 l2 : list A) :
  nth_error (l1 ++ l2) (length l1) = nth_error l2 0.
Proof. rewrite nth_error_app2, Nat.sub_diag by lia. reflexivity. Qed.

Lemma with_children_leaf n : children n = [] -> with_children n [] = n.
Proof. destruct n. simpl. now intros ->. Qed.

Lemma with_children_children t : with_children t (children t) = t.
Proof. now destruct t. Qed.

Lemma layout_leaf base n : children n = [] -> layout base n = [mkObject n []].
Proof.
  intros H. rewrite layout_eq, H. cbn [addrs layout_list].
  now rewrite with_children_leaf.
Qed.

Lemma push_ref_at X o L k a :
  length X = k ->
  push_ref (X ++ o :: L) k a = X ++ mkObject (fields o) (refs o ++ [a]) :: L.
Proof.
  intros <-. rewrite <- (Nat.add_0_r (length X)). now rewrite push_ref_app.
Qed.

Lemma nth_error_at {A} (X : list A) o L k :
  length X = k -> nth_error (X ++ o :: L) k = Some o.
Proof. intros <-. now rewrite nth_error_skip. Qed.

(** A new block under the block on top of the stack: one reference more
    in the parent's object, and one object more at the end of the heap. *)
Lemma layout_new_leaf LB nb below f n :
  children n = [] -> length LB = nb ->
  let ap := nb + length (open_flat below) in
  let heap := LB ++ layout nb (closed f below) in
  push_ref heap ap (length heap) ++ [mkObject n []] =
  LB ++ layout nb (closed (push_child f n) below) /\
  nth_error heap ap =
  Some (mkObject (with_children f []) (addrs (S ap) (children f))) /\
  length heap = ap + size f.
Proof.
  intros Hn HLB ap heap. unfold heap.
  rewrite !layout_closed. fold ap.
  assert (HX : length (LB ++ spine nb below) = ap)
    by (rewrite length_app, length_spine, HLB; reflexivity).
  rewrite !app_assoc.
  set (X := LB ++ spine nb below) in *.
  assert (Hlen : length (X ++ layout ap f) = ap + size f)
    by (now rewrite length_app, HX, length_layout).
  rewrite Hlen, layout_push_child, (layout_leaf _ n Hn), (layout_eq ap f).
  split; [|split; [|reflexivity]].
  - rewrite (push_ref_at X _ _ ap _ HX). cbn [fields refs].
    rewrite <- app_assoc. reflexivity.
  - now apply nth_error_at.
Qed.

Section Refinement.

Variable uuidv4 : nat -> jsstring.
Variable sp : jsstring.

Lemma build_step_represents h z it :
  represents h z ->
  represents (BlockParser.build_step uuidv4 sp h it)
             (Zipper.build_step uuidv4 sp z it).
Proof.
  intros (Hh & Hb & Hs & Hc).
  unfold BlockParser.build_step, Zipper.build_step.
  destruct (pop_while_represents (length (Zipper.stack z)) (item_level it) z
              (le_n _)) as (P1 & P2 & P3).
  set (z1 := Zipper.pop_while (length (Zipper.stack z)) (item_level it) z)
    in *.
  rewrite Hs, P1, Hc. rewrite <- P2 in Hh, Hb. clear P1 P2 P3 Hs Hc.
  unfold close in Hh, Hb.
  destruct (Zipper.stack z1) as [|[f l1] below] eqn:E;
    cbn [frame_stack].
  - rewrite app_nil_r in Hh, Hb.
    assert (Hlen : length (heap h) = size_list (Zipper.blocks z1))
      by (rewrite Hh; apply length_layout_list).
    unfold represents, close.
    cbn [BlockParser.heap BlockParser.blocks BlockParser.stack
         BlockParser.calls Zipper.blocks Zipper.stack Zipper.calls
         closed frame_stack open_flat length].
    rewrite layout_list_app, addrs_app. cbn [layout_list addrs].
    rewrite layout_leaf by reflexivity.
    rewrite Hh at 1. rewrite Hb, Hlen, !Nat.add_0_l, Nat.add_0_r.
    now repeat split.
  - set (nb := size_list (Zipper.blocks z1)) in *.
    rewrite layout_list_app in Hh. cbn [layout_list] in Hh.
    rewrite app_nil_r, Nat.add_0_l in Hh. fold nb in Hh.
    rewrite addrs_app in Hb. cbn [addrs] in Hb.
    rewrite Nat.add_0_l in Hb. fold nb in Hb.
    match goal with
    | |- context [mkBlock ?u ?c ?l ?r [] (Some (uuid f)) ?s ?m ?p] =>
        set (n := mkBlock u c l r [] (Some (uuid f)) s m p)
    end.
    destruct (layout_new_leaf (layout_list 0 (Zipper.blocks z1)) nb below f n
                eq_refl (length_layout_list _ 0)) as (L1 & L2 & L3).
    rewrite <- Hh in L1, L2, L3.
    unfold represents, close.
    cbn [BlockParser.heap BlockParser.blocks BlockParser.stack
         BlockParser.calls Zipper.blocks Zipper.stack Zipper.calls
         closed frame_stack].
    rewrite L2. cbn [option_map fields].
    change (uuid (with_children f [])) with (uuid f). fold n.
    rewrite L1, L3, layout_list_app, addrs_app. cbn [layout_list addrs].
    rewrite app_nil_r, !Nat.add_0_l. fold nb.
    rewrite length_open_flat_cons, Nat.add_assoc, Hb.
    now repeat split.
Qed.

Lemma build_loop_represents items h z :
  represents h z ->
  represents (fold_left (BlockParser.build_step uuidv4 sp) items h)
             (fold_left (Zipper.build_step uuidv4 sp) items z).
Proof.
  revert h z. induction items as [|it items IH]; intros h z H;
    [exact H|].
  cbn [fold_left]. now apply IH, build_step_represents.
Qed.

End Refinement.

Lemma read_children fuel cs :
  Forall (fun c => forall pre post base fuel,
            length pre = base -> size c <= fuel ->
            read fuel (pre ++ layout base c ++ post) base = c) cs ->
  forall pre post b,
    size_list cs <= fuel -> length pre = b ->
    map (read fuel (pre ++ layout_list b cs ++ post)) (addrs b cs) = cs.
Proof.
  induction 1 as [|c cs Hc _ IHcs]; intros pre post b Hs Hp;
    [reflexivity|].
  rewrite size_list_cons in Hs. cbn [addrs map layout_list]. f_equal.
  - rewrite <- app_assoc. apply Hc; [exact Hp|lia].
  - rewrite <- app_assoc, app_assoc.
    apply IHcs; [lia|].
    now rewrite length_app, length_layout, Hp.
Qed.

(** Reading the heap of a forest gives the forest back. *)
Lemma read_layout t :
  forall pre post base fuel,
    length pre = base -> size t <= fuel ->
    read fuel (pre ++ layout base t ++ post) base = t.
Proof.
  induction t as [t IH] using block_induction.
  intros pre post base fuel Hpre Hfuel.
  rewrite size_eq in Hfuel. destruct fuel as [|fuel]; [lia|].
  cbn [read]. rewrite layout_eq. cbn [app].
  rewrite (nth_error_at pre _ _ base Hpre). cbn [fields refs].
  pose proof (read_children fuel (children t) IH
                (pre ++ [mkObject (with_children t [])
                                  (addrs (S base) (children t))])
                post (S base)) as G.
  rewrite <- app_assoc in G. cbn [app] in G.
  rewrite G.
  - now destruct t.
  - lia.
  - rewrite length_app, Hpre. cbn. lia.
Qed.

Lemma read_layout_list ts fuel :
  size_list ts <= fuel ->
  map (read fuel (layout_list 0 ts)) (addrs 0 ts) = ts.
Proof.
  intros Hfuel.
  pose proof (read_children fuel ts) as G.
  specialize (G (proj2 (Forall_forall _ _) (fun c _ => read_layout c))).
  specialize (G [] [] 0 Hfuel eq_refl).
  now rewrite app_nil_r in G.
Qed.

Lemma close_pop_while fuel z :
  length (Zipper.stack z) <= fuel ->
  Zipper.blocks (Zipper.pop_while fuel 0 z) = close z.
Proof.
  revert z. induction fuel as [|fuel IH]; intros z H.
  - cbn. unfold close. destruct (Zipper.stack z); [|simpl in H; lia].
    now rewrite app_nil_r.
  - cbn [Zipper.pop_while]. destruct (Zipper.stack z) as [|[b l] below] eqn:E.
    + unfold close. rewrite E. now rewrite app_nil_r.
    + cbn [Nat.leb]. rewrite IH, close_pop; [reflexivity|].
      rewrite pop_length, E. simpl in *. lia.
Qed.

(** [buildBlockTree] returns the forest of the loop on trees. *)
Lemma buildBlockTree_forest uuidv4 sp items :
  buildBlockTree uuidv4 sp items = build_forest uuidv4 sp items.
Proof.
  unfold buildBlockTree, build_forest, BlockParser.build_loop,
    Zipper.build_loop.
  assert (R0 : represents (BlockParser.mkState [] [] [] 0)
                          (Zipper.mkState [] [] 0))
    by (now repeat split).
  pose proof (build_loop_represents uuidv4 sp items _ _ R0)
    as (Hh & Hb & _ & _).
  rewrite close_pop_while by apply le_n.
  rewrite Hh, Hb, length_layout_list.
  now apply read_layout_list.
Qed.

Lemma parseBlocks_forest uuidv4 text sp :
  parseBlocks uuidv4 text sp = build_forest uuidv4 sp (parse_items text).
Proof. apply buildBlockTree_forest. Qed.


(* ================================================================== *)
(** ** parseBlocks: identifiers and parents *)
(* ================================================================== *)

Lemma map_level_bare l : map level (map bare l) = map level l.
Proof. rewrite map_map. now apply map_ext. Qed.

Lemma map_uuid_bare l : map uuid (map bare l) = map uuid l.
Proof. rewrite map_map. now apply map_ext. Qed.

Lemma map_content_bare l : map content (map bare l) = map content l.
Proof. rewrite map_map. now apply map_ext. Qed.

Lemma item_blocks_level uuidv4 n sp items :
  map level (item_blocks uuidv4 n sp items) = map item_level items.
Proof.
  revert n. induction items as [|it items IH]; intros n; [reflexivity|].
  simpl. destruct (item_id it); simpl; now rewrite IH.
Qed.

Lemma item_blocks_content uuidv4 n sp items :
  map content (item_blocks uuidv4 n sp items) = map item_content items.
Proof.
  revert n. induction items as [|it items IH]; intros n; [reflexivity|].
  simpl. destruct (item_id it); simpl; now rewrite IH.
Qed.

Lemma item_blocks_uuid uuidv4 n sp items :
  map uuid (item_blocks uuidv4 n sp items) = assigned_uuids uuidv4 n items.
Proof.
  revert n. induction items as [|it items IH]; intros n; [reflexivity|].
  simpl. destruct (item_id it); simpl; now rewrite IH.
Qed.

Lemma parseBlocks_level uuidv4 text sp :
  map level (flattenBlocks (parseBlocks uuidv4 text sp)) =
  map item_level (parse_items text).
Proof.
  rewrite parseBlocks_forest.
  now rewrite <- map_level_bare, build_forest_flat, item_blocks_level.
Qed.

Lemma parseBlocks_content uuidv4 text sp :
  map content (flattenBlocks (parseBlocks uuidv4 text sp)) =
  map item_content (parse_items text).
Proof.
  rewrite parseBlocks_forest.
  now rewrite <- map_content_bare, build_forest_flat, item_blocks_content.
Qed.

Lemma parseBlocks_uuid uuidv4 text sp :
  map uuid (flattenBlocks (parseBlocks uuidv4 text sp)) =
  assigned_uuids uuidv4 0 (parse_items text).
Proof.
  rewrite parseBlocks_forest.
  now rewrite <- map_uuid_bare, build_forest_flat, item_blocks_uuid.
Qed.

Lemma item_id_valid it s : item_id it = Some s -> UUID_REGEX s = true.
Proof.
  unfold item_id.
  destruct (get (item_properties it) (str "id")) as [[v|v|v]|];
    try discriminate.
  destruct (UUID_REGEX v) eqn:E; [|discriminate]. congruence.
Qed.

Lemma assigned_uuids_valid uuidv4 n items :
  (forall k, UUID_REGEX (uuidv4 k) = true) ->
  Forall (fun u => UUID_REGEX u = true) (assigned_uuids uuidv4 n items).
Proof.
  intros Hg. revert n.
  induction items as [|it items IH]; intros n; simpl; [constructor|].
  destruct (item_id it) as [s|] eqn:E; constructor; auto.
  eapply item_id_valid; eassumption.
Qed.

(** C4, as the code has it.  In document order the identifiers of the
    parsed blocks are: the value of the block's [id] property where that
    is a string of the UUID shape in either case of the hex digits, the
    next value of [uuidv4()] otherwise.  With a [uuidv4] that returns
    UUIDs, every identifier has the UUID shape in either case. *)
Theorem parsed_uuids :
  forall uuidv4 text sp,
    (forall n, UUID_REGEX (uuidv4 n) = true) ->
    map uuid (flattenBlocks (parseBlocks uuidv4 text sp)) =
    assigned_uuids uuidv4 0 (parse_items text) /\
    Forall (fun b => UUID_REGEX (uuid b) = true)
           (flattenBlocks (parseBlocks uuidv4 text sp)).
Proof.
  intros uuidv4 text sp Hg. split; [apply parseBlocks_uuid|].
  apply (proj1 (Forall_map uuid (fun u => UUID_REGEX u = true) _)).
  rewrite parseBlocks_uuid. now apply assigned_uuids_valid.
Qed.

Lemma parsed_uuids_witness :
  (forall n, UUID_REGEX (fixed_uuid n) = true) /\
  map uuid (flattenBlocks (parseBlocks fixed_uuid upper_id_page [])) =
  assigned_uuids fixed_uuid 0 (parse_items upper_id_page) /\
  Forall (fun b => UUID_REGEX (uuid b) = true)
         (flattenBlocks (parseBlocks fixed_uuid upper_id_page [])).
Proof.
  split; [intros n; reflexivity|].
  apply parsed_uuids. intros n; reflexivity.
Defined.

(** C4 as stated fails: an [id] in capitals is not a lower-case UUID, and
    the block carries it all the same, not a fresh identifier. *)
Lemma upper_case_id_is_kept :
  map uuid (flattenBlocks (parseBlocks fixed_uuid upper_id_page [])) =
  [upper_id] /\
  lowercase_uuid upper_id = false /\
  upper_id <> fixed_uuid 0.
Proof.
  split; [vm_compute; reflexivity|].
  split; [vm_compute; reflexivity|].
  vm_compute. discriminate.
Qed.

Lemma at_depth_children d b p c :
  at_depth d b -> In p (visit_flat b) -> In c (children p) ->
  level c = S (level p).
Proof.
  revert d p c. induction b as [b IH] using block_induction.
  intros d p c H Hp Hc. inversion H as [d' b' Hl Hch]; subst.
  rewrite visit_flat_eq in Hp. rewrite Forall_forall in Hch, IH.
  destruct Hp as [<-|Hp].
  - specialize (Hch c Hc). now inversion Hch.
  - apply in_flat_map in Hp as (k & Hk & Hp).
    exact (IH k Hk _ p c (Hch k Hk) Hp Hc).
Qed.

Lemma falls_nil : falls [].
Proof. intros [|x k1] c k2 H; discriminate H. Qed.

Lemma falls_snoc bs t :
  falls bs -> Forall (fun x => level t <= level x) bs -> falls (bs ++ [t]).
Proof.
  intros Hf Ht k1 c k2 E.
  destruct k2 as [|z k2'] using rev_ind.
  - apply app_inj_tail in E as [-> ->]. exact Ht.
  - clear IHk2'.
    change (k1 ++ c :: k2' ++ [z]) with (k1 ++ (c :: k2') ++ [z]) in E.
    rewrite app_assoc in E. apply app_inj_tail in E as [-> _].
    now apply (Hf k1 c k2').
Qed.

Lemma falling_leaf u c l ps pu sp m pr :
  falling (mkBlock u c l ps [] pu sp m pr).
Proof. constructor; [apply falls_nil|constructor]. Qed.

Lemma falling_push_child p b :
  falling p -> falling b ->
  Forall (fun x => level b <= level x) (children p) ->
  falling (push_child p b).
Proof.
  intros Hp Hb Hl. inversion Hp as [p' Hf Hch]; subst.
  constructor; change (children (push_child p b)) with (children p ++ [b]).
  - now apply falls_snoc.
  - apply Forall_app. split; [exact Hch|now constructor].
Qed.

(** A pop keeps it, and leaves no finished sibling above the level of
    the block that was popped. *)
Lemma pop_falling st b l below :
  stack st = (b, l) :: below -> state_falling st ->
  state_falling (pop st) /\
  Forall (fun x => l <= level x) (siblings (blocks (pop st)) (stack (pop st))).
Proof.
  intros E (Hr & Hfr & Hs). unfold pop, state_falling. rewrite E in *.
  destruct below as [|[p pl] rest]; cbn [blocks stack].
  - destruct Hs as (-> & Hb & Hsib & _). cbn [siblings] in *.
    split; [split; [now apply falls_snoc|split; [|exact I]]|].
    + apply Forall_app. split; [exact Hfr|now constructor].
    + apply Forall_app. split; [exact Hsib|now constructor].
  - destruct Hs as (-> & Hb & Hsib & -> & Hp & Hsib' & Hrest).
    cbn [siblings] in Hsib.
    split; [split; [exact Hr|split; [exact Hfr|]]|].
    + cbn [stack_falling]. split; [reflexivity|].
      split; [now apply falling_push_child|]. split; [exact Hsib'|exact Hrest].
    + cbn [siblings].
      change (children (push_child p b)) with (children p ++ [b]).
      apply Forall_app. split; [exact Hsib|now constructor].
Qed.

Lemma pop_while_falling fuel lvl st :
  state_falling st ->
  Forall (fun x => lvl <= level x) (siblings (blocks st) (stack st)) ->
  state_falling (pop_while fuel lvl st) /\
  Forall (fun x => lvl <= level x)
         (siblings (blocks (pop_while fuel lvl st))
                   (stack (pop_while fuel lvl st))).
Proof.
  revert st. induction fuel as [|fuel IH]; intros st Hst Hc;
    [now split|].
  cbn [pop_while]. destruct (stack st) as [|[b l] below] eqn:E.
  - rewrite E. split; [exact Hst|]. exact Hc.
  - destruct (Nat.leb_spec lvl l) as [Hle|Hlt].
    + destruct (pop_falling st b l below E Hst) as [Hst' Hsib].
      apply IH; [exact Hst'|].
      revert Hsib. apply Forall_impl. intros x Hx. lia.
    + rewrite E. split; [exact Hst|]. exact Hc.
Qed.

Lemma build_step_falling uuidv4 sp st it :
  state_falling st -> siblings (blocks st) (stack st) = [] ->
  state_falling (build_step uuidv4 sp st it) /\
  siblings (blocks (build_step uuidv4 sp st it))
           (stack (build_step uuidv4 sp st it)) = [].
Proof.
  intros Hst Hfresh. unfold build_step. cbn [blocks stack].
  destruct (pop_while_falling (length (stack st)) (item_level it) st Hst)
    as [(Hr & Hfr & Hs) Hc]; [rewrite Hfresh; constructor|].
  split; [|reflexivity].
  split; [exact Hr|]. split; [exact Hfr|].
  cbn [stack_falling level]. split; [reflexivity|].
  split; [apply falling_leaf|]. split; [exact Hc|exact Hs].
Qed.

Lemma build_loop_falling uuidv4 sp items st :
  state_falling st -> siblings (blocks st) (stack st) = [] ->
  state_falling (fold_left (build_step uuidv4 sp) items st).
Proof.
  revert st. induction items as [|it items IH]; intros st Hst Hfresh;
    [exact Hst|].
  cbn [fold_left].
  destruct (build_step_falling uuidv4 sp st it Hst Hfresh) as [H1 H2].
  now apply IH.
Qed.

(** The roots, and the children of every block, stand in the order of
    falling levels. *)
Lemma build_forest_falling uuidv4 sp items :
  falls (build_forest uuidv4 sp items) /\
  Forall falling (build_forest uuidv4 sp items).
Proof.
  unfold build_forest, build_loop.
  set (st := fold_left (build_step uuidv4 sp) items (mkState [] [] 0)).
  assert (state_falling st) as Hst.
  { apply build_loop_falling; [|reflexivity].
    split; [apply falls_nil|]. split; [constructor|exact I]. }
  destruct (pop_while_falling (length (stack st)) 0 st Hst)
    as [(Hr & Hfr & _) _].
  - apply Forall_forall. intros x _. lia.
  - now split.
Qed.

(** In a nested tree no block lies above the root of its subtree. *)
Lemma nested_levels b x :
  nested b -> In x (visit_flat b) -> level b <= level x.
Proof.
  revert x. induction b as [b IH] using block_induction.
  intros x Hn Hx. inversion Hn as [b' Hch]; subst.
  rewrite visit_flat_eq in Hx. destruct Hx as [<-|Hx]; [lia|].
  apply in_flat_map in Hx as (k & Hk & Hx).
  rewrite Forall_forall in IH, Hch.
  destruct (Hch k Hk) as (Hlt & _ & Hnk).
  specialize (IH k Hk x Hnk Hx). lia.
Qed.

(** The blocks between a parent and its child in document order are
    the earlier children of the parent and their descendants: none of
    them lies above the child. *)
Lemma visit_flat_between b p c :
  nested b -> falling b ->
  In p (visit_flat b) -> In c (children p) ->
  exists l1 l2 l3,
    visit_flat b = l1 ++ p :: l2 ++ c :: l3 /\
    Forall (fun x => level c <= level x) l2.
Proof.
  revert p c. induction b as [b IH] using block_induction.
  intros p c Hn Hf Hp Hc.
  inversion Hn as [b' Hch]; inversion Hf as [b'' Hfl Hfch]; subst.
  rewrite visit_flat_eq in Hp. destruct Hp as [<-|Hp].
  - apply in_split in Hc as (k1 & k2 & Hk).
    exists [], (flat_map visit_flat k1),
      (flat_map visit_flat (children c) ++ flat_map visit_flat k2).
    split.
    + rewrite visit_flat_eq, Hk, flat_map_app. cbn [flat_map app].
      rewrite (visit_flat_eq c). cbn [app]. now rewrite <- ?app_assoc.
    + apply Forall_forall. intros x Hx.
      apply in_flat_map in Hx as (s & Hs & Hx).
      pose proof (Hfl k1 c k2 Hk) as Hlev.
      rewrite Forall_forall in Hlev, Hch.
      assert (In s (children b)) as Hsb
          by (rewrite Hk; apply in_or_app; now left).
      destruct (Hch s Hsb) as (_ & _ & Hns).
      pose proof (nested_levels s x Hns Hx). specialize (Hlev s Hs). lia.
  - apply in_flat_map in Hp as (k & Hk & Hp).
    rewrite Forall_forall in IH, Hch, Hfch.
    destruct (Hch k Hk) as (_ & _ & Hnk).
    destruct (IH k Hk p c Hnk (Hfch k Hk) Hp Hc)
      as (l1 & l2 & l3 & E & Hl2).
    apply in_split in Hk as (k1 & k2 & Hk).
    exists (b :: flat_map visit_flat k1 ++ l1), l2,
      (l3 ++ flat_map visit_flat k2).
    split; [|exact Hl2].
    rewrite visit_flat_eq, Hk, flat_map_app. cbn [flat_map].
    rewrite E. cbn [app]. f_equal.
    now rewrite <- !app_assoc, <- !app_comm_cons, <- !app_assoc.
Qed.

Lemma flattenBlocks_between bs p c :
  Forall nested bs -> Forall falling bs ->
  In p (flattenBlocks bs) -> In c (children p) ->
  exists l1 l2 l3,
    flattenBlocks bs = l1 ++ p :: l2 ++ c :: l3 /\
    Forall (fun x => level c <= level x) l2.
Proof.
  intros Hn Hf Hp Hc. apply in_flat_map in Hp as (b & Hb & Hp).
  rewrite Forall_forall in Hn, Hf.
  destruct (visit_flat_between b p c (Hn b Hb) (Hf b Hb) Hp Hc)
    as (l1 & l2 & l3 & E & Hl2).
  apply in_split in Hb as (k1 & k2 & ->).
  exists (flattenBlocks k1 ++ l1), l2, (l3 ++ flattenBlocks k2).
  split; [|exact Hl2].
  unfold flattenBlocks. rewrite flat_map_app. cbn [flat_map].
  rewrite E. now rewrite <- !app_assoc, <- !app_comm_cons, <- !app_assoc.
Qed.

Lemma no_jump_step a : forall x y b,
  no_jump (a ++ x :: y :: b) = true -> y <= S x.
Proof.
  induction a as [|z a IH]; intros x y b H.
  - cbn [app no_jump] in H. apply andb_true_iff in H as [H _].
    now apply Nat.leb_le.
  - destruct a as [|z' a]; cbn [app no_jump] in H;
      apply andb_true_iff in H as [_ H]; now apply (IH x y b).
Qed.

Lemma no_gaps_no_jump levels : no_gaps levels = true -> no_jump levels = true.
Proof.
  unfold no_gaps. generalize 0 as bound.
  induction levels as [|l levels IH]; intros bound H; [reflexivity|].
  cbn [gap_free] in H. apply andb_true_iff in H as [_ H].
  destruct levels as [|l' levels]; [reflexivity|].
  cbn [no_jump]. pose proof H as H'. cbn [gap_free] in H'.
  apply andb_true_iff in H' as [Hl _]. rewrite Hl. cbn [andb].
  now apply (IH (S l)).
Qed.

Lemma falls_tail b bs : falls (b :: bs) -> falls bs.
Proof.
  intros H k1 c k2 E. specialize (H (b :: k1) c k2). rewrite E in H.
  specialize (H eq_refl). now inversion H.
Qed.

Lemma flat_map_head bs c l :
  flat_map visit_flat bs = c :: l -> exists bs', bs = c :: bs'.
Proof.
  destruct bs as [|b bs]; [discriminate|].
  cbn [flat_map]. rewrite visit_flat_eq. cbn [app].
  intros H. injection H as -> _. now exists bs.
Qed.

(** Two blocks that follow each other in document order: the second is
    a child of the first, or does not lie deeper. *)
Lemma forest_next bs :
  falls bs -> Forall nested bs ->
  Forall (fun b => forall l1 q c l3,
              visit_flat b = l1 ++ q :: c :: l3 ->
              In c (children q) \/ level c <= level q) bs ->
  forall l1 q c l3,
    flat_map visit_flat bs = l1 ++ q :: c :: l3 ->
    In c (children q) \/ level c <= level q.
Proof.
  induction bs as [|s bs IH]; intros Hf Hn Ht l1 q c l3 E.
  - now destruct l1.
  - inversion Hn as [|? ? Hns Hnbs]; inversion Ht as [|? ? Hts Htbs]; subst.
    cbn [flat_map] in E. apply app_eq_app in E as [m [[E1 E2]|[E1 E2]]].
    + (* l1 ends inside the first tree *)
      destruct m as [|x m].
      * cbn [app] in E2.
        apply (IH (falls_tail _ _ Hf) Hnbs Htbs [] q c l3).
        now rewrite <- E2.
      * cbn [app] in E2. injection E2 as <- E2.
        destruct m as [|y m].
        -- (* q is the last block of the first tree *)
           cbn [app] in E2. symmetry in E2.
           apply flat_map_head in E2 as [bs' ->].
           right. pose proof (Hf [s] c bs' eq_refl) as Hl.
           inversion Hl as [|? ? Hsc _]; subst.
           assert (In q (visit_flat s)) as Hq
               by (rewrite E1; apply in_or_app; right; now left).
           pose proof (nested_levels s q Hns Hq). lia.
        -- cbn [app] in E2. injection E2 as <- E2.
           apply (Hts l1 q c m). exact E1.
    + (* the first tree ends inside l1 *)
      apply (IH (falls_tail _ _ Hf) Hnbs Htbs m q c l3). exact E2.
Qed.

Lemma tree_next b :
  nested b -> falling b ->
  forall l1 q c l3,
    visit_flat b = l1 ++ q :: c :: l3 ->
    In c (children q) \/ level c <= level q.
Proof.
  induction b as [b IH] using block_induction.
  intros Hn Hf l1 q c l3 E.
  inversion Hn as [b' Hch]; inversion Hf as [b'' Hfl Hfch]; subst.
  rewrite visit_flat_eq in E. destruct l1 as [|x l1]; cbn [app] in E.
  - injection E as <- E. apply flat_map_head in E as [bs' E].
    left. rewrite E. now left.
  - injection E as <- E.
    apply (forest_next (children b) Hfl) with (l1 := l1) (l3 := l3);
      [| |exact E].
    + revert Hch. apply Forall_impl. now intros k (_ & _ & Hk).
    + rewrite Forall_forall in IH, Hch, Hfch |- *. intros k Hk.
      destruct (Hch k Hk) as (_ & _ & Hnk).
      exact (IH k Hk Hnk (Hfch k Hk)).
Qed.

Lemma no_jump_intro levels :
  (forall a x y b, levels = a ++ x :: y :: b -> y <= S x) ->
  no_jump levels = true.
Proof.
  induction levels as [|x levels IH]; intros H; [reflexivity|].
  destruct levels as [|y levels]; [reflexivity|].
  cbn [no_jump]. apply andb_true_iff. split.
  - apply Nat.leb_le. exact (H [] x y levels eq_refl).
  - apply IH. intros a x' y' b E. apply (H (x :: a) x' y' b).
    now rewrite E.
Qed.

(** C2, as the code has it.  In the forest that [parseBlocks] returns, a
    block [p] and a child [c] of it: the level of [p] is below the level
    of [c], [c] names [p] in [parentUuid], [p] stands in front of [c] in
    document order, and no block between them lies above [c], so that
    [p] is the nearest block in front of [c] with a smaller level.  When
    no block is more than one level deeper than the block before it,
    the level of [p] is the level of [c] minus 1; and only then is that
    so for every block and child. *)
Theorem parent_is_shallower_and_earlier :
  forall uuidv4 text sp p c,
    In p (flattenBlocks (parseBlocks uuidv4 text sp)) ->
    In c (children p) ->
    level p < level c /\
    parentUuid c = Some (uuid p) /\
    (exists l1 l2 l3,
        flattenBlocks (parseBlocks uuidv4 text sp) =
        l1 ++ p :: l2 ++ c :: l3 /\
        Forall (fun x => level c <= level x) l2) /\
    (no_jump (map level (flattenBlocks (parseBlocks uuidv4 text sp))) = true
     -> level p = level c - 1) /\
    ((forall p' c',
         In p' (flattenBlocks (parseBlocks uuidv4 text sp)) ->
         In c' (children p') -> level p' = level c' - 1) ->
     no_jump (map level (flattenBlocks (parseBlocks uuidv4 text sp))) = true).
Proof.
  intros uuidv4 text sp p c Hp Hc.
  pose proof (build_forest_nested uuidv4 sp (parse_items text)) as Hn.
  destruct (build_forest_falling uuidv4 sp (parse_items text)) as [_ Hf].
  rewrite <- parseBlocks_forest in Hn, Hf.
  pose proof Hp as Hp'. apply in_flat_map in Hp' as (b & Hb & Hpb).
  assert (Forall nested (parseBlocks uuidv4 text sp)) as Hn'.
  { revert Hn. apply Forall_impl. now intros x [_ Hx]. }
  rewrite Forall_forall in Hn. destruct (Hn b Hb) as [_ Hnb].
  destruct (nested_children b p c Hnb Hpb Hc) as [Hlt Hpu].
  destruct (flattenBlocks_between _ p c Hn' Hf Hp Hc)
    as (l1 & l2 & l3 & E & Hl2).
  split; [exact Hlt|]. split; [exact Hpu|].
  split; [now exists l1, l2, l3|]. split.
  - intros Hj. rewrite E, map_app in Hj. cbn [map] in Hj.
    rewrite map_app in Hj. cbn [map] in Hj.
    destruct l2 as [|r l2]; cbn [map app] in Hj.
    + apply no_jump_step in Hj. lia.
    + apply no_jump_step in Hj. inversion Hl2; subst. lia.
  - intros Hall. apply no_jump_intro. intros a x y k Ek.
    apply map_eq_app in Ek as (k1 & k2 & Ek & _ & Ek2).
    apply map_eq_cons in Ek2 as (q & k3 & -> & <- & Ek3).
    apply map_eq_cons in Ek3 as (d & k4 & -> & <- & _).
    destruct (build_forest_falling uuidv4 sp (parse_items text))
      as [Hfr _].
    rewrite <- parseBlocks_forest in Hfr.
    assert (In d (children q) \/ level d <= level q) as [Hd|Hd].
    { apply (forest_next (parseBlocks uuidv4 text sp) Hfr Hn')
        with (l1 := k1) (l3 := k4); [|exact Ek].
      rewrite Forall_forall in Hn', Hf |- *. intros t Ht.
      exact (tree_next t (Hn' t Ht) (Hf t Ht)). }
    + assert (In q (flattenBlocks (parseBlocks uuidv4 text sp))) as Hq
          by (rewrite Ek; apply in_or_app; right; now left).
      specialize (Hall q d Hq Hd).
      apply in_flat_map in Hq as (t & Ht & Hqt).
      destruct (Hn t Ht) as [_ Hnt].
      destruct (nested_children t q d Hnt Hqt Hd) as [Hlt' _]. lia.
    + lia.
Qed.

Lemma parent_is_shallower_and_earlier_witness :
  let c := mkBlock id2 (str "Child block") 1 [] [] (Some id1) [] None None in
  let p := mkBlock id1 (str "Parent block") 0 [] [c] None [] None None in
  let flat := flattenBlocks (parseBlocks fixed_uuid tab_scenario []) in
  In p flat /\
  In c (children p) /\
  level p < level c /\
  parentUuid c = Some (uuid p) /\
  (exists l1 l2 l3,
      flat = l1 ++ p :: l2 ++ c :: l3 /\
      Forall (fun x => level c <= level x) l2) /\
  (no_jump (map level flat) = true -> level p = level c - 1) /\
  ((forall p' c', In p' flat -> In c' (children p') ->
                  level p' = level c' - 1) ->
   no_jump (map level flat) = true).
Proof.
  intros c p flat.
  assert (Hp : In p flat) by (vm_compute; left; reflexivity).
  assert (Hc : In c (children p)) by (left; reflexivity).
  split; [exact Hp|]. split; [exact Hc|].
  exact (parent_is_shallower_and_earlier fixed_uuid tab_scenario [] p c Hp Hc).
Defined.

(** C2 as stated fails: a block two tabs below its predecessor becomes
    its child, two levels deeper. *)
Lemma gap_page_parent_level :
  ~ (forall p c,
        In p (flattenBlocks (parseBlocks fixed_uuid gap_page [])) ->
        In c (children p) -> level p = level c - 1).
Proof.
  intros H.
  set (c := mkBlock (fixed_uuid 1) (str "b") 2 [] []
                    (Some (fixed_uuid 0)) [] None None).
  set (p := mkBlock (fixed_uuid 0) (str "a") 0 [] [c] None [] None None).
  assert (Hp : In p (flattenBlocks (parseBlocks fixed_uuid gap_page [])))
    by (vm_compute; left; reflexivity).
  specialize (H p c Hp (or_introl eq_refl)). discriminate H.
Qed.

(* ================================================================== *)
(** ** Strings: trim, tabs, split and join *)
(* ================================================================== *)

Lemma forallb_rev (p : ascii -> bool) s : forallb p (rev s) = forallb p s.
Proof.
  induction s as [|c s IH]; [reflexivity|].
  simpl. rewrite forallb_app, IH. simpl.
  now rewrite andb_true_r, andb_comm.
Qed.

Lemma trimStart_head s c r : trimStart s = c :: r -> is_space c = false.
Proof.
  induction s as [|a s IH]; simpl; [discriminate|].
  destruct (is_space a) eqn:E; [exact IH|]. congruence.
Qed.

Lemma trimStart_fixed c s : is_space c = false -> trimStart (c :: s) = c :: s.
Proof. intros H. simpl. now rewrite H. Qed.

Lemma trimStart_idem s : trimStart (trimStart s) = trimStart s.
Proof.
  destruct (trimStart s) as [|c r] eqn:E; [reflexivity|].
  apply trimStart_fixed. eapply trimStart_head; eassumption.
Qed.

Lemma trimStart_app x y :
  trimStart (x ++ y) =
  if forallb is_space x then trimStart y else trimStart x ++ y.
Proof.
  induction x as [|a x IH]; simpl; [reflexivity|].
  destruct (is_space a); simpl; [exact IH|reflexivity].
Qed.

Lemma trimEnd_app a b :
  trimEnd (a ++ b) =
  if forallb is_space b then trimEnd a else a ++ trimEnd b.
Proof.
  unfold trimEnd. rewrite rev_app_distr, trimStart_app, forallb_rev.
  destruct (forallb is_space b); [reflexivity|].
  now rewrite rev_app_distr, rev_involutive.
Qed.

Lemma trimEnd_nil : trimEnd [] = [].
Proof. reflexivity. Qed.

Lemma trimEnd_single c : is_space c = false -> trimEnd [c] = [c].
Proof. intros H. unfold trimEnd. simpl. now rewrite H. Qed.

Lemma trimEnd_idem s : trimEnd (trimEnd s) = trimEnd s.
Proof.
  unfold trimEnd. now rewrite rev_involutive, trimStart_idem.
Qed.

Lemma forallb_trimStart (p : ascii -> bool) s :
  forallb p s = true -> forallb p (trimStart s) = true.
Proof.
  induction s as [|c s IH]; simpl; [reflexivity|].
  intros H. destruct (is_space c); [|exact H].
  apply andb_true_iff in H as [_ H]. now apply IH.
Qed.

Lemma forallb_trimEnd (p : ascii -> bool) s :
  forallb p s = true -> forallb p (trimEnd s) = true.
Proof.
  intros H. unfold trimEnd. rewrite forallb_rev.
  apply forallb_trimStart. now rewrite forallb_rev.
Qed.

Lemma forallb_trim (p : ascii -> bool) s :
  forallb p s = true -> forallb p (trim s) = true.
Proof. intros H. now apply forallb_trimEnd, forallb_trimStart. Qed.

Lemma trimEnd_cons c s :
  is_space c = false -> trimEnd (c :: s) = c :: trimEnd s.
Proof.
  intros H. change (c :: s) with ([c] ++ s). rewrite trimEnd_app.
  destruct (forallb is_space s) eqn:E; [|reflexivity].
  rewrite trimEnd_single by assumption.
  unfold trimEnd. rewrite trimStart_spaces; [reflexivity|].
  now rewrite forallb_rev.
Qed.

Lemma trim_trimmed s : trimmed (trim s).
Proof.
  unfold trimmed, trim. split; [|apply trimEnd_idem].
  destruct (trimStart s) as [|c r] eqn:E; [reflexivity|].
  pose proof (trimStart_head _ _ _ E) as Hc.
  rewrite trimEnd_cons by assumption. now apply trimStart_fixed.
Qed.

Lemma trimmed_trim s : trimmed s -> trim s = s.
Proof. intros [H1 H2]. unfold trim. now rewrite H1. Qed.

Lemma trimStart_nospace s :
  forallb (fun c => negb (is_space c)) s = true -> trimStart s = s.
Proof.
  destruct s as [|c s]; simpl; [reflexivity|].
  intros H. apply andb_true_iff in H as [H _].
  now destruct (is_space c).
Qed.

Lemma trimEnd_nospace s :
  forallb (fun c => negb (is_space c)) s = true -> trimEnd s = s.
Proof.
  intros H. unfold trimEnd. rewrite trimStart_nospace.
  - apply rev_involutive.
  - now rewrite forallb_rev.
Qed.

Lemma trimStart_tabs n s : trimStart (tabs n ++ s) = trimStart s.
Proof. induction n as [|n IH]; [reflexivity|exact IH]. Qed.

Lemma trim_tabs n s : trim (tabs n ++ s) = trim s.
Proof. unfold trim. now rewrite trimStart_tabs. Qed.

Lemma leading_tabs_tabs n c s :
  Ascii.eqb c tab = false -> leading_tabs (tabs n ++ c :: s) = n.
Proof.
  intros H. induction n as [|n IH]; simpl; [now rewrite H|].
  unfold tabs in IH. now rewrite IH.
Qed.

Lemma skipn_tabs n s : skipn n (tabs n ++ s) = s.
Proof. induction n as [|n IH]; [reflexivity|exact IH]. Qed.

Lemma split_char_one sep l :
  forallb (fun c => negb (Ascii.eqb c sep)) l = true ->
  split_char sep l = [l].
Proof.
  induction l as [|c l IH]; simpl; [reflexivity|].
  intros H. apply andb_true_iff in H as [Hc Hl].
  destruct (Ascii.eqb c sep); [discriminate|]. now rewrite IH.
Qed.

Lemma split_char_app sep l r :
  forallb (fun c => negb (Ascii.eqb c sep)) l = true ->
  split_char sep (l ++ sep :: r) = l :: split_char sep r.
Proof.
  induction l as [|c l IH]; simpl.
  - now rewrite Ascii.eqb_refl.
  - intros H. apply andb_true_iff in H as [Hc Hl].
    destruct (Ascii.eqb c sep); [discriminate|]. now rewrite IH.
Qed.

Lemma split_join ls :
  ls <> [] ->
  Forall (fun l => forallb (fun c => negb (Ascii.eqb c lf)) l = true) ls ->
  split_lf (join_lf ls) = ls.
Proof.
  unfold split_lf. intros Hne H.
  induction H as [|l ls Hl Hls IH]; [contradiction|].
  destruct ls as [|l' ls'].
  - simpl. now apply split_char_one.
  - change (join_lf (l :: l' :: ls')) with (l ++ lf :: join_lf (l' :: ls')).
    rewrite split_char_app by assumption. f_equal. now apply IH.
Qed.

(* ================================================================== *)
(** ** parseBlocks: what the items hold *)
(* ================================================================== *)

Lemma span_spec p s :
  s = fst (span p s) ++ snd (span p s) /\
  forallb p (fst (span p s)) = true /\
  match snd (span p s) with
  | [] => True
  | c :: _ => p c = false
  end.
Proof.
  induction s as [|c s IH]; simpl; [now repeat split|].
  destruct (p c) eqn:E.
  - destruct (span p s) as [a r]. simpl in *.
    destruct IH as (-> & Ha & Hr). rewrite E, Ha. now repeat split.
  - simpl. now rewrite E.
Qed.

Lemma span_stop p k c r :
  forallb p k = true -> p c = false -> span p (k ++ c :: r) = (k, c :: r).
Proof.
  intros Hk Hc. induction k as [|a k IH]; simpl; [now rewrite Hc|].
  simpl in Hk. apply andb_true_iff in Hk as [Ha Hk].
  now rewrite Ha, IH.
Qed.

Lemma span_all p k : forallb p k = true -> span p k = (k, []).
Proof.
  intros Hk. induction k as [|a k IH]; simpl; [reflexivity|].
  simpl in Hk. apply andb_true_iff in Hk as [Ha Hk].
  now rewrite Ha, IH.
Qed.

Lemma dot_star_end_inv s v :
  dot_star_end s = Some v -> v = s /\ one_line s = true.
Proof.
  unfold dot_star_end, one_line.
  destruct (forallb _ s); [|discriminate]. intros H. now inversion H.
Qed.

Lemma dot_star_end_intro s : one_line s = true -> dot_star_end s = Some s.
Proof. unfold dot_star_end, one_line. now intros ->. Qed.

Lemma PROPERTY_REGEX_inv t k v :
  PROPERTY_REGEX t = Some (k, v) -> key_ok k /\ one_line v = true.
Proof.
  unfold PROPERTY_REGEX.
  pose proof (span_spec is_key_char t) as (_ & Hk & _).
  destruct (span is_key_char t) as [[|a key] r]; [discriminate|].
  destruct (lit ":" r) as [r1|]; [|discriminate]. cbn [bind].
  destruct (lit ":" r1) as [r2|]; [|discriminate]. cbn [bind].
  destruct (dot_star_end (trimStart r2)) as [value|] eqn:E;
    [|discriminate].
  cbn [bind]. intros H. inversion H; subst.
  apply dot_star_end_inv in E as [-> E].
  split; [split; [discriminate|exact Hk]|exact E].
Qed.

Lemma parsePropertyValue_ok v :
  one_line v = true -> text_value_ok (parsePropertyValue v).
Proof.
  intros H. unfold parsePropertyValue.
  destruct (Js.eqb _ _); [exact I|].
  destruct (Js.eqb _ _); [exact I|].
  destruct (is_number_literal _); [exact I|].
  simpl. now apply forallb_trim.
Qed.

Lemma update_ok o k v :
  props_ok o -> key_ok k -> text_value_ok v -> props_ok (update o k v).
Proof.
  intros Ho Hk Hv. induction Ho as [|[k' v'] o [Hk' Hv'] Ho IH]; simpl.
  - constructor; [now split|constructor].
  - destruct (Js.eqb k' k); constructor; try assumption; now split.
Qed.

Lemma set_ok o k v :
  props_ok o -> key_ok k -> text_value_ok v -> props_ok (set o k v).
Proof.
  intros Ho Hk Hv. unfold set.
  destruct (Js.eqb k (str "__proto__")); [exact Ho|now apply update_ok].
Qed.

Lemma consume_ok o line : props_ok o -> props_ok (consume o line).
Proof.
  intros Ho. unfold consume.
  destruct (PROPERTY_REGEX (trim line)) as [[k v]|] eqn:E; [|exact Ho].
  apply PROPERTY_REGEX_inv in E as [Hk Hv].
  apply set_ok; [exact Ho|exact Hk|now apply parsePropertyValue_ok].
Qed.

Lemma property_lines_ok lvl lines o :
  props_ok o -> props_ok (fst (property_lines lvl lines o)).
Proof.
  revert o. induction lines as [|next lines IH]; intros o Ho; simpl;
    [exact Ho|].
  destruct (_ && _); [exact Ho|].
  destruct (PROPERTY_REGEX (trim next)) as [[k v]|] eqn:E; [|exact Ho].
  destruct (lvl <? leading_tabs next); [|exact Ho].
  apply IH. apply PROPERTY_REGEX_inv in E as [Hk Hv].
  apply set_ok; [exact Ho|exact Hk|now apply parsePropertyValue_ok].
Qed.

Lemma property_lines_length lvl lines o :
  length (snd (property_lines lvl lines o)) <= length lines.
Proof.
  revert o. induction lines as [|next lines IH]; intros o; simpl;
    [lia|].
  destruct (_ && _); [simpl; lia|].
  destruct (PROPERTY_REGEX (trim next)) as [[k v]|]; [|simpl; lia].
  destruct (lvl <? leading_tabs next); [|simpl; lia].
  specialize (IH (set o k (parsePropertyValue v))). lia.
Qed.

Lemma block_line_inv line n mc :
  block_line line = Some (n, mc) -> one_line mc = true.
Proof.
  unfold block_line.
  destruct (lit "-" (skipn (leading_tabs line) line)) as [[|c r]|];
    try discriminate.
  cbn [bind]. destruct (is_space c); [|discriminate].
  destruct (dot_star_end (trimStart r)) as [m|] eqn:E; [|discriminate].
  cbn [bind]. intros H. inversion H; subst.
  now apply dot_star_end_inv in E as [-> E].
Qed.

Lemma parse_lines_clean fuel lines :
  Forall item_clean (parse_lines fuel lines).
Proof.
  revert lines. induction fuel as [|fuel IH]; intros lines; simpl;
    [constructor|].
  destruct lines as [|line lines]; [constructor|].
  destruct (block_line line) as [[lvl mc]|] eqn:E; [|apply IH].
  pose proof (property_lines_ok lvl lines [] (Forall_nil _)) as Hp.
  destruct (property_lines lvl lines []) as [props rest].
  constructor; [|apply IH].
  apply block_line_inv in E.
  split; [apply trim_trimmed|]. split; [|exact Hp].
  now apply forallb_trim.
Qed.

Lemma parse_items_clean text : Forall item_clean (parse_items text).
Proof. apply parse_lines_clean. Qed.

(** The fuel of the outer loop is enough. *)
Lemma parse_lines_fuel fuel lines :
  length lines <= fuel -> parse_lines fuel lines = parse_all lines.
Proof.
  unfold parse_all. revert lines.
  induction fuel as [fuel IH] using lt_wf_ind. intros lines H.
  destruct lines as [|line lines]; [now destruct fuel|].
  destruct fuel as [|fuel]; [simpl in H; lia|].
  simpl. destruct (block_line line) as [[lvl mc]|].
  - pose proof (property_lines_length lvl lines []) as L.
    destruct (property_lines lvl lines []) as [props rest]. simpl in L.
    f_equal. simpl in H.
    rewrite (IH fuel) by lia.
    symmetry. apply (IH (length lines)); simpl; lia.
  - simpl in H. apply IH; lia.
Qed.

Lemma parse_all_nil : parse_all [] = [].
Proof. reflexivity. Qed.


Lemma parse_all_block line lines lvl mc props rest :
  block_line line = Some (lvl, mc) ->
  property_lines lvl lines [] = (props, rest) ->
  parse_all (line :: lines) = mkItem lvl (trim mc) props :: parse_all rest.
Proof.
  intros H1 H2. unfold parse_all at 1. simpl. rewrite H1, H2. f_equal.
  apply parse_lines_fuel.
  pose proof (property_lines_length lvl lines []) as L.
  rewrite H2 in L. exact L.
Qed.

(* ================================================================== *)
(** ** parseBlocks: what the blocks hold *)
(* ================================================================== *)

Lemma insert_index_in x kv l :
  In x (insert_index kv l) -> x = kv \/ In x l.
Proof.
  induction l as [|kv' l IH]; simpl.
  - intros [->|[]]. now left.
  - destruct (_ <=? _)%N; simpl.
    + intros [->|H]; [now left|now right].
    + intros [->|H]; [right; now left|].
      destruct (IH H) as [->|H']; [now left|right; now right].
Qed.

Lemma entries_in x o : In x (entries o) -> In x o.
Proof.
  unfold entries. intros H. apply in_app_or in H as [H|H].
  - assert (G : forall l, In x (fold_right insert_index [] l) -> In x l).
    { induction l as [|kv l IH]; simpl; [tauto|].
      intros Hx. apply insert_index_in in Hx as [->|Hx]; [now left|].
      right. now apply IH. }
    apply G in H. now apply filter_In in H as [H _].
  - now apply filter_In in H as [H _].
Qed.

Lemma rest_without_id_in x o :
  In x (rest_without_id o) -> In x o /\ fst x <> str "id".
Proof.
  unfold rest_without_id. intros H. apply filter_In in H as [H1 H2].
  split; [now apply entries_in|].
  apply negb_true_iff in H2. now apply eqb_neq in H2.
Qed.

Lemma item_block_clean u sp it :
  item_clean it -> UUID_REGEX u = true -> block_clean (item_block u sp it).
Proof.
  intros (Ht & Hl & Hp) Hu. unfold block_clean, item_block. simpl.
  split; [exact Ht|]. split; [exact Hl|]. split; [exact Hu|].
  unfold props_ok in *.
  split; apply Forall_forall; intros x Hx;
    apply rest_without_id_in in Hx as [Hx Hid].
  - rewrite Forall_forall in Hp. exact (Hp x Hx).
  - exact Hid.
Qed.

Lemma item_blocks_clean uuidv4 n sp items :
  (forall k, UUID_REGEX (uuidv4 k) = true) ->
  Forall item_clean items ->
  Forall block_clean (item_blocks uuidv4 n sp items).
Proof.
  intros Hg H. revert n.
  induction H as [|it items Hit _ IH]; intros n; simpl; [constructor|].
  destruct (item_id it) as [s|] eqn:E; constructor; auto.
  - apply item_block_clean; [exact Hit|].
    eapply item_id_valid; eassumption.
  - now apply item_block_clean.
Qed.

Lemma block_clean_bare b : block_clean (bare b) -> block_clean b.
Proof. exact (fun H => H). Qed.

(** Every block that [parseBlocks] returns is clean. *)
Lemma parseBlocks_clean uuidv4 text sp :
  (forall k, UUID_REGEX (uuidv4 k) = true) ->
  Forall block_clean (flattenBlocks (parseBlocks uuidv4 text sp)).
Proof.
  intros Hg.
  pose proof (item_blocks_clean uuidv4 0 sp (parse_items text) Hg
                (parse_items_clean text)) as H.
  rewrite <- build_forest_flat, <- parseBlocks_forest in H.
  rewrite Forall_forall in *. intros b Hb.
  apply block_clean_bare, H. now apply in_map.
Qed.

(* ================================================================== *)
(** ** Characters of keys and identifiers *)
(* ================================================================== *)

Lemma key_char_no_space c : is_key_char c = true -> is_space c = false.
Proof. each_char c. Qed.

Lemma key_char_no_tab c : is_key_char c = true -> Ascii.eqb c tab = false.
Proof. each_char c. Qed.

Lemma key_char_one_line c :
  is_key_char c = true -> negb (is_line_terminator c) = true.
Proof. each_char c. Qed.

Lemma hex_or_dash_no_space c :
  hex_or_dash c = true -> negb (is_space c) = true.
Proof. each_char c. Qed.

Lemma hex_or_dash_one_line c :
  hex_or_dash c = true -> negb (is_line_terminator c) = true.
Proof. each_char c. Qed.

Lemma hex_or_dash_no_dot c : hex_or_dash c = true -> Ascii.eqb c "." = false.
Proof. each_char c. Qed.

Lemma hex_no_dash c : is_hex c = true -> Ascii.eqb c "-" = false.
Proof. each_char c. Qed.

Lemma one_line_no_lf c :
  negb (is_line_terminator c) = true -> negb (Ascii.eqb c lf) = true.
Proof. each_char c. Qed.

Lemma uuid_no_space u :
  uuid_shape is_hex u -> forallb (fun c => negb (is_space c)) u = true.
Proof.
  intros H. apply uuid_shape_chars in H.
  eapply forallb_mono; [|exact H]. exact hex_or_dash_no_space.
Qed.

Lemma uuid_one_line u : uuid_shape is_hex u -> one_line u = true.
Proof.
  intros H. apply uuid_shape_chars in H.
  eapply forallb_mono; [|exact H]. exact hex_or_dash_one_line.
Qed.

Lemma uuid_head u :
  uuid_shape is_hex u ->
  exists c r, u = c :: r /\ is_hex c = true /\ In "-"%char r.
Proof.
  intros [a1 a2 a3 a4 a5 L1 _ _ _ _ H1 _ _ _ _].
  destruct a1 as [|c a1]; [discriminate|].
  simpl in H1. apply andb_true_iff in H1 as [Hc _].
  exists c, (a1 ++ "-"%char :: a2 ++ "-"%char :: a3 ++ "-"%char :: a4 ++
             "-"%char :: a5).
  split; [reflexivity|]. split; [exact Hc|].
  apply in_or_app. right. now left.
Qed.

Lemma uuid_not_number u :
  uuid_shape is_hex u -> is_number_literal u = false.
Proof.
  intros H. pose proof (uuid_shape_chars _ _ H) as Hc.
  destruct (uuid_head u H) as (c & r & -> & Hh & Hd).
  unfold is_number_literal.
  assert (L : lit "-" (c :: r) = None)
    by (simpl; now rewrite (hex_no_dash c Hh)).
  rewrite L.
  pose proof (span_spec is_digit (c :: r)) as (E & Ha & Hr).
  destruct (span is_digit (c :: r)) as [[|a int] [|x rest]];
    try reflexivity; cbn [fst snd] in E, Ha, Hr.
  - rewrite app_nil_r in E. rewrite <- E in Ha.
    rewrite forallb_forall in Ha.
    specialize (Ha "-"%char (or_intror Hd)). discriminate Ha.
  - assert (Hx : hex_or_dash x = true).
    { unfold hex_or_dash. rewrite forallb_forall in Hc. apply Hc.
      rewrite E. apply in_or_app. right. now left. }
    simpl. now rewrite (hex_or_dash_no_dot x Hx).
Qed.

Lemma parsePropertyValue_uuid u :
  uuid_shape is_hex u -> parsePropertyValue u = PString u.
Proof.
  intros H. unfold parsePropertyValue.
  assert (T : trim u = u).
  { unfold trim. rewrite trimStart_nospace, trimEnd_nospace;
      auto using uuid_no_space. }
  rewrite T.
  pose proof (uuid_shape_length _ _ H) as L.
  destruct (Js.eqb u (str "true")) eqn:E1;
    [apply eqb_eq in E1; subst; discriminate L|].
  destruct (Js.eqb u (str "false")) eqn:E2;
    [apply eqb_eq in E2; subst; discriminate L|].
  now rewrite uuid_not_number.
Qed.

(* ================================================================== *)
(** ** Reading serialized lines back *)
(* ================================================================== *)

Lemma get_update_other o k v k' :
  k <> k' -> get (update o k v) k' = get o k'.
Proof.
  intros Hk. induction o as [|[a w] o IH]; simpl.
  - destruct (Js.eqb k k') eqn:E; [|reflexivity].
    apply eqb_eq in E. contradiction.
  - destruct (Js.eqb a k) eqn:E; simpl.
    + apply eqb_eq in E. subst a.
      destruct (Js.eqb k k') eqn:E'; [|reflexivity].
      apply eqb_eq in E'. contradiction.
    + destruct (Js.eqb a k'); [reflexivity|exact IH].
Qed.

Lemma get_set_other o k v k' : k <> k' -> get (set o k v) k' = get o k'.
Proof.
  intros Hk. unfold set.
  destruct (Js.eqb k (str "__proto__")); [reflexivity|].
  now apply get_update_other.
Qed.

Lemma trimEnd_spaces s : forallb is_space s = true -> trimEnd s = [].
Proof.
  intros H. unfold trimEnd. rewrite trimStart_spaces; [reflexivity|].
  now rewrite forallb_rev.
Qed.

Lemma trim_written k shown :
  key_ok k ->
  exists y, trim (written k shown) = k ++ ":"%char :: ":"%char :: y /\
            trimStart y = trimStart (trimEnd shown).
Proof.
  intros [Hne Hk]. destruct k as [|c k]; [contradiction|].
  pose proof Hk as Hk'. simpl in Hk'. apply andb_true_iff in Hk' as [Hc _].
  unfold trim, written.
  change ((c :: k) ++ str ":: " ++ shown)
    with (c :: (k ++ str ":: " ++ shown)).
  rewrite trimStart_fixed by now apply key_char_no_space.
  assert (E0 : c :: (k ++ str ":: " ++ shown) =
               ((c :: k) ++ str "::") ++ (" "%char :: shown))
    by (now rewrite <- app_assoc).
  rewrite E0, trimEnd_app. cbn [forallb]. change (is_space " ") with true.
  cbn [andb].
  assert (T : trimEnd ((c :: k) ++ str "::") = (c :: k) ++ str "::")
    by (now rewrite trimEnd_app).
  destruct (forallb is_space shown) eqn:E.
  - exists []. rewrite T, (trimEnd_spaces shown E).
    split; reflexivity.
  - exists (trimEnd (" "%char :: shown)). split.
    + now rewrite <- app_assoc.
    + change (" "%char :: shown) with ([" "%char] ++ shown).
      rewrite trimEnd_app, E. reflexivity.
Qed.

Lemma PROPERTY_REGEX_written k shown :
  key_ok k -> one_line shown = true ->
  PROPERTY_REGEX (trim (written k shown)) =
  Some (k, trimStart (trimEnd shown)).
Proof.
  intros Hk Hs. destruct (trim_written k shown Hk) as (y & -> & Hy).
  destruct Hk as [Hne Hk]. unfold PROPERTY_REGEX.
  rewrite (span_stop is_key_char k ":" _ Hk eq_refl).
  destruct k as [|c k]; [contradiction|].
  rewrite lit_intro. cbn [bind]. rewrite lit_intro. cbn [bind].
  rewrite Hy, dot_star_end_intro; [reflexivity|].
  now apply forallb_trimStart, forallb_trimEnd.
Qed.

Lemma consume_written o k shown :
  key_ok k -> one_line shown = true ->
  consume o (written k shown) =
  set o k (parsePropertyValue (trimStart (trimEnd shown))).
Proof.
  intros Hk Hs. unfold consume. now rewrite PROPERTY_REGEX_written.
Qed.

Lemma property_lines_written d k shown lines o :
  key_ok k -> one_line shown = true ->
  property_lines d ((tabs (S d) ++ written k shown) :: lines) o =
  property_lines d lines (consume o (written k shown)).
Proof.
  intros Hk Hs. rewrite consume_written by assumption.
  cbn [property_lines]. rewrite trim_tabs, PROPERTY_REGEX_written by assumption.
  destruct Hk as [Hne Hk]. destruct k as [|c k]; [contradiction|].
  simpl in Hk. apply andb_true_iff in Hk as [Hc _].
  assert (L : leading_tabs (tabs (S d) ++ written (c :: k) shown) = S d)
    by (apply leading_tabs_tabs; now apply key_char_no_tab).
  rewrite L.
  replace (S d <=? d) with false by (symmetry; apply Nat.leb_gt; lia).
  replace (d <? S d) with true by (symmetry; apply Nat.ltb_lt; lia).
  reflexivity.
Qed.

Lemma property_lines_writable d pls rest o :
  Forall writable pls -> barrier rest ->
  property_lines d (map (fun p => tabs (S d) ++ p) pls ++ rest) o =
  (fold_left consume pls o, rest).
Proof.
  intros H Hr. revert o.
  induction H as [|pl pls (k & shown & -> & Hk & Hs) _ IH]; intros o.
  - apply Hr.
  - cbn [map app fold_left].
    now rewrite property_lines_written, IH.
Qed.

Lemma barrier_nil : barrier [].
Proof. intros lvl o. reflexivity. Qed.

(** A block line stops the inner loop. *)
Lemma barrier_block_line d c rest :
  barrier ((tabs d ++ str "- " ++ c) :: rest).
Proof.
  intros lvl o. cbn [property_lines].
  assert (T : exists y, trim (tabs d ++ str "- " ++ c) = "-"%char :: y /\
                        (y = [] \/ exists z, y = " "%char :: z)).
  { rewrite trim_tabs. unfold trim.
    change (str "- " ++ c) with ("-"%char :: " "%char :: c).
    rewrite trimStart_fixed by reflexivity.
    rewrite trimEnd_cons by reflexivity.
    exists (trimEnd (" "%char :: c)). split; [reflexivity|].
    change (" "%char :: c) with ([" "%char] ++ c).
    rewrite trimEnd_app. destruct (forallb is_space c).
    - now left.
    - right. now exists (trimEnd c). }
  destruct T as (y & -> & Hy).
  assert (P : PROPERTY_REGEX ("-"%char :: y) = None)
    by (destruct Hy as [->|[z ->]]; reflexivity).
  rewrite P.
  now destruct (_ && _).
Qed.

Lemma block_line_written d c :
  trimmed c -> one_line c = true ->
  block_line (tabs d ++ str "- " ++ c) = Some (d, c).
Proof.
  intros [Ht _] Hl. unfold block_line.
  change (str "- " ++ c) with ("-"%char :: " "%char :: c).
  rewrite leading_tabs_tabs by reflexivity.
  rewrite skipn_tabs, lit_intro. cbn [bind].
  change (is_space " ") with true. cbv iota.
  rewrite Ht, dot_star_end_intro by assumption. reflexivity.
Qed.

(* ================================================================== *)
(** ** serializeBlocks, then parseBlocks *)
(* ================================================================== *)

Section RoundTrip.

Variable showNumber : jsstring -> jsstring.
Hypothesis showNumber_one_line : forall l, one_line (showNumber l) = true.

Lemma show_value_one_line v :
  text_value_ok v -> one_line (show_value showNumber v) = true.
Proof.
  destruct v as [s|l|[|]]; simpl; auto.
Qed.

Lemma uuid_valid_shape b : block_clean b -> uuid_shape is_hex (uuid b).
Proof. intros (_ & _ & H & _). now apply uuid_whole_shape. Qed.

Lemma propLines_eq b :
  block_clean b ->
  propLines showNumber b =
  written (str "id") (uuid b)
  :: map (fun kv => written (fst kv) (show_value showNumber (snd kv)))
         (entries (properties b)).
Proof.
  intros H. unfold propLines.
  destruct (uuid_head _ (uuid_valid_shape b H)) as (c & r & -> & _).
  reflexivity.
Qed.

Lemma entries_writable b :
  block_clean b ->
  Forall writable_other
    (map (fun kv => written (fst kv) (show_value showNumber (snd kv)))
         (entries (properties b))).
Proof.
  intros (_ & _ & _ & Hp & Hid). apply Forall_map, Forall_forall.
  intros [k v] Hkv. apply entries_in in Hkv.
  unfold props_ok in Hp. rewrite Forall_forall in Hp, Hid.
  destruct (Hp _ Hkv) as [Hk Hv]. exists k, (show_value showNumber v).
  split; [reflexivity|]. split; [exact Hk|].
  split; [now apply show_value_one_line|exact (Hid _ Hkv)].
Qed.

Lemma writable_other_writable l : writable_other l -> writable l.
Proof. intros (k & s & E & Hk & Hs & _). now exists k, s. Qed.

Lemma key_ok_id : key_ok (str "id").
Proof. split; [discriminate|reflexivity]. Qed.

Lemma propLines_writable b :
  block_clean b -> Forall writable (propLines showNumber b).
Proof.
  intros H. rewrite propLines_eq by assumption. constructor.
  - exists (str "id"), (uuid b). split; [reflexivity|].
    split; [exact key_ok_id|]. apply uuid_one_line.
    now apply uuid_valid_shape.
  - eapply Forall_impl; [|now apply entries_writable].
    exact writable_other_writable.
Qed.

Lemma fold_consume_id pls o :
  Forall writable_other pls ->
  get (fold_left consume pls o) (str "id") = get o (str "id").
Proof.
  intros H. revert o.
  induction H as [|pl pls (k & s & -> & Hk & Hs & Hid) _ IH]; intros o;
    [reflexivity|].
  cbn [fold_left]. rewrite IH, consume_written by assumption.
  now apply get_set_other.
Qed.

Lemma consumed_id b :
  block_clean b ->
  get (consumed showNumber b) (str "id") = Some (PString (uuid b)).
Proof.
  intros H. unfold consumed. rewrite propLines_eq by assumption.
  cbn [fold_left]. rewrite fold_consume_id by now apply entries_writable.
  pose proof (uuid_valid_shape b H) as Hu.
  rewrite consume_written;
    [|exact key_ok_id|now apply uuid_one_line].
  rewrite trimEnd_nospace, trimStart_nospace by now apply uuid_no_space.
  rewrite parsePropertyValue_uuid by assumption. reflexivity.
Qed.

Lemma visit_eq b d :
  visit showNumber b d =
  (tabs d ++ str "- " ++ trim (content b))
  :: map (fun p => tabs (S d) ++ p) (propLines showNumber b)
  ++ flat_map (fun c => visit showNumber c (S d)) (children b).
Proof. destruct b. simpl. now rewrite Nat.add_1_r. Qed.

Lemma items_of_eq b d :
  items_of showNumber d b =
  mkItem d (content b) (consumed showNumber b)
  :: flat_map (items_of showNumber (S d)) (children b).
Proof. now destruct b. Qed.

Lemma forest_barrier cs d rest :
  barrier rest ->
  barrier (flat_map (fun c => visit showNumber c d) cs ++ rest).
Proof.
  intros Hr. destruct cs as [|c cs]; [exact Hr|].
  cbn [flat_map]. rewrite visit_eq. cbn [app]. apply barrier_block_line.
Qed.

(** The lines of a clean tree are read back as its items. *)
Lemma visit_read_back b :
  Forall block_clean (visit_flat b) ->
  forall d rest,
    barrier rest ->
    parse_all (visit showNumber b d ++ rest) =
    items_of showNumber d b ++ parse_all rest.
Proof.
  induction b as [b IH] using block_induction.
  intros Hc d rest Hr. rewrite visit_flat_eq in Hc.
  inversion Hc as [|b' l' Hb Hcs]; subst.
  destruct Hb as (Ht & Hl & Hrest).
  assert (Hb : block_clean b) by (split; [exact Ht|split; assumption]).
  rewrite visit_eq, items_of_eq. cbn [app]. rewrite <- app_assoc.
  rewrite (trimmed_trim _ Ht).
  erewrite parse_all_block;
    [|now apply block_line_written
     |apply property_lines_writable;
      [now apply propLines_writable|now apply forest_barrier]].
  rewrite (trimmed_trim _ Ht). f_equal.
  fold (consumed showNumber b).
  clear Hc Hb Hrest Ht Hl. revert IH Hcs.
  generalize (children b) as cs.
  induction cs as [|c cs IHcs]; intros IH Hcs; [reflexivity|].
  inversion IH as [|c' cs' IHc IHcs']; subst.
  cbn [flat_map] in *. apply Forall_app in Hcs as [Hc Hcs].
  rewrite <- !app_assoc.
  rewrite (IHc Hc (S d) _ (forest_barrier cs (S d) rest Hr)).
  f_equal. now apply IHcs.
Qed.

Lemma forest_read_back forest :
  Forall block_clean (flattenBlocks forest) ->
  parse_all (flat_map (fun b => visit showNumber b 0) forest) =
  flat_map (items_of showNumber 0) forest.
Proof.
  unfold flattenBlocks.
  induction forest as [|b bs IH]; intros H; [reflexivity|].
  cbn [flat_map] in *. apply Forall_app in H as [Hb Hbs].
  rewrite <- (app_nil_r (flat_map _ bs)).
  rewrite (visit_read_back b Hb 0 _ (forest_barrier bs 0 [] barrier_nil)).
  rewrite app_nil_r. f_equal. now apply IH.
Qed.

Lemma one_line_app a b :
  one_line (a ++ b) = one_line a && one_line b.
Proof. apply forallb_app. Qed.

Lemma one_line_tabs n : one_line (tabs n) = true.
Proof. induction n as [|n IH]; [reflexivity|exact IH]. Qed.

Lemma writable_one_line l : writable l -> one_line l = true.
Proof.
  intros (k & s & -> & [_ Hk] & Hs). unfold written.
  rewrite !one_line_app, Hs.
  unfold one_line at 1. rewrite (forallb_mono _ _ _ key_char_one_line Hk).
  reflexivity.
Qed.

Lemma visit_one_line b :
  Forall block_clean (visit_flat b) ->
  forall d, Forall (fun l => one_line l = true) (visit showNumber b d).
Proof.
  induction b as [b IH] using block_induction.
  intros Hc d. rewrite visit_flat_eq in Hc.
  inversion Hc as [|b' l' Hb Hcs]; subst.
  rewrite visit_eq. constructor; [|apply Forall_app; split].
  - destruct Hb as (_ & Hl & _).
    rewrite !one_line_app, one_line_tabs.
    unfold one_line at 2. now rewrite forallb_trim.
  - apply Forall_map.
    eapply Forall_impl; [|now apply propLines_writable].
    intros l Hl. cbv beta. rewrite one_line_app, one_line_tabs.
    now apply writable_one_line.
  - clear Hc Hb. revert IH Hcs. generalize (children b) as cs.
    induction cs as [|c cs IHcs]; intros IH Hcs; [constructor|].
    inversion IH; subst. cbn [flat_map] in *.
    apply Forall_app in Hcs as [Hc Hcs].
    apply Forall_app. split; auto.
Qed.

Lemma one_line_no_lf_string l :
  one_line l = true -> forallb (fun c => negb (Ascii.eqb c lf)) l = true.
Proof. apply forallb_mono. exact one_line_no_lf. Qed.

(** The items read from the text that [serializeBlocks] writes. *)
Lemma serialize_parse_items forest :
  Forall block_clean (flattenBlocks forest) ->
  parse_items (serializeBlocks showNumber forest) =
  flat_map (items_of showNumber 0) forest.
Proof.
  intros H. unfold parse_items, serializeBlocks.
  destruct forest as [|b bs]; [reflexivity|].
  rewrite split_join.
  - now apply forest_read_back.
  - cbn [flat_map]. rewrite visit_eq. discriminate.
  - unfold flattenBlocks in H.
    clear -H showNumber_one_line. revert H.
    generalize (b :: bs) as forest.
    induction forest as [|x xs IH]; intros H; [constructor|].
    cbn [flat_map] in *. apply Forall_app in H as [Hx Hxs].
    apply Forall_app. split; [|now apply IH].
    eapply Forall_impl; [|now apply visit_one_line].
    exact one_line_no_lf_string.
Qed.

(** A reading of the items that depends on the clean block only. *)
Lemma items_of_map {A} (f : Item -> A) (g : nat -> LogseqBlock -> A) :
  (forall d b, block_clean b ->
               f (mkItem d (content b) (consumed showNumber b)) = g d b) ->
  forall b, Forall block_clean (visit_flat b) ->
  forall d, map f (items_of showNumber d b) =
            map (fun db => g (fst db) (snd db)) (flat_depth d b).
Proof.
  intros Hfg. induction b as [b IH] using block_induction.
  intros Hc d. rewrite visit_flat_eq in Hc.
  inversion Hc as [|b' l' Hb Hcs]; subst.
  rewrite items_of_eq, flat_depth_eq. cbn [map fst snd].
  rewrite Hfg by assumption. f_equal.
  clear Hc Hb. revert IH Hcs. generalize (children b) as cs.
  induction cs as [|c cs IHcs]; intros IH Hcs; [reflexivity|].
  inversion IH; subst. cbn [flat_map] in *.
  apply Forall_app in Hcs as [Hc Hcs].
  rewrite !map_app. f_equal; auto.
Qed.

Lemma forest_items_map {A} (f : Item -> A) (g : nat -> LogseqBlock -> A) :
  (forall d b, block_clean b ->
               f (mkItem d (content b) (consumed showNumber b)) = g d b) ->
  forall forest, Forall block_clean (flattenBlocks forest) ->
  map f (flat_map (items_of showNumber 0) forest) =
  map (fun db => g (fst db) (snd db)) (flat_map (flat_depth 0) forest).
Proof.
  intros Hfg forest. unfold flattenBlocks.
  induction forest as [|b bs IH]; intros H; [reflexivity|].
  cbn [flat_map] in *. apply Forall_app in H as [Hb Hbs].
  rewrite !map_app. f_equal; [now apply items_of_map|now apply IH].
Qed.

End RoundTrip.

Lemma flat_depth_snd d b : map snd (flat_depth d b) = visit_flat b.
Proof.
  revert d. induction b as [b IH] using block_induction. intros d.
  rewrite flat_depth_eq, visit_flat_eq. cbn [map snd]. f_equal.
  revert IH. generalize (children b) as cs.
  induction cs as [|c cs IHcs]; intros IH; [reflexivity|].
  inversion IH; subst. cbn [flat_map]. rewrite map_app. f_equal; auto.
Qed.

Lemma forest_depth_snd forest :
  map snd (flat_map (flat_depth 0) forest) = flattenBlocks forest.
Proof.
  unfold flattenBlocks.
  induction forest as [|b bs IH]; [reflexivity|].
  cbn [flat_map]. now rewrite map_app, flat_depth_snd, IH.
Qed.

Lemma assigned_uuids_ids uuidv4 n items ids :
  map item_id items = map Some ids -> assigned_uuids uuidv4 n items = ids.
Proof.
  revert ids. induction items as [|it items IH]; intros [|u ids] H;
    try discriminate; [reflexivity|].
  simpl in *. inversion H as [[H1 H2]]. rewrite H1. f_equal. now apply IH.
Qed.

Lemma plain_number_one_line l : one_line (plain_number l) = true.
Proof.
  unfold one_line, plain_number. apply forallb_forall.
  intros c Hc. now apply filter_In in Hc as [_ Hc].
Qed.

(** C1, as the code has it.  Serializing a parsed forest and parsing the
    text again gives, block by block in document order, the same content
    and the same uuid; the [id::] property read from the new text is the
    block's uuid; the new level of a block is its depth in the forest,
    which is its old level when the levels start at 0 and never grow by
    more than one from a block to the next.  [uuidv4()] is assumed to
    return UUIDs and numbers to print on one line. *)
Theorem serialize_parse_roundtrip :
  forall uuidv4 uuidv4' showNumber text sp sp',
    (forall n, UUID_REGEX (uuidv4 n) = true) ->
    (forall l, one_line (showNumber l) = true) ->
    let forest := parseBlocks uuidv4 text sp in
    let text' := serializeBlocks showNumber forest in
    let forest' := parseBlocks uuidv4' text' sp' in
    map content (flattenBlocks forest') = map content (flattenBlocks forest)
    /\ map uuid (flattenBlocks forest') = map uuid (flattenBlocks forest)
    /\ map (fun it => get (item_properties it) (str "id"))
           (parse_items text') =
       map (fun b => Some (PString (uuid b))) (flattenBlocks forest)
    /\ map level (flattenBlocks forest') = depths forest
    /\ (no_gaps (map level (flattenBlocks forest)) = true ->
        map level (flattenBlocks forest') = map level (flattenBlocks forest)).
Proof.
  intros uuidv4 uuidv4' showNumber text sp sp' Hg Hn forest text' forest'.
  pose proof (parseBlocks_clean uuidv4 text sp Hg) as Hc.
  fold forest in Hc.
  pose proof (serialize_parse_items showNumber Hn forest Hc) as Hi.
  fold text' in Hi.
  assert (Hcontent :
            map content (flattenBlocks forest') =
            map content (flattenBlocks forest)).
  { unfold forest'. rewrite parseBlocks_content, Hi.
    rewrite (forest_items_map showNumber item_content
               (fun _ b => content b)) by auto.
    now rewrite <- (forest_depth_snd forest), map_map. }
  assert (Hid :
            map (fun it => get (item_properties it) (str "id"))
                (parse_items text') =
            map (fun b => Some (PString (uuid b))) (flattenBlocks forest)).
  { rewrite Hi.
    rewrite (forest_items_map showNumber
               (fun it => get (item_properties it) (str "id"))
               (fun _ b => Some (PString (uuid b)))).
    - now rewrite <- (forest_depth_snd forest), map_map.
    - intros d b Hb. cbn [item_properties]. now apply consumed_id.
    - exact Hc. }
  assert (Huuid :
            map uuid (flattenBlocks forest') = map uuid (flattenBlocks forest)).
  { unfold forest'. rewrite parseBlocks_uuid. apply assigned_uuids_ids.
    rewrite Hi.
    rewrite (forest_items_map showNumber item_id
               (fun _ b => Some (uuid b))).
    - now rewrite <- (forest_depth_snd forest), !map_map.
    - intros d b Hb. unfold item_id. cbn [item_properties].
      rewrite (consumed_id showNumber Hn b Hb).
      destruct Hb as (_ & _ & Hu & _). now rewrite Hu.
    - exact Hc. }
  assert (Hlevel : map level (flattenBlocks forest') = depths forest).
  { unfold forest'. rewrite parseBlocks_level, Hi.
    rewrite (forest_items_map showNumber item_level (fun d _ => d))
      by auto.
    reflexivity. }
  repeat (split; [assumption|]).
  intros Hgap. rewrite Hlevel. apply at_depth_depths.
  unfold forest in *. rewrite parseBlocks_level in Hgap.
  rewrite parseBlocks_forest. now apply build_forest_depths.
Qed.

Lemma serialize_parse_roundtrip_witness :
  (forall n, UUID_REGEX (fixed_uuid n) = true) /\
  (forall l, one_line (plain_number l) = true) /\
  let forest := parseBlocks fixed_uuid tab_scenario [] in
  let text' := serializeBlocks plain_number forest in
  let forest' := parseBlocks fixed_uuid text' [] in
  map content (flattenBlocks forest') = map content (flattenBlocks forest)
  /\ map uuid (flattenBlocks forest') = map uuid (flattenBlocks forest)
  /\ map (fun it => get (item_properties it) (str "id"))
         (parse_items text') =
     map (fun b => Some (PString (uuid b))) (flattenBlocks forest)
  /\ map level (flattenBlocks forest') = depths forest
  /\ (no_gaps (map level (flattenBlocks forest)) = true ->
      map level (flattenBlocks forest') = map level (flattenBlocks forest)).
Proof.
  split; [intros n; reflexivity|].
  split; [exact plain_number_one_line|].
  apply serialize_parse_roundtrip.
  - intros n; reflexivity.
  - exact plain_number_one_line.
Defined.

(** C1 as stated fails: a block two tabs below its predecessor has level
    2, and level 1 after it was serialized and parsed again. *)
Lemma gap_page_levels_change :
  map level (flattenBlocks (parseBlocks fixed_uuid gap_page [])) = [0; 2] /\
  map level
    (flattenBlocks
       (parseBlocks fixed_uuid
          (serializeBlocks plain_number
             (parseBlocks fixed_uuid gap_page [])) [])) = [0; 1].
Proof. split; vm_compute; reflexivity. Qed.

(* ================================================================== *)
(** ** Further properties: block references *)
(* ================================================================== *)

Import MoreNotions MoreExamples.

Lemma dedupe_in v l : forall seen,
  In v (dedupe seen l) <-> In v l /\ ~ In v seen.
Proof.
  induction l as [|x l IH]; intros seen; simpl; [tauto|].
  destruct (existsb (Js.eqb x) seen) eqn:E.
  - rewrite IH. apply existsb_exists in E as [y [Hy Hxy]].
    apply eqb_eq in Hxy. subst y. split.
    + intros [H1 H2]. tauto.
    + intros [[H1|H1] H2]; [subst; contradiction|tauto].
  - simpl. rewrite IH. simpl. split.
    + intros [H|[H1 H2]]; [subst|tauto]. split; [now left|].
      intros Hin. assert (existsb (Js.eqb v) seen = true) as C.
      { apply existsb_exists. exists v. split; [exact Hin|apply eqb_refl]. }
      congruence.
    + intros [[H1|H1] H2]; [now left|].
      destruct (list_eq_dec ascii_dec x v) as [->|Hne]; [now left|].
      right. split; [exact H1|]. intros [H|H]; [congruence|contradiction].
Qed.

Lemma dedupe_NoDup l : forall seen, NoDup (dedupe seen l).
Proof.
  induction l as [|x l IH]; intros seen; simpl; [constructor|].
  destruct (existsb (Js.eqb x) seen) eqn:E; [apply IH|].
  constructor; [|apply IH].
  rewrite dedupe_in. simpl. tauto.
Qed.

Lemma exec_loop_sound fuel : forall s v,
  In v (exec_loop fuel s) ->
  exists u, uuid_shape is_hex u /\ holds_ref s u /\ v = toLowerCase u.
Proof.
  induction fuel as [|fuel IH]; intros s v H; simpl in H; [contradiction|].
  destruct (find_ref s) as [[[pre u] r]|] eqn:E; [|contradiction].
  apply find_ref_spec in E as [Hs Hu].
  destruct H as [H|H].
  - exists u. split; [exact Hu|]. split; [|now symmetry].
    now exists pre, r.
  - apply IH in H as [u' [Hu' [[pre' [post' Hr]] Hv]]].
    exists u'. split; [exact Hu'|]. split; [|exact Hv].
    exists (pre ++ createBlockRef u ++ pre'), post'.
    rewrite Hs, Hr. now rewrite <- !app_assoc.
Qed.

(** The characters of a reference behind its first two are no opening
    parentheses. *)
Lemma token_chars u r i c :
  uuid_shape is_hex u -> 2 <= i < 40 ->
  nth_error (createBlockRef u ++ r) i = Some c -> c <> "("%char.
Proof.
  intros Hu Hi Hn.
  pose proof (uuid_shape_length _ _ Hu) as Hlen.
  pose proof (uuid_shape_chars _ _ Hu) as Hch.
  rewrite createBlockRef_app in Hn.
  destruct i as [|[|i]]; [lia|lia|]. simpl in Hn.
  destruct (Nat.lt_ge_cases i 36) as [Hlt|Hge].
  - rewrite nth_error_app1 in Hn by lia.
    apply nth_error_In in Hn.
    rewrite forallb_forall in Hch. specialize (Hch _ Hn).
    intros ->. vm_compute in Hch. discriminate.
  - rewrite nth_error_app2 in Hn by lia.
    destruct (i - length u) as [|[|k]] eqn:Ek; simpl in Hn;
      try (injection Hn as <-; discriminate).
    lia.
Qed.

Lemma no_overlap u r d u' r' :
  uuid_shape is_hex u ->
  createBlockRef u ++ r = d ++ createBlockRef u' ++ r' ->
  d = [] \/ 40 <= length d.
Proof.
  intros Hu H.
  destruct d as [|c0 d0]; [now left|right].
  destruct (Nat.lt_ge_cases (length (c0 :: d0)) 40) as [Hlt|Hge]; [|exact Hge].
  exfalso. set (d := c0 :: d0) in *.
  assert (nth_error (createBlockRef u ++ r) (length d) = Some "("%char) as H0.
  { rewrite H, nth_error_app2 by lia. now rewrite Nat.sub_diag. }
  assert (nth_error (createBlockRef u ++ r) (S (length d)) = Some "("%char)
    as H1.
  { rewrite H, nth_error_app2 by lia.
    now replace (S (length d) - length d) with 1 by lia. }
  assert (1 <= length d) as Hpos by (subst d; simpl; lia).
  destruct (Nat.eq_dec (length d) 39) as [E|E].
  - apply (token_chars u r (length d) "("%char Hu); [lia|exact H0|reflexivity].
  - apply (token_chars u r (S (length d)) "("%char Hu); [lia|exact H1|reflexivity].
Qed.

Lemma find_ref_first pre : forall s u r,
  ref_prefix s = Some (u, r) ->
  exists pre' u' r',
    find_ref (pre ++ s) = Some (pre', u', r') /\ length pre' <= length pre.
Proof.
  induction pre as [|c pre IH]; intros s u r H.
  - exists [], u, r. simpl. split; [now apply find_ref_hit|lia].
  - change ((c :: pre) ++ s) with (c :: (pre ++ s)).
    destruct (ref_prefix (c :: pre ++ s)) as [[u0 r0]|] eqn:E.
    + exists [], u0, r0. split; [now apply find_ref_hit|simpl; lia].
    + destruct (IH s u r H) as [pre' [u' [r' [Hf Hl]]]].
      exists (c :: pre'), u', r'. split; [|simpl; lia].
      simpl find_ref. simpl in E. rewrite E. now rewrite Hf.
Qed.

Lemma app_eq_length {A} (a b c d : list A) :
  a ++ b = c ++ d -> length a <= length c ->
  exists e, c = a ++ e /\ b = e ++ d.
Proof.
  revert c. induction a as [|x a IH]; intros c H Hl.
  - exists c. now split.
  - destruct c as [|y c]; [simpl in Hl; lia|].
    simpl in H. injection H as -> H.
    destruct (IH c H) as [e [-> ->]]; [simpl in Hl; lia|].
    exists e. now split.
Qed.

Lemma app_inj_length {A} (a b c d : list A) :
  a ++ b = c ++ d -> length a = length c -> a = c /\ b = d.
Proof.
  intros H Hl.
  destruct (app_eq_length a b c d H) as [e [Hc Hb]]; [lia|].
  assert (e = []) as ->.
  { apply length_zero_iff_nil. rewrite Hc, length_app in Hl. lia. }
  rewrite app_nil_r in Hc. now subst.
Qed.

Lemma length_createBlockRef u : length (createBlockRef u) = length u + 4.
Proof. unfold createBlockRef. rewrite !length_app. simpl. lia. Qed.

Lemma createBlockRef_inj u r u' r' :
  length u = length u' ->
  createBlockRef u ++ r = createBlockRef u' ++ r' -> u = u' /\ r = r'.
Proof.
  intros Hl H. rewrite !createBlockRef_app in H. injection H as H.
  apply app_inj_length in H as [-> H]; [|exact Hl].
  injection H as ->. now split.
Qed.

(** The leftmost match in a text that holds a reference: the reference
    itself, or one that ends in front of it. *)
Lemma find_ref_token pre u post :
  uuid_shape is_hex u ->
  exists pre' u' r',
    find_ref (pre ++ createBlockRef u ++ post) = Some (pre', u', r') /\
    uuid_shape is_hex u' /\
    ((pre' = pre /\ u' = u /\ r' = post) \/
     (exists mid, pre = pre' ++ createBlockRef u' ++ mid /\
                  r' = mid ++ createBlockRef u ++ post)).
Proof.
  intros Hu.
  destruct (find_ref_first pre _ _ _ (ref_prefix_createBlockRef u post Hu))
    as [pre' [u' [r' [Hf Hl]]]].
  exists pre', u', r'. split; [exact Hf|].
  apply find_ref_spec in Hf as [Hs Hu']. split; [exact Hu'|].
  destruct (app_eq_length _ _ _ _ (eq_sym Hs) Hl) as [e [He1 He2]].
  pose proof (uuid_shape_length _ _ Hu) as L1.
  pose proof (uuid_shape_length _ _ Hu') as L2.
  destruct (no_overlap u' r' e u post Hu' He2) as [->|Hlen].
  - left. rewrite app_nil_r in He1. subst pre'. split; [reflexivity|].
    simpl in He2. apply createBlockRef_inj in He2; [tauto|lia].
  - right.
    destruct (app_eq_length _ _ _ _ He2) as [mid [Hm1 Hm2]].
    { rewrite length_createBlockRef. lia. }
    exists mid. split; [|exact Hm2].
    rewrite He1, Hm1. reflexivity.
Qed.

Lemma exec_loop_complete fuel : forall s pre u post,
  length s <= fuel -> s = pre ++ createBlockRef u ++ post ->
  uuid_shape is_hex u -> In (toLowerCase u) (exec_loop fuel s).
Proof.
  induction fuel as [|fuel IH]; intros s pre u post Hlen Hs Hu.
  - subst s. rewrite !length_app, length_createBlockRef in Hlen. lia.
  - simpl. subst s.
    destruct (find_ref_token pre u post Hu)
      as [pre' [u' [r' [Hf [Hu' [[-> [-> ->]]|[mid [Hp Hr]]]]]]]];
      rewrite Hf.
    + now left.
    + right. apply (IH r' mid u post); [|exact Hr|exact Hu].
      apply find_ref_shorter in Hf. lia.
Qed.

Lemma extract_in_iff :
  forall content v,
    In v (extractBlockRefs content) <->
    exists u, isValidBlockUuid u = true /\ holds_ref content u /\
              v = toLowerCase u.
Proof.
  intros content v. unfold extractBlockRefs, isValidBlockUuid.
  rewrite dedupe_in. split.
  - intros [H _]. apply exec_loop_sound in H as [u [Hu [Hh Hv]]].
    exists u. split; [now apply uuid_whole_shape|now split].
  - intros [u [Hu [[pre [post Hs]] ->]]]. split; [|now intros []].
    apply uuid_whole_shape in Hu.
    now apply (exec_loop_complete _ content pre u post).
Qed.

Lemma lower_char_hex c : is_hex c = true -> is_lower_hex (lower_char c) = true.
Proof. each_char c. Qed.

Lemma forallb_map_lower s :
  forallb is_hex s = true -> forallb is_lower_hex (toLowerCase s) = true.
Proof.
  induction s as [|c s IH]; simpl; [reflexivity|].
  intros H. apply andb_true_iff in H as [Hc Hs].
  now rewrite lower_char_hex, IH.
Qed.

Lemma toLowerCase_uuid u :
  uuid_shape is_hex u -> uuid_shape is_lower_hex (toLowerCase u).
Proof.
  intros [a1 a2 a3 a4 a5 L1 L2 L3 L4 L5 H1 H2 H3 H4 H5].
  unfold toLowerCase.
  repeat (rewrite map_app; simpl map).
  change (lower_char "-") with "-"%char.
  constructor; rewrite ?length_map; auto; now apply forallb_map_lower.
Qed.

Lemma extract_lowercase content :
  Forall (fun v => lowercase_uuid v = true) (extractBlockRefs content).
Proof.
  apply Forall_forall. intros v Hv.
  apply extract_in_iff in Hv as [u [Hu [_ ->]]].
  apply uuid_whole_shape, toLowerCase_uuid. now apply uuid_whole_shape.
Qed.

(** X1. The list that [extractBlockRefs] returns holds no value twice, and
    every value is a UUID in lower case. *)
Theorem extractBlockRefs_distinct_lowercase :
  forall content,
    NoDup (extractBlockRefs content) /\
    Forall (fun v => lowercase_uuid v = true) (extractBlockRefs content).
Proof.
  intros content. split; [apply dedupe_NoDup|apply extract_lowercase].
Qed.

(** X2. [extractBlockRefs] returns exactly the lower-case forms of the
    identifiers of the references that the text holds. *)
Theorem extractBlockRefs_spec :
  forall content v,
    In v (extractBlockRefs content) <->
    exists u, isValidBlockUuid u = true /\ holds_ref content u /\
              v = toLowerCase u.
Proof. exact extract_in_iff. Qed.

(* ---- hasBlockRef ---- *)

Lemma find_ref_holds s :
  find_ref s <> None <->
  exists u, isValidBlockUuid u = true /\ holds_ref s u.
Proof.
  unfold isValidBlockUuid. split.
  - destruct (find_ref s) as [[[pre u] r]|] eqn:E; [|congruence].
    intros _. apply find_ref_spec in E as [Hs Hu].
    exists u. split; [now apply uuid_whole_shape|now exists pre, r].
  - intros [u [Hu [pre [post ->]]]]. apply uuid_whole_shape in Hu.
    destruct (find_ref_token pre u post Hu) as [? [? [? [H _]]]].
    congruence.
Qed.

Lemma hasBlockRef_start_iff :
  forall content,
    fst (hasBlockRef content 0) = true <->
    exists u, isValidBlockUuid u = true /\ holds_ref content u.
Proof.
  intros content. rewrite hasBlockRef_fresh, <- find_ref_holds.
  destruct (find_ref content); split; congruence.
Qed.

(** X3. Whatever [lastIndex] an earlier call left, [hasBlockRef] leaves a
    [lastIndex] inside the text, and 0 when it answers [false]; so on a
    text that holds a reference, of two calls in a row at least one
    answers [true]. *)
Theorem hasBlockRef_misses_once :
  forall content lastIndex,
    let first := hasBlockRef content lastIndex in
    snd first <= length content /\
    (fst first = false -> snd first = 0) /\
    ((exists u, isValidBlockUuid u = true /\ holds_ref content u) ->
     fst first = true \/ fst (hasBlockRef content (snd first)) = true).
Proof.
  intros content lastIndex first.
  assert (snd first <= length content /\ (fst first = false -> snd first = 0))
    as [H1 H2].
  { subst first. unfold hasBlockRef.
    destruct (Nat.ltb_spec (length content) lastIndex) as [Hlt|Hge];
      [simpl; split; [lia|reflexivity]|].
    destruct (find_ref (skipn lastIndex content)) as [[[pre u] r]|] eqn:E;
      [|simpl; split; [lia|reflexivity]].
    simpl. split; [|discriminate].
    apply find_ref_spec in E as [Hs Hu].
    assert (length (skipn lastIndex content) =
            length pre + (length u + 4) + length r) as Hl.
    { rewrite Hs, !length_app, length_createBlockRef. lia. }
    rewrite length_skipn in Hl.
    pose proof (uuid_shape_length _ _ Hu). lia. }
  split; [exact H1|]. split; [exact H2|].
  intros Hh. destruct (fst first) eqn:E; [now left|right].
  rewrite (H2 eq_refl). now apply hasBlockRef_start_iff.
Qed.

(** X4. On a regular expression whose [lastIndex] is 0, [hasBlockRef]
    answers [true] exactly when the text holds a reference. *)
Theorem hasBlockRef_from_start :
  forall content,
    fst (hasBlockRef content 0) = true <->
    exists u, isValidBlockUuid u = true /\ holds_ref content u.
Proof. exact hasBlockRef_start_iff. Qed.

(* ---- resolveBlockRefs ---- *)

Lemma find_ref_at pre u post :
  uuid_shape is_hex u -> find_ref pre = None ->
  find_ref (pre ++ createBlockRef u ++ post) = Some (pre, u, post).
Proof.
  intros Hu Hpre.
  destruct (find_ref_token pre u post Hu)
    as [pre' [u' [r' [Hf [Hu' [[-> [-> ->]]|[mid [Hp Hr]]]]]]]];
    [exact Hf|].
  exfalso. rewrite Hp in Hpre.
  destruct (find_ref_token pre' u' mid Hu') as [? [? [? [H _]]]].
  congruence.
Qed.

(** X5. [resolveBlockRefs] on a text whose first reference is ((u)):
    the text in front stays, the reference becomes the content of the
    block that the look-up returns for [u] as it is written (the
    reference itself when it returns none), and the text behind is
    resolved in the same way. *)
Theorem resolveBlockRefs_first_reference :
  forall pre u post resolveUuid lastIndex,
    isValidBlockUuid u = true -> find_ref pre = None ->
    fst (resolveBlockRefs (pre ++ createBlockRef u ++ post) resolveUuid
           lastIndex) =
    pre ++
    match resolveUuid u with
    | Some block => content block
    | None => createBlockRef u
    end ++
    fst (resolveBlockRefs post resolveUuid 0).
Proof.
  intros pre u post resolveUuid lastIndex Hu Hpre.
  apply uuid_whole_shape in Hu.
  unfold resolveBlockRefs. cbn [fst].
  assert (length (pre ++ createBlockRef u ++ post) =
          S (length pre + length u + 3 + length post)) as ->.
  { rewrite !length_app, length_createBlockRef. lia. }
  cbn [replace_refs]. rewrite (find_ref_at pre u post Hu Hpre).
  rewrite replace_refs_fuel by lia.
  reflexivity.
Qed.

Lemma resolveBlockRefs_first_reference_witness :
  isValidBlockUuid upper_id = true /\
  find_ref (str "see ") = None /\
  fst (resolveBlockRefs (str "see " ++ createBlockRef upper_id ++ str ".")
         no_block 7) =
  str "see " ++ createBlockRef upper_id ++
  fst (resolveBlockRefs (str ".") no_block 0).
Proof.
  split; [reflexivity|]. split; [reflexivity|].
  apply (resolveBlockRefs_first_reference (str "see ") upper_id (str ".")
           no_block 7); reflexivity.
Defined.

(* ---- resolveBlockRefsAsync ---- *)

Lemma fold_resolve_ext r1 r2 refs :
  Forall (fun u => r1 u = r2 u) refs ->
  forall acc,
    fold_left (resolve_one r1) refs acc = fold_left (resolve_one r2) refs acc.
Proof.
  induction 1 as [|u refs Hu _ IH]; intros acc; simpl; [reflexivity|].
  unfold resolve_one at 2 4. rewrite Hu. apply IH.
Qed.

(** X6. [resolveBlockRefsAsync] asks the look-up for lower-case
    identifiers only: two look-ups that agree on the lower-case UUIDs
    give the same text. *)
Theorem resolveBlockRefsAsync_lookups_are_lowercase :
  forall content r1 r2,
    (forall u, lowercase_uuid u = true -> r1 u = r2 u) ->
    resolveBlockRefsAsync content r1 = resolveBlockRefsAsync content r2.
Proof.
  intros content r1 r2 H. unfold resolveBlockRefsAsync.
  apply fold_resolve_ext.
  generalize (extract_lowercase content). apply Forall_impl. exact H.
Qed.

Lemma resolveBlockRefsAsync_lookups_are_lowercase_witness :
  (forall u, lowercase_uuid u = true -> no_block u = find_upper u) /\
  resolveBlockRefsAsync upper_ref no_block =
  resolveBlockRefsAsync upper_ref find_upper.
Proof.
  assert (forall u, lowercase_uuid u = true -> no_block u = find_upper u) as H.
  { intros u Hu. unfold find_upper, no_block.
    destruct (Js.eqb u upper_id) eqn:E; [|reflexivity].
    apply eqb_eq in E. subst u. vm_compute in Hu. discriminate. }
  split; [exact H|].
  exact (resolveBlockRefsAsync_lookups_are_lowercase upper_ref no_block
           find_upper H).
Defined.

(* ================================================================== *)
(** ** Further properties: the block parser *)
(* ================================================================== *)

(* ------------------------------------------------------------ *)
(* parseBlocks: one block per block line *)


Lemma trimEnd_space_cons c s :
  is_space c = true ->
  trimEnd (c :: s) = [] \/ exists y, trimEnd (c :: s) = c :: y.
Proof.
  intros Hc. change (c :: s) with ([c] ++ s). rewrite trimEnd_app.
  destruct (forallb is_space s).
  - left. apply trimEnd_spaces. simpl. now rewrite Hc.
  - right. now exists (trimEnd s).
Qed.






Lemma map_via_bare {A} (f : LogseqBlock -> A) l :
  (forall b, f (bare b) = f b) -> map f l = map f (map bare l).
Proof.
  intros H. rewrite map_map. apply map_ext. intros b. now rewrite H.
Qed.


(* ------------------------------------------------------------ *)
(* parseBlocks: what every block satisfies *)

Lemma item_blocks_in uuidv4 sp x : forall items n,
  In x (item_blocks uuidv4 n sp items) ->
  exists u it, In it items /\ x = item_block u sp it.
Proof.
  induction items as [|it items IH]; intros n H; simpl in H; [contradiction|].
  destruct (item_id it) as [s|]; destruct H as [<-|H].
  - exists s, it. split; [now left|reflexivity].
  - apply IH in H as [u [it' [Hin ->]]]. exists u, it'. split; [now right|easy].
  - exists (uuidv4 n), it. split; [now left|reflexivity].
  - apply IH in H as [u [it' [Hin ->]]]. exists u, it'. split; [now right|easy].
Qed.

Lemma get_none o k :
  Forall (fun kv => fst kv <> k) o -> get o k = None.
Proof.
  induction 1 as [|[k' v] o Hk _ IH]; simpl; [reflexivity|].
  simpl in Hk. destruct (Js.eqb k' k) eqn:E; [|exact IH].
  apply eqb_eq in E. contradiction.
Qed.

Lemma rest_without_id_ok o : props_ok o -> props_ok (rest_without_id o).
Proof.
  intros H. apply Forall_forall. intros x Hx.
  apply rest_without_id_in in Hx as [Hx _].
  unfold props_ok in H. rewrite Forall_forall in H. now apply H.
Qed.

(** X8. Every block that [parseBlocks] returns carries the path it was
    given, a content that is trimmed and holds no line terminator, the
    marker and priority that [parseTaskFromContent] reads from that
    content, and properties with well-formed keys among which [id] does
    not occur. *)
Theorem parseBlocks_block_invariants :
  forall uuidv4 text sp,
    Forall (fun b =>
              sourcePath b = sp /\
              trim (content b) = content b /\
              one_line (content b) = true /\
              (marker b, priority b) = parseTaskFromContent (content b) /\
              get (properties b) (str "id") = None /\
              Forall (fun kv => fst kv <> [] /\
                                forallb is_key_char (fst kv) = true)
                     (properties b))
           (flattenBlocks (parseBlocks uuidv4 text sp)).
Proof.
  intros uuidv4 text sp. apply Forall_forall. intros b Hb.
  assert (In (bare b) (map bare (flattenBlocks (parseBlocks uuidv4 text sp))))
    as Hin by now apply in_map.
  rewrite parseBlocks_forest, build_forest_flat in Hin.
  apply item_blocks_in in Hin as [u [it [Hit Hbare]]].
  pose proof (parse_items_clean text) as Hclean.
  rewrite Forall_forall in Hclean. specialize (Hclean it Hit).
  destruct Hclean as [Ht [Ho Hp]].
  assert (sourcePath b = sp /\ content b = item_content it /\
          properties b = rest_without_id (item_properties it) /\
          marker b = fst (parseTaskFromContent (item_content it)) /\
          priority b = snd (parseTaskFromContent (item_content it)))
    as [-> [-> [-> [-> ->]]]].
  { unfold bare, item_block in Hbare. destruct b. simpl in *.
    injection Hbare as -> -> -> -> -> -> ->. repeat split. }
  split; [reflexivity|]. split; [now apply trimmed_trim|].
  split; [exact Ho|]. split; [now destruct (parseTaskFromContent _)|].
  split.
  - apply get_none, Forall_forall. intros x Hx.
    now apply rest_without_id_in in Hx as [_ Hx].
  - apply rest_without_id_ok in Hp. revert Hp. apply Forall_impl.
    intros kv [[H1 H2] _]. now split.
Qed.

(* ------------------------------------------------------------ *)
(* findBlockByUuid *)

Lemma find_first {A} (f : A -> bool) l x :
  find f l = Some x <->
  exists l1 l2, l = l1 ++ x :: l2 /\ f x = true /\
                Forall (fun y => f y = false) l1.
Proof.
  induction l as [|a l IH]; simpl.
  - split; [discriminate|]. intros [l1 [l2 [H _]]]. now destruct l1.
  - destruct (f a) eqn:E.
    + split.
      * intros [= ->]. exists [], l. now repeat split.
      * intros [l1 [l2 [H [Hx Hl]]]]. destruct l1 as [|b l1].
        -- simpl in H. now injection H as ->.
        -- simpl in H. injection H as -> _. inversion Hl. congruence.
    + rewrite IH. split.
      * intros [l1 [l2 [-> [Hx Hl]]]]. exists (a :: l1), l2.
        repeat split; [exact Hx|now constructor].
      * intros [l1 [l2 [H [Hx Hl]]]]. destruct l1 as [|b l1].
        -- simpl in H. injection H as -> _. congruence.
        -- simpl in H. injection H as -> ->. exists l1, l2.
           inversion Hl. now repeat split.
Qed.

(** X9. [findBlockByUuid] returns the first block in document order whose
    [uuid] is the given text, character by character; it returns none
    exactly when no block has it. *)
Theorem findBlockByUuid_first_match :
  forall blocks u,
    (forall b,
        findBlockByUuid blocks u = Some b <->
        exists l1 l2, flattenBlocks blocks = l1 ++ b :: l2 /\ uuid b = u /\
                      Forall (fun x => uuid x <> u) l1) /\
    (findBlockByUuid blocks u = None <->
     Forall (fun x => uuid x <> u) (flattenBlocks blocks)).
Proof.
  intros blocks u. unfold findBlockByUuid. split.
  - intros b. rewrite find_first. split.
    + intros [l1 [l2 [H [Hx Hl]]]]. exists l1, l2. split; [exact H|].
      split; [now apply eqb_eq|]. revert Hl. apply Forall_impl.
      intros y. apply eqb_neq.
    + intros [l1 [l2 [H [Hx Hl]]]]. exists l1, l2. split; [exact H|].
      split; [now apply eqb_eq|]. revert Hl. apply Forall_impl.
      intros y. apply eqb_neq.
  - split.
    + intros H. apply Forall_forall. intros x Hx.
      apply eqb_neq. exact (find_none _ _ H x Hx).
    + intros H. destruct (find _ _) as [b|] eqn:E; [|reflexivity].
      apply find_some in E as [Hin Hb]. rewrite Forall_forall in H.
      apply eqb_eq in Hb. now apply H in Hin.
Qed.

(* ------------------------------------------------------------ *)
(* parseTaskFromContent *)

Lemma priority_letter x :
  existsb (ci_eqb x) (str "ABC") = true ->
  In [x] [str "A"; str "B"; str "C"; str "a"; str "b"; str "c"].
Proof.
  destruct x as [[] [] [] [] [] [] [] []]; vm_compute; intros H;
    try discriminate H; auto 7.
Qed.

Lemma task_tail_priority s p :
  task_tail s = Some (Some p) ->
  In p [str "A"; str "B"; str "C"; str "a"; str "b"; str "c"].
Proof.
  unfold task_tail.
  destruct (lit "[" (trimStart s)) as [r2|]; cbn [bind];
    [|destruct (dot_star_end _); cbn [bind]; intros HH; discriminate HH].
  destruct (lit "#" r2) as [r3|]; cbn [bind];
    [|destruct (dot_star_end _); cbn [bind]; intros HH; discriminate HH].
  destruct r3 as [|x r4]; cbn [bind];
    [destruct (dot_star_end _); cbn [bind]; intros HH; discriminate HH|].
  destruct (existsb (ci_eqb x) (str "ABC")) eqn:E; cbn [bind];
    [|destruct (dot_star_end _); cbn [bind]; intros HH; discriminate HH].
  destruct (lit "]" r4) as [r'|]; cbn [bind];
    [|destruct (dot_star_end _); cbn [bind]; intros HH; discriminate HH].
  destruct (dot_star_end (trimStart r')); cbn [bind]; [|intros HH; discriminate HH].
  intros [= <-]. now apply priority_letter.
Qed.

Lemma task_match_in ms s m p :
  task_match ms s = Some (m, p) ->
  In m ms /\
  match p with
  | Some x => In x [str "A"; str "B"; str "C"; str "a"; str "b"; str "c"]
  | None => True
  end.
Proof.
  induction ms as [|m0 ms IH]; simpl; [discriminate|].
  destruct (lit_ci (marker_text m0) s) as [r|];
    [|intros H; apply IH in H; tauto].
  destruct (word_boundary r); [|intros H; apply IH in H; tauto].
  destruct (task_tail r) as [p0|] eqn:E; [|intros H; apply IH in H; tauto].
  intros [= <- <-]. split; [now left|].
  destruct p0 as [x|]; [|exact I]. now apply task_tail_priority in E.
Qed.

(** X10. The marker that [parseTaskFromContent] returns is one of the
    eight markers left after CANCELLED is turned into CANCELED and
    WAITING into WAIT; a priority comes only with a marker, and is one
    letter among A, B, C in either case. *)
Theorem parseTaskFromContent_result :
  forall content,
    match parseTaskFromContent content with
    | (Some m, p) =>
        In m [TODO; DOING; DONE; LATER; NOW; CANCELED; IN_PROGRESS; WAIT] /\
        match p with
        | Some x =>
            In x [str "A"; str "B"; str "C"; str "a"; str "b"; str "c"]
        | None => True
        end
    | (None, p) => p = None
    end.
Proof.
  intros content. unfold parseTaskFromContent.
  destruct (task_match TASK_MARKERS (trim content)) as [[m p]|] eqn:E;
    [|reflexivity].
  apply task_match_in in E as [Hm Hp]. split; [|exact Hp].
  unfold TASK_MARKERS in Hm. simpl in Hm.
  repeat (destruct Hm as [<-|Hm]; [simpl; auto 10|]). contradiction.
Qed.

Lemma is_space_upper c : is_space (upper_char c) = is_space c.
Proof. each_char c. Qed.

Lemma is_word_upper c : is_word (upper_char c) = is_word c.
Proof. each_char c. Qed.

Lemma marker_no_space m :
  forallb (fun c => negb (is_space c)) (marker_text m) = true.
Proof. destruct m; reflexivity. Qed.

Lemma keyword_no_space t m :
  map upper_char t = marker_text m ->
  forallb (fun c => negb (is_space c)) t = true.
Proof.
  intros H. pose proof (marker_no_space m) as Hm. rewrite <- H in Hm.
  rewrite forallb_forall in *. intros c Hc.
  rewrite <- is_space_upper. apply Hm. now apply in_map.
Qed.

Lemma trim_keyword t rest :
  t <> [] -> forallb (fun c => negb (is_space c)) t = true ->
  trim (t ++ rest) = t ++ trimEnd rest.
Proof.
  intros Hne Ht. unfold trim. rewrite trimStart_app.
  assert (forallb is_space t = false) as ->.
  { destruct t as [|c t]; [contradiction|]. simpl in *.
    apply andb_true_iff in Ht as [Hc _]. now destruct (is_space c). }
  rewrite (trimStart_nospace t Ht), trimEnd_app.
  destruct (forallb is_space rest) eqn:E.
  - rewrite (trimEnd_spaces rest E), app_nil_r. now apply trimEnd_nospace.
  - reflexivity.
Qed.

Lemma trimEnd_head c s :
  trimEnd (c :: s) = [] \/ exists y, trimEnd (c :: s) = c :: y.
Proof.
  destruct (is_space c) eqn:E; [now apply trimEnd_space_cons|].
  right. exists (trimEnd s). now apply trimEnd_cons.
Qed.

Lemma word_boundary_trimEnd s :
  word_boundary s = true -> word_boundary (trimEnd s) = true.
Proof.
  destruct s as [|c s]; [reflexivity|]. intros H.
  destruct (trimEnd_head c s) as [->|[y ->]]; [reflexivity|exact H].
Qed.

Lemma one_line_tail c s : one_line (c :: s) = true -> one_line s = true.
Proof. unfold one_line. simpl. intros H. now apply andb_true_iff in H. Qed.

Lemma task_tail_total s : one_line s = true -> task_tail s <> None.
Proof.
  intros H. unfold task_tail.
  pose proof (forallb_trimStart _ s H) as H1. fold (one_line (trimStart s)) in H1.
  destruct (lit "[" (trimStart s)) as [r2|] eqn:E2; cbn [bind];
    [|rewrite dot_star_end_intro by exact H1; cbn [bind]; discriminate].
  destruct (lit "#" r2) as [r3|] eqn:E3; cbn [bind];
    [|rewrite dot_star_end_intro by exact H1; cbn [bind]; discriminate].
  destruct r3 as [|x r4];
    [rewrite dot_star_end_intro by exact H1; cbn [bind]; discriminate|].
  destruct (existsb (ci_eqb x) (str "ABC"));
    [|rewrite dot_star_end_intro by exact H1; cbn [bind]; discriminate].
  destruct (lit "]" r4) as [r'|] eqn:E4; cbn [bind];
    [|rewrite dot_star_end_intro by exact H1; cbn [bind]; discriminate].
  apply lit_inv in E2, E3, E4. rewrite E2, E3, E4 in H1.
  do 4 apply one_line_tail in H1.
  pose proof (forallb_trimStart _ r' H1) as H2.
  fold (one_line (trimStart r')) in H2.
  rewrite dot_star_end_intro by exact H2. cbn [bind]. discriminate.
Qed.

Lemma lit_ci_hit k : forall t r,
  map upper_char t = map upper_char k -> lit_ci k (t ++ r) = Some r.
Proof.
  induction k as [|a k IH]; intros [|c t] r H; try discriminate H.
  - reflexivity.
  - cbn [map] in H. injection H as Hc H. cbn [app lit_ci].
    unfold ci_eqb. rewrite Hc, Ascii.eqb_refl. now apply IH.
Qed.

Lemma lit_ci_inv k : forall s r,
  lit_ci k s = Some r ->
  exists t, s = t ++ r /\ map upper_char t = map upper_char k.
Proof.
  induction k as [|a k IH]; intros s r H.
  - cbn [lit_ci] in H. injection H as ->. now exists [].
  - destruct s as [|c s]; [discriminate H|]. cbn [lit_ci] in H.
    destruct (ci_eqb a c) eqn:E; [|discriminate H].
    apply IH in H as [t [-> Ht]]. exists (c :: t).
    split; [reflexivity|]. cbn [map]. rewrite Ht. f_equal.
    unfold ci_eqb in E. apply Ascii.eqb_eq in E. now symmetry.
Qed.

Lemma marker_upper m : map upper_char (marker_text m) = marker_text m.
Proof. destruct m; reflexivity. Qed.

Lemma task_match_hit m ms s r p :
  lit_ci (marker_text m) s = Some r -> word_boundary r = true ->
  task_tail r = Some p -> task_match (m :: ms) s = Some (m, p).
Proof. intros H1 H2 H3. cbn [task_match]. now rewrite H1, H2, H3. Qed.

Lemma task_match_skip m ms s :
  (forall r, lit_ci (marker_text m) s = Some r -> word_boundary r = false) ->
  task_match (m :: ms) s = task_match ms s.
Proof.
  intros H. cbn [task_match].
  destruct (lit_ci (marker_text m) s) as [r|]; [|reflexivity].
  now rewrite (H r eq_refl).
Qed.

(** The keyword of another marker is no start of the text, or is
    followed by a word character. *)
Ltac other_keyword Ht :=
  let r0 := fresh "r0" in
  let E := fresh "E" in
  let t' := fresh "t'" in
  let E1 := fresh "E1" in
  let E2 := fresh "E2" in
  intros r0 E; apply lit_ci_inv in E as [t' [E1 E2]];
  apply (f_equal (map upper_char)) in E1;
  rewrite !map_app, Ht, E2 in E1; simpl in E1;
  first
    [ discriminate E1
    | repeat injection E1 as E1;
      destruct r0 as [|a r0]; [discriminate E1|];
      cbn [map] in E1; injection E1 as E1 _;
      cbn [word_boundary]; rewrite <- (is_word_upper a), <- E1;
      reflexivity ].

Lemma task_match_keyword m t r :
  map upper_char t = marker_text m ->
  word_boundary r = true -> task_tail r <> None ->
  exists p, task_match TASK_MARKERS (t ++ r) = Some (m, p).
Proof.
  intros Ht Hb Htail.
  destruct (task_tail r) as [p|] eqn:Ep; [|contradiction].
  exists p.
  assert (lit_ci (marker_text m) (t ++ r) = Some r) as Hhit.
  { apply lit_ci_hit. now rewrite marker_upper. }
  unfold TASK_MARKERS.
  destruct m;
    repeat (rewrite task_match_skip; [|solve [other_keyword Ht]]);
    exact (task_match_hit _ _ _ _ _ Hhit Hb Ep).
Qed.

(** X11. A content that starts with a task keyword, in any letter case,
    followed by the end of the text or by a character that is no word
    character, gets that keyword as its marker, CANCELLED as CANCELED and
    WAITING as WAIT. *)
Theorem task_keyword_is_recognised :
  forall m t rest,
    map upper_char t = marker_text m ->
    word_boundary rest = true -> one_line rest = true ->
    fst (parseTaskFromContent (t ++ rest)) = Some (normalized m).
Proof.
  intros m t rest Ht Hb Ho. unfold parseTaskFromContent.
  rewrite trim_keyword;
    [|destruct m, t; discriminate|now apply (keyword_no_space t m)].
  destruct (task_match_keyword m t (trimEnd rest) Ht) as [p ->].
  - now apply word_boundary_trimEnd.
  - apply task_tail_total. now apply forallb_trimEnd.
  - reflexivity.
Qed.

Lemma task_keyword_is_recognised_witness :
  map upper_char (str "Waiting") = marker_text WAITING /\
  word_boundary (str ": for the review ") = true /\
  one_line (str ": for the review ") = true /\
  fst (parseTaskFromContent (str "Waiting" ++ str ": for the review ")) =
  Some WAIT.
Proof.
  split; [reflexivity|]. split; [reflexivity|]. split; [reflexivity|].
  apply (task_keyword_is_recognised WAITING (str "Waiting")
           (str ": for the review ")); reflexivity.
Defined.

Lemma trim_idem s : trim (trim s) = trim s.
Proof. apply trimmed_trim, trim_trimmed. Qed.

(* ================================================================== *)
(** ** Further properties: the search *)
(* ================================================================== *)

Section Search.

Variable uuidv4 : jsstring -> nat -> jsstring.
Variable jsonNumber : jsstring -> jsstring.
Variable isAllowed : jsstring -> bool.
Variable graphPath : jsstring.
Variable fs : SearchService.FileSystem.
Variable query0 : jsstring.
Variable maxLimit : Number.number.
Variable cs : bool.

Local Abbreviation block_loop :=
  (SearchService.block_loop jsonNumber query0 maxLimit cs).
Local Abbreviation scan_file :=
  (SearchService.scan_file uuidv4 jsonNumber query0 maxLimit cs).
Local Abbreviation file_loop :=
  (SearchService.file_loop uuidv4 jsonNumber isAllowed graphPath fs query0
     maxLimit cs).

Variable P : SearchService.BlockSearchResult -> Prop.

Lemma block_loop_all path flat : forall results,
  (forall block blockSearch,
      includes blockSearch (SearchService.searchQuery query0 cs) = true ->
      P (SearchService.block_result query0 cs path block blockSearch)) ->
  Forall P results -> Forall P (block_loop path flat results).
Proof.
  induction flat as [|block flat IH]; intros results Hb H; simpl; [exact H|].
  destruct (includes _ _) eqn:E; [|now apply IH].
  assert (Forall P
            (results ++
             [SearchService.block_result query0 cs path block
                (SearchService.fold_case cs
                   (content block ++ str " " ++
                    SearchService.json_properties jsonNumber
                      (properties block)))])) as H'.
  { apply Forall_app. split; [exact H|]. constructor; [|constructor].
    now apply Hb. }
  match goal with
  | |- context [Number.length_ge ?x maxLimit] =>
      destruct (Number.length_ge x maxLimit)
  end; [exact H'|now apply IH].
Qed.

Lemma scan_file_all sc sf sbp path raw results :
  (forall block blockSearch,
      includes blockSearch (SearchService.searchQuery query0 cs) = true ->
      P (SearchService.block_result query0 cs path block blockSearch)) ->
  (forall text index,
      P (SearchService.file_result query0 cs path text index)) ->
  Forall P results -> Forall P (scan_file sc sf sbp path raw results).
Proof.
  intros Hb Hf H. unfold SearchService.scan_file.
  destruct (index_of _ _); [|exact H].
  match goal with
  | |- context [SearchService.block_loop ?a ?b ?c ?d ?e ?f ?g] =>
      pose proof (block_loop_all e f g Hb H) as H';
      destruct (SearchService.block_loop a b c d e f g)
  end; [|exact H'].
  constructor; [apply Hf|constructor].
Qed.

Lemma file_loop_all sc sf sbp files : forall results,
  (forall fullPath,
      In fullPath files ->
      isAllowed (relative_path graphPath fullPath) = true ->
      (forall block blockSearch,
          includes blockSearch (SearchService.searchQuery query0 cs) = true ->
          P (SearchService.block_result query0 cs
               (relative_path graphPath fullPath) block blockSearch)) /\
      (forall text index,
          P (SearchService.file_result query0 cs
               (relative_path graphPath fullPath) text index))) ->
  Forall P results -> Forall P (fst (file_loop sc sf sbp files results)).
Proof.
  induction files as [|fullPath files IH]; intros results Hp H; simpl;
    [exact H|].
  fold (relative_path graphPath fullPath).
  assert (forall f, In f files -> In f (fullPath :: files)) as Hin
      by (intros f Hf; now right).
  destruct (isAllowed (relative_path graphPath fullPath)) eqn:Ea; simpl;
    [|apply IH; [intros f Hf; apply Hp; auto|exact H]].
  destruct (Number.length_ge (length results) maxLimit); [exact H|].
  match goal with
  | |- context [SearchService.file_loop ?a ?b ?c ?d ?e ?f ?g ?h ?i ?j ?k ?l ?m] =>
      pose proof (IH m) as IH';
      destruct (SearchService.file_loop a b c d e f g h i j k l m)
        as [out reads]
  end.
  simpl in *. apply IH'; [intros f Hf; apply Hp; auto|].
  destruct (SearchService.readFile fs fullPath) as [raw|]; [|exact H].
  destruct (Hp fullPath (or_introl eq_refl) Ea) as [Hb Hf].
  now apply scan_file_all.
Qed.

(** The reads of the loop over the files. *)
Lemma file_loop_reads sc sf sbp files : forall results,
  Forall (fun a => match a with
                   | SearchService.ListFiles => True
                   | SearchService.ReadFile path =>
                       In path files /\
                       isAllowed (relative_path graphPath path) = true
                   end)
         (snd (file_loop sc sf sbp files results)).
Proof.
  induction files as [|fullPath files IH]; intros results; simpl;
    [constructor|].
  fold (relative_path graphPath fullPath).
  destruct (isAllowed (relative_path graphPath fullPath)) eqn:Ea; simpl.
  - destruct (Number.length_ge (length results) maxLimit); [constructor|].
    match goal with
    | |- context [SearchService.file_loop ?a ?b ?c ?d ?e ?f ?g ?h ?i ?j ?k ?l ?m] =>
        pose proof (IH m) as IH';
        destruct (SearchService.file_loop a b c d e f g h i j k l m)
          as [out reads]
    end.
    simpl in *. constructor; [split; [now left|exact Ea]|].
    revert IH'. apply Forall_impl. intros [|path]; [easy|].
    intros [H1 H2]. split; [now right|exact H2].
  - specialize (IH results). revert IH. apply Forall_impl.
    intros [|path]; [easy|]. intros [H1 H2]. split; [now right|exact H2].
Qed.

(** With a limit of 0 or less the loop stops at the first allowed file,
    before it reads it. *)
Lemma file_loop_no_limit sc sf sbp files :
  Number.length_ge 0 maxLimit = true ->
  file_loop sc sf sbp files [] = ([], []).
Proof.
  intros Hl. induction files as [|fullPath files IH]; simpl; [reflexivity|].
  destruct (negb (isAllowed _)); [exact IH|].
  now rewrite Hl.
Qed.

(** Without a zone to search in, no file yields a result. *)
Lemma scan_file_no_zone path raw results :
  query0 <> [] -> scan_file false false false path raw results = results.
Proof.
  intros Hq. unfold SearchService.scan_file. simpl.
  unfold SearchService.searchQuery, SearchService.fold_case.
  destruct query0 as [|c q]; [contradiction|].
  destruct cs; reflexivity.
Qed.

Lemma file_loop_no_zone files : forall results,
  query0 <> [] -> fst (file_loop false false false files results) = results.
Proof.
  intros results Hq. revert results.
  induction files as [|fullPath files IH]; intros results; simpl;
    [reflexivity|].
  destruct (negb (isAllowed _)); [apply IH|].
  destruct (Number.length_ge (length results) maxLimit); [reflexivity|].
  match goal with
  | |- context [SearchService.file_loop ?a ?b ?c ?d ?e ?f ?g ?h ?i ?j ?k ?l ?m] =>
      pose proof (IH m) as IH';
      destruct (SearchService.file_loop a b c d e f g h i j k l m)
        as [out reads]
  end.
  simpl in *. rewrite IH'.
  destruct (SearchService.readFile fs fullPath) as [raw|]; [|reflexivity].
  now apply scan_file_no_zone.
Qed.

(** Behind the first result there are block results only. *)
Lemma block_loop_tail path flat : forall results,
  Forall block_level (tl results) ->
  Forall block_level (tl (block_loop path flat results)).
Proof.
  induction flat as [|block flat IH]; intros results H; simpl; [exact H|].
  destruct (includes _ _) eqn:E; [|now apply IH].
  match goal with
  | |- context [results ++ [?r]] =>
      assert (Forall block_level (tl (results ++ [r]))) as H'
  end.
  { destruct results as [|r0 results]; simpl; [constructor|].
    apply Forall_app. split; [exact H|].
    constructor; [discriminate|constructor]. }
  match goal with
  | |- context [Number.length_ge ?x maxLimit] =>
      destruct (Number.length_ge x maxLimit)
  end; [exact H'|now apply IH].
Qed.

Lemma scan_file_tail sc sf sbp path raw results :
  Forall block_level (tl results) ->
  Forall block_level (tl (scan_file sc sf sbp path raw results)).
Proof.
  intros H. unfold SearchService.scan_file.
  destruct (index_of _ _); [|exact H].
  match goal with
  | |- context [SearchService.block_loop ?a ?b ?c ?d ?e ?f ?g] =>
      pose proof (block_loop_tail e f g H) as H';
      destruct (SearchService.block_loop a b c d e f g)
  end; [constructor|exact H'].
Qed.

Lemma file_loop_tail sc sf sbp files : forall results,
  Forall block_level (tl results) ->
  Forall block_level (tl (fst (file_loop sc sf sbp files results))).
Proof.
  induction files as [|fullPath files IH]; intros results H; simpl;
    [exact H|].
  destruct (negb (isAllowed _)); [now apply IH|].
  destruct (Number.length_ge (length results) maxLimit); [exact H|].
  match goal with
  | |- context [SearchService.file_loop ?a ?b ?c ?d ?e ?f ?g ?h ?i ?j ?k ?l ?m] =>
      pose proof (IH m) as IH';
      destruct (SearchService.file_loop a b c d e f g h i j k l m)
        as [out reads]
  end.
  simpl in *. apply IH'.
  destruct (SearchService.readFile fs fullPath) as [raw|]; [|exact H].
  now apply scan_file_tail.
Qed.

End Search.

Lemma split_char_length sep s : 1 <= length (split_char sep s).
Proof.
  induction s as [|c s IH]; simpl; [lia|].
  destruct (Ascii.eqb c sep); simpl; [lia|].
  destruct (split_char sep s); simpl; lia.
Qed.

Lemma block_result_ok query0 cs path block blockSearch :
  includes blockSearch (SearchService.searchQuery query0 cs) = true ->
  result_ok (SearchService.block_result query0 cs path block blockSearch).
Proof.
  intros H. unfold result_ok, SearchService.block_result. simpl.
  split; [reflexivity|]. split; [|reflexivity].
  unfold includes in H.
  destruct (index_of _ _); [lia|discriminate].
Qed.

Lemma file_result_ok query0 cs path text index :
  result_ok (SearchService.file_result query0 cs path text index).
Proof.
  unfold result_ok, SearchService.file_result. simpl.
  split; [reflexivity|]. split; [lia|]. split; [reflexivity|].
  eexists. split; [reflexivity|]. apply split_char_length.
Qed.

(** The query that passes the guard of [search] is not empty. *)
Lemma guard_not_empty (q : jsstring) :
  (match q with [] => true | _ :: _ => false end || (length (trim q) =? 0))
  = false -> q <> [].
Proof. now destruct q. Qed.

Lemma min_20_cap limit :
  match cap (Number.min limit (Number.of_Z 20)) with
  | Some c =>
      (c <= 20)%Z /\
      exists threshold,
        Z.max 0 threshold = c /\
        forall n,
          Number.length_ge n (Number.min limit (Number.of_Z 20)) =
          (threshold <=? Z.of_nat n)%Z
  | None => limit = Number.NaN
  end.
Proof.
  destruct limit as [| |q|]; cbn [Number.min Number.of_Z cap].
  - reflexivity.
  - split; [lia|]. exists 0%Z. split; [reflexivity|]. intros n.
    cbn [Number.length_ge]. symmetry. apply Z.leb_le. lia.
  - destruct (QArith_base.Qle_bool q (QArith_base.inject_Z 20)) eqn:E;
      cbn [cap].
    + apply QArith_base.Qle_bool_iff, Qround.Qceiling_resp_le in E.
      rewrite Qround.Qceiling_Z in E. split; [lia|].
      exists (Qround.Qceiling q). split; [reflexivity|].
      intros n. apply length_ge_ceiling.
    + unfold Number.of_Z. cbn [cap]. rewrite Qround.Qceiling_Z.
      split; [lia|]. exists 20%Z. split; [reflexivity|]. intros n.
      now rewrite length_ge_ceiling, Qround.Qceiling_Z.
  - unfold Number.of_Z. cbn [cap]. rewrite Qround.Qceiling_Z.
    split; [lia|]. exists 20%Z. split; [reflexivity|]. intros n.
    now rewrite length_ge_ceiling, Qround.Qceiling_Z.
Qed.

(** X12. For every limit other than [NaN], [search] returns at most as
    many results as min(limit, 20) rounded up to a whole number, and
    none if that is 0 or less; an absent limit is 5.  So it returns at
    most 20 results, and for a whole limit at most that many. *)
Theorem search_respects_limit :
  forall uuidv4 jsonNumber isAllowed graphPath fs params,
    let limit :=
      SearchService.default (SearchService.limit params) (Number.of_Z 5) in
    match cap (Number.min limit (Number.of_Z 20)) with
    | Some c =>
        (Z.of_nat
           (length (results_of (fst (SearchService.search uuidv4 jsonNumber
                                       isAllowed graphPath fs params))))
         <= c <= 20)%Z
    | None => limit = Number.NaN
    end.
Proof.
  intros uuidv4 jsonNumber isAllowed graphPath fs params limit.
  pose proof (min_20_cap limit) as Hcap.
  destruct (cap (Number.min limit (Number.of_Z 20))) as [c|]; [|exact Hcap].
  destruct Hcap as [H20 [threshold [Hc Ht]]].
  split; [|exact H20].
  unfold SearchService.search. fold limit.
  destruct (SearchService.query params) as [q|]; [|simpl; lia].
  destruct (_ || _); [simpl; lia|].
  match goal with
  | |- context [SearchService.file_loop ?a ?b ?c ?d ?e ?f ?g ?h ?i ?j ?k ?l ?m] =>
      pose proof (file_loop_length a b c d e f g h threshold Ht i j k l m)
        as H;
      destruct (SearchService.file_loop a b c d e f g h i j k l m)
        as [out reads]
  end.
  simpl in *. rewrite <- Hc. apply H. lia.
Qed.

Lemma min_20_not_positive l :
  Number.length_ge 0 l = true ->
  Number.length_ge 0 (Number.min l (Number.of_Z 20)) = true.
Proof.
  destruct l as [| |q|]; cbn [Number.length_ge Number.min Number.of_Z];
    try discriminate; [reflexivity|].
  intros H.
  assert (QArith_base.Qle_bool q (QArith_base.inject_Z 20) = true) as ->.
  { apply QArith_base.Qle_bool_iff. apply QArith_base.Qle_bool_iff in H.
    apply (QArith_base.Qle_trans _ _ _ H).
    rewrite <- QArith_base.Zle_Qle. simpl. lia. }
  exact H.
Qed.

(** A whole number that is 0 or less is such a limit. *)
Lemma length_ge_of_Z z :
  (z <= 0)%Z -> Number.length_ge 0 (Number.of_Z z) = true.
Proof.
  intros H. cbn [Number.length_ge Number.of_Z].
  apply QArith_base.Qle_bool_iff. now rewrite <- QArith_base.Zle_Qle.
Qed.

(** X13. With a limit [l] for which [0 >= l] holds (a number that is 0 or
    less), [search] on a query that is not blank lists the files and
    returns no result without reading any file. *)
Theorem search_without_limit_reads_nothing :
  forall uuidv4 jsonNumber isAllowed graphPath fs q l sc sf sbp cs,
    trim q <> [] -> Number.length_ge 0 l = true ->
    SearchService.search uuidv4 jsonNumber isAllowed graphPath fs
      (SearchService.mkParams (Some q) (Some l) sc sf sbp cs) =
    (SearchService.Returned [], [SearchService.ListFiles]).
Proof.
  intros uuidv4 jsonNumber isAllowed graphPath fs q l sc sf sbp cs Hq Hl.
  unfold SearchService.search.
  cbn [SearchService.query SearchService.limit SearchService.default].
  assert (match q with [] => true | _ :: _ => false end ||
          (length (trim q) =? 0) = false) as ->.
  { destruct q as [|c q]; [now elim Hq|]. simpl.
    destruct (trim (c :: q)); [now elim Hq|reflexivity]. }
  rewrite file_loop_no_limit by now apply min_20_not_positive.
  reflexivity.
Qed.

Lemma search_without_limit_reads_nothing_witness :
  trim (str "foo") <> [] /\
  Number.length_ge 0 (Number.of_Z 0) = true /\
  SearchService.search (fun _ => fixed_uuid) (fun l => l) allow_all
    (str "/g") two_pages
    (SearchService.mkParams (Some (str "foo")) (Some (Number.of_Z 0)) None
       None None None) =
  (SearchService.Returned [], [SearchService.ListFiles]).
Proof.
  assert (trim (str "foo") <> []) as H by (vm_compute; discriminate).
  split; [exact H|]. split; [reflexivity|].
  apply search_without_limit_reads_nothing; [exact H|reflexivity].
Defined.

Lemma search_reads_ok uuidv4 jsonNumber isAllowed graphPath fs params :
  Forall (read_ok isAllowed graphPath fs)
         (snd (SearchService.search uuidv4 jsonNumber isAllowed graphPath
                 fs params)).
Proof.
  unfold SearchService.search.
  destruct (SearchService.query params) as [q|]; [|constructor].
  destruct (_ || _); [constructor|].
  match goal with
  | |- context [SearchService.file_loop ?a ?b ?c ?d ?e ?f ?g ?h ?i ?j ?k ?l ?m] =>
      pose proof (file_loop_reads a b c d e f g h i j k l m) as H;
      destruct (SearchService.file_loop a b c d e f g h i j k l m)
        as [out reads]
  end.
  simpl in *. constructor; [exact I|]. exact H.
Qed.

(** X14. [search] reads only files that [findMarkdownFiles] listed and
    for which the path filter allows the text that [search] hands to
    it: the full path without its first [graphPath.length + 1]
    characters, with its backslashes turned into slashes. *)
Theorem search_reads_allowed_files_only :
  forall uuidv4 jsonNumber isAllowed graphPath fs params,
    Forall (read_ok isAllowed graphPath fs)
           (snd (SearchService.search uuidv4 jsonNumber isAllowed graphPath
                   fs params)).
Proof. exact search_reads_ok. Qed.

(** X15. When none of the three zones is to be searched, [search] finds
    nothing. *)
Theorem search_without_zone_finds_nothing :
  forall uuidv4 jsonNumber isAllowed graphPath fs q l cs,
    results_of
      (fst (SearchService.search uuidv4 jsonNumber isAllowed graphPath fs
              (SearchService.mkParams q l (Some false) (Some false)
                 (Some false) cs))) = [].
Proof.
  intros uuidv4 jsonNumber isAllowed graphPath fs q l cs.
  unfold SearchService.search. simpl.
  destruct q as [q|]; [|reflexivity].
  destruct (_ || _) eqn:E; [reflexivity|].
  apply guard_not_empty in E.
  match goal with
  | |- context [SearchService.file_loop ?a ?b ?c ?d ?e ?f ?g ?h ?i ?j ?k ?l ?m] =>
      pose proof (file_loop_no_zone a b c d e f g h l m E) as H;
      destruct (SearchService.file_loop a b c d e f g h i j k l m)
        as [out reads]
  end.
  simpl in *. now subst.
Qed.

Lemma search_results_ok uuidv4 jsonNumber isAllowed graphPath fs params :
  Forall (fun r => result_ok r /\
                   from_allowed_file isAllowed graphPath fs r)
         (results_of (fst (SearchService.search uuidv4 jsonNumber
                             isAllowed graphPath fs params))).
Proof.
  unfold SearchService.search.
  destruct (SearchService.query params) as [q|]; [|constructor].
  destruct (_ || _); [constructor|].
  match goal with
  | |- context [SearchService.file_loop ?a ?b ?c ?d ?e ?f ?g ?h ?i ?j ?k ?l ?m] =>
      pose proof (file_loop_all a b c d e f g h
                    (fun r => result_ok r /\
                              from_allowed_file isAllowed graphPath fs r)
                    i j k l m) as H;
      destruct (SearchService.file_loop a b c d e f g h i j k l m)
        as [out reads]
  end.
  simpl in *. apply H; [|constructor].
  intros fullPath Hin Ha. split.
  - intros block blockSearch Hi. split; [now apply block_result_ok|].
    split; [exact Ha|]. now exists fullPath.
  - intros text index. split; [apply file_result_ok|].
    split; [exact Ha|]. now exists fullPath.
Qed.

(** X16. Every result of [search] carries as its path [p] the full path
    of a listed file without its first [graphPath.length + 1]
    characters, with slashes, a text that the path filter allows, and is
    titled after it; it counts at least one match, and has line number 0
    if it is a block result, one counted match and a line number from 1
    if it is a file-level result. *)
Theorem search_results_are_well_formed :
  forall uuidv4 jsonNumber isAllowed graphPath fs params,
    Forall (fun r => result_ok r /\
                     from_allowed_file isAllowed graphPath fs r)
           (results_of (fst (SearchService.search uuidv4 jsonNumber
                               isAllowed graphPath fs params))).
Proof. exact search_results_ok. Qed.

(** X17. A file-level result can only be the first result of [search]:
    every result behind the first is a block result. *)
Theorem search_file_level_result_is_first :
  forall uuidv4 jsonNumber isAllowed graphPath fs params,
    Forall block_level
           (tl (results_of (fst (SearchService.search uuidv4 jsonNumber
                                   isAllowed graphPath fs params)))).
Proof.
  intros uuidv4 jsonNumber isAllowed graphPath fs params.
  unfold SearchService.search.
  destruct (SearchService.query params) as [q|]; [|constructor].
  destruct (_ || _); [constructor|].
  match goal with
  | |- context [SearchService.file_loop ?a ?b ?c ?d ?e ?f ?g ?h ?i ?j ?k ?l ?m] =>
      pose proof (file_loop_tail a b c d e f g h i j k l m) as H;
      destruct (SearchService.file_loop a b c d e f g h i j k l m)
        as [out reads]
  end.
  simpl in *. apply H. constructor.
Qed.

(* ================================================================== *)
(** ** Further properties: the URI of a page or block *)
(* ================================================================== *)

Import Uri.

Lemma decode_encode c r : decode_unit (encode_unit c ++ r) = Some (c, r).
Proof. destruct c as [[] [] [] [] [] [] [] []]; reflexivity. Qed.

Lemma encode_unit_no_slash c :
  forallb (fun x => negb (Ascii.eqb x "/")) (encode_unit c) = true.
Proof. destruct c as [[] [] [] [] [] [] [] []]; reflexivity. Qed.

Lemma encode_unit_not_nil c r : encode_unit c ++ r <> [].
Proof. destruct c as [[] [] [] [] [] [] [] []]; discriminate. Qed.

Lemma encode_no_slash s :
  forallb (fun x => negb (Ascii.eqb x "/")) (encodeURIComponent s) = true.
Proof.
  induction s as [|c s IH]; [reflexivity|].
  unfold encodeURIComponent in *. cbn [flat_map].
  now rewrite forallb_app, encode_unit_no_slash, IH.
Qed.

Lemma encode_inj s : forall s',
  encodeURIComponent s = encodeURIComponent s' -> s = s'.
Proof.
  unfold encodeURIComponent.
  induction s as [|c s IH]; intros [|c' s'] H; cbn [flat_map] in H.
  - reflexivity.
  - symmetry in H. now apply encode_unit_not_nil in H.
  - now apply encode_unit_not_nil in H.
  - apply (f_equal decode_unit) in H. rewrite !decode_encode in H.
    injection H as -> H. f_equal. now apply IH.
Qed.

Lemma first_slash a : forall b r r',
  forallb (fun x => negb (Ascii.eqb x "/")) a = true ->
  forallb (fun x => negb (Ascii.eqb x "/")) b = true ->
  a ++ "/"%char :: r = b ++ "/"%char :: r' -> a = b /\ r = r'.
Proof.
  induction a as [|x a IH]; intros [|y b] r r' Ha Hb H;
    cbn [app forallb] in *.
  - now injection H as ->.
  - injection H as <- _. now rewrite Ascii.eqb_refl in Hb.
  - injection H as -> _. now rewrite Ascii.eqb_refl in Ha.
  - injection H as -> H.
    apply andb_true_iff in Ha as [_ Ha]. apply andb_true_iff in Hb as [_ Hb].
    destruct (IH b r r' Ha Hb H) as [-> ->]. now split.
Qed.

Lemma no_slash_end a b r :
  forallb (fun x => negb (Ascii.eqb x "/")) a = true ->
  a <> b ++ "/"%char :: r.
Proof.
  intros Ha H. subst a. rewrite forallb_app in Ha.
  apply andb_true_iff in Ha as [_ Ha]. cbn [forallb] in Ha.
  now rewrite Ascii.eqb_refl in Ha.
Qed.

Lemma generateLogseqUri_parts g p u :
  generateLogseqUri g p u =
  str "logseq://graph/" ++ encodeURIComponent g ++
  "/"%char :: str "page/" ++ encodeURIComponent p ++
  match given_block u with
  | Some uuid => "/"%char :: str "block/" ++ uuid
  | None => []
  end.
Proof.
  unfold generateLogseqUri, given_block.
  destruct u as [[|c u]|]; cbn [app str list_ascii_of_string];
    rewrite ?app_nil_r; reflexivity.
Qed.

(** X18. [generateLogseqUri] gives different URIs to different graph
    paths, page paths and block identifiers: the three can be read back
    from the URI (an empty identifier counts as none). *)
Theorem generateLogseqUri_is_injective :
  forall g p u g' p' u',
    generateLogseqUri g p u = generateLogseqUri g' p' u' ->
    g = g' /\ p = p' /\ given_block u = given_block u'.
Proof.
  intros g p u g' p' u' H. rewrite !generateLogseqUri_parts in H.
  apply app_inv_head in H.
  apply first_slash in H as [Hg H]; [|apply encode_no_slash..].
  apply encode_inj in Hg. split; [exact Hg|].
  apply app_inv_head in H.
  destruct (given_block u) as [x|], (given_block u') as [x'|].
  - apply first_slash in H as [Hp H]; [|apply encode_no_slash..].
    apply encode_inj in Hp. apply app_inv_head in H. now subst.
  - rewrite app_nil_r in H. symmetry in H.
    now apply no_slash_end in H; [|apply encode_no_slash].
  - rewrite app_nil_r in H.
    now apply no_slash_end in H; [|apply encode_no_slash].
  - rewrite !app_nil_r in H. apply encode_inj in H. now subst.
Qed.

Lemma generateLogseqUri_is_injective_witness :
  generateLogseqUri (str "/home/me/my graph") (str "pages/a b.md") (Some []) =
  generateLogseqUri (str "/home/me/my graph") (str "pages/a b.md") None /\
  str "/home/me/my graph" = str "/home/me/my graph" /\
  str "pages/a b.md" = str "pages/a b.md" /\
  given_block (Some []) = given_block None.
Proof.
  split; [reflexivity|].
  apply (generateLogseqUri_is_injective (str "/home/me/my graph")
           (str "pages/a b.md") (Some []) (str "/home/me/my graph")
           (str "pages/a b.md") None).
  reflexivity.
Defined.

(* ================================================================== *)
(** ** Further properties: the operations on the blocks of a page *)
(* ================================================================== *)

(* ------------------------------------------------------------ *)
(* the change of a forest at the first block with a uuid *)

Lemma change_first_eq u f b :
  FileSystemService.change_first u f b =
  if Js.eqb (uuid b) u then Some (f b)
  else option_map (with_children b)
         (FileSystemService.change_among u f (children b)).
Proof.
  destruct b as [u0 c l ps cs pu sp m pr].
  cbn [FileSystemService.change_first uuid children].
  destruct (Js.eqb u0 u); [reflexivity|]. f_equal.
  induction cs as [|x cs IH]; [reflexivity|].
  cbn [FileSystemService.change_among]. now rewrite IH.
Qed.

Lemma bare_with_children b cs : bare (with_children b cs) = bare b.
Proof. reflexivity. Qed.

Lemma visit_flat_with_children b cs :
  visit_flat (with_children b cs) = with_children b cs :: flattenBlocks cs.
Proof. reflexivity. Qed.

Section Change.

Variable u : jsstring.
Variable f : LogseqBlock -> LogseqBlock.

Lemma change_among_ok bs :
  Forall (change_ok u f) bs ->
  match FileSystemService.change_among u f bs with
  | Some bs' => changed u f (flattenBlocks bs) (flattenBlocks bs')
  | None => Forall (fun x => uuid x <> u) (flattenBlocks bs)
  end.
Proof.
  induction 1 as [|b bs Hb _ IH]; [constructor|].
  cbn [FileSystemService.change_among]. unfold change_ok in Hb.
  destruct (FileSystemService.change_first u f b) as [b'|].
  - destruct Hb as [l1 [l1' [x [l2 [H1 [H2 [H3 [H4 H5]]]]]]]].
    exists l1, l1', x, (l2 ++ flattenBlocks bs).
    unfold flattenBlocks. cbn [flat_map]. rewrite H1, H2.
    now rewrite <- !app_assoc.
  - destruct (FileSystemService.change_among u f bs) as [bs'|];
      cbn [option_map].
    + destruct IH as [l1 [l1' [x [l2 [H1 [H2 [H3 [H4 H5]]]]]]]].
      exists (visit_flat b ++ l1), (visit_flat b ++ l1'), x, l2.
      unfold flattenBlocks in *. cbn [flat_map]. rewrite H1, H2.
      rewrite <- !app_assoc. repeat split; auto.
      * now rewrite !map_app, H3.
      * apply Forall_app. now split.
    + unfold flattenBlocks. cbn [flat_map]. apply Forall_app. now split.
Qed.

Lemma change_first_ok b : change_ok u f b.
Proof.
  induction b as [b IH] using block_induction.
  unfold change_ok. rewrite change_first_eq.
  destruct (Js.eqb (uuid b) u) eqn:E.
  - apply eqb_eq in E. exists [], [], b, [].
    rewrite !app_nil_r. repeat split; auto.
  - apply eqb_neq in E. apply change_among_ok in IH.
    destruct (FileSystemService.change_among u f (children b)) as [cs'|];
      cbn [option_map].
    + destruct IH as [l1 [l1' [x [l2 [H1 [H2 [H3 [H4 H5]]]]]]]].
      exists (b :: l1), (with_children b cs' :: l1'), x, l2.
      rewrite visit_flat_eq, visit_flat_with_children.
      fold (flattenBlocks (children b)). rewrite H1, H2.
      repeat split; auto.
      * cbn [map]. now rewrite bare_with_children, H3.
    + rewrite visit_flat_eq. constructor; [exact E|exact IH].
Qed.

Lemma change_among_spec bs :
  match FileSystemService.change_among u f bs with
  | Some bs' => changed u f (flattenBlocks bs) (flattenBlocks bs')
  | None => Forall (fun x => uuid x <> u) (flattenBlocks bs)
  end.
Proof.
  apply change_among_ok, Forall_forall. intros b _. apply change_first_ok.
Qed.

End Change.

(* ------------------------------------------------------------ *)
(* writing a forest and reading it back *)

Lemma tidy_eq b :
  tidy b = mkBlock (uuid b) (trim (content b)) (level b) (properties b)
                   (map tidy (children b)) (parentUuid b) (sourcePath b)
                   (marker b) (priority b).
Proof. now destruct b. Qed.

Lemma visit_tidy showNumber b :
  forall d, visit showNumber (tidy b) d = visit showNumber b d.
Proof.
  induction b as [b IH] using block_induction. intros d.
  rewrite !visit_eq, tidy_eq. cbn [content children].
  rewrite trim_idem. f_equal. f_equal.
  rewrite flat_map_concat_map, map_map, <- flat_map_concat_map.
  revert IH. generalize (children b) as cs.
  induction cs as [|c cs IHcs]; intros IH; [reflexivity|].
  inversion IH as [|? ? Hc Hcs]; subst. cbn [flat_map].
  now rewrite Hc, IHcs.
Qed.

Lemma serialize_tidy showNumber bs :
  serializeBlocks showNumber (map tidy bs) = serializeBlocks showNumber bs.
Proof.
  unfold serializeBlocks. f_equal.
  induction bs as [|b bs IH]; [reflexivity|].
  cbn [map flat_map]. now rewrite visit_tidy, IH.
Qed.

Lemma visit_flat_tidy b : visit_flat (tidy b) = map tidy (visit_flat b).
Proof.
  induction b as [b IH] using block_induction.
  rewrite visit_flat_eq, (visit_flat_eq b), tidy_eq. cbn [children map].
  rewrite <- tidy_eq. f_equal.
  revert IH. generalize (children b) as cs.
  induction cs as [|c cs IHcs]; intros IH; [reflexivity|].
  inversion IH as [|? ? Hc Hcs]; subst. cbn [map flat_map].
  now rewrite map_app, Hc, IHcs.
Qed.

Lemma flatten_tidy bs :
  flattenBlocks (map tidy bs) = map tidy (flattenBlocks bs).
Proof.
  unfold flattenBlocks. induction bs as [|b bs IH]; [reflexivity|].
  cbn [map flat_map]. now rewrite map_app, visit_flat_tidy, IH.
Qed.

Lemma tidy_clean b : writable_block b -> block_clean (tidy b).
Proof.
  intros [Ho [Hu [Hp Hi]]]. rewrite tidy_eq. unfold block_clean.
  cbn [content uuid properties].
  split; [apply trim_trimmed|]. split; [|now repeat split].
  now apply forallb_trim.
Qed.

Lemma clean_writable b : block_clean b -> writable_block b.
Proof. intros [_ H]. exact H. Qed.

Lemma map_pair {A B C} (f : A -> B) (g : A -> C) l :
  map (fun x => (f x, g x)) l = combine (map f l) (map g l).
Proof. induction l as [|x l IH]; [reflexivity|]. cbn. now rewrite IH. Qed.

Section Reread.

Variable showNumber : jsstring -> jsstring.
Hypothesis showNumber_one_line : forall l, one_line (showNumber l) = true.

Lemma reparse_clean uuidv4 sp forest :
  Forall block_clean (flattenBlocks forest) ->
  map uuid_content
      (flattenBlocks (parseBlocks uuidv4 (serializeBlocks showNumber forest)
                        sp)) =
  map uuid_content (flattenBlocks forest).
Proof.
  intros Hc. unfold uuid_content. rewrite !map_pair.
  pose proof (serialize_parse_items showNumber showNumber_one_line forest Hc)
    as Hi.
  f_equal.
  - rewrite parseBlocks_uuid. apply assigned_uuids_ids. rewrite Hi.
    rewrite (forest_items_map showNumber item_id (fun _ b => Some (uuid b))).
    + now rewrite <- (forest_depth_snd forest), !map_map.
    + intros d b Hb. unfold item_id. cbn [item_properties].
      rewrite (consumed_id showNumber showNumber_one_line b Hb).
      destruct Hb as (_ & _ & Hu & _). now rewrite Hu.
    + exact Hc.
  - rewrite parseBlocks_content, Hi.
    rewrite (forest_items_map showNumber item_content
               (fun _ b => content b)) by auto.
    now rewrite <- (forest_depth_snd forest), map_map.
Qed.

Lemma reparse_writable uuidv4 sp forest :
  Forall writable_block (flattenBlocks forest) ->
  map uuid_content
      (flattenBlocks (parseBlocks uuidv4 (serializeBlocks showNumber forest)
                        sp)) =
  map (fun b => (uuid b, trim (content b))) (flattenBlocks forest).
Proof.
  intros Hw. rewrite <- serialize_tidy, reparse_clean.
  - rewrite flatten_tidy, map_map. apply map_ext.
    intros b. now rewrite tidy_eq.
  - rewrite flatten_tidy. apply Forall_forall. intros x Hx.
    apply in_map_iff in Hx as [b [<- Hb]]. apply tidy_clean.
    rewrite Forall_forall in Hw. now apply Hw.
Qed.

End Reread.

(* ------------------------------------------------------------ *)
(* appendBlock *)

Lemma changed_find u f old new :
  changed u f (flattenBlocks old) new ->
  exists l1 l1' b l2,
    flattenBlocks old = l1 ++ visit_flat b ++ l2 /\
    new = l1' ++ visit_flat (f b) ++ l2 /\
    map bare l1' = map bare l1 /\
    findBlockByUuid old u = Some b.
Proof.
  intros [l1 [l1' [b [l2 [H1 [H2 [H3 [H4 H5]]]]]]]].
  exists l1, l1', b, l2. repeat split; auto.
  unfold findBlockByUuid. apply find_first.
  exists l1, (flattenBlocks (children b) ++ l2).
  rewrite H1, visit_flat_eq. split; [reflexivity|].
  split; [now apply eqb_eq|].
  revert H4. apply Forall_impl. intros x. apply eqb_neq.
Qed.

Lemma find_uuid_none blocks u :
  findBlockByUuid blocks u = None <->
  Forall (fun x => uuid x <> u) (flattenBlocks blocks).
Proof.
  unfold findBlockByUuid. split.
  - intros H. apply Forall_forall. intros x Hx.
    apply eqb_neq. exact (find_none _ _ H x Hx).
  - intros H. destruct (find _ _) as [b|] eqn:E; [|reflexivity].
    apply find_some in E as [Hin Hb]. rewrite Forall_forall in H.
    apply eqb_eq in Hb. now apply H in Hin.
Qed.

Lemma appendBlock_structure showNumber blocks path content options fresh :
  match FileSystemService.appendBlock showNumber blocks path content
          options fresh with
  | FileSystemService.Threw _ =>
      exists pu, given_parent options = Some pu /\
                 findBlockByUuid blocks pu = None
  | FileSystemService.Returned (written, newBlock) =>
      uuid newBlock = asked_uuid options fresh /\
      BlockParser.content newBlock = content /\
      properties newBlock = asked_properties options /\
      sourcePath newBlock = path /\ children newBlock = [] /\
      exists blocks',
        written = serializeBlocks showNumber blocks' /\
        match given_parent options with
        | None =>
            level newBlock = 0 /\ parentUuid newBlock = None /\
            blocks' = blocks ++ [newBlock]
        | Some pu =>
            exists l1 parent l2,
              findBlockByUuid blocks pu = Some parent /\
              level newBlock = level parent + 1 /\
              parentUuid newBlock = Some (uuid parent) /\
              flattenBlocks blocks = l1 ++ visit_flat parent ++ l2 /\
              map bare (flattenBlocks blocks') =
              map bare (l1 ++ visit_flat parent ++ newBlock :: l2)
        end
  end.
Proof.
  unfold FileSystemService.appendBlock, given_parent, asked_uuid,
    asked_properties.
  destruct options as [[[[|c pu]|] ou op]|];
    cbn [FileSystemService.parentUuid FileSystemService.uuid
         FileSystemService.properties];
    try (repeat split; eexists; split; [reflexivity|now repeat split]).
  set (p := c :: pu).
  pose proof (change_among_spec p) as Hc.
  destruct (findBlockByUuid blocks p) as [parent|] eqn:Ef.
  - match goal with
    | |- context [FileSystemService.change_among p ?f blocks] =>
        specialize (Hc f blocks);
        destruct (FileSystemService.change_among p f blocks) as [blocks'|]
    end.
    + apply changed_find in Hc as [l1 [l1' [b [l2 [H1 [H2 [H3 H4]]]]]]].
      rewrite Ef in H4. injection H4 as <-.
      repeat split. exists blocks'. split; [reflexivity|].
      exists l1, parent, l2. repeat split; auto.
      rewrite H2, !map_app, map_bare_push_child, H3.
      cbn [map visit_flat flat_map]. now rewrite <- !app_assoc.
    + exfalso. apply find_uuid_none in Hc. congruence.
  - exists p. now split.
Qed.

Lemma appendBlock_message showNumber blocks path content options fresh m :
  FileSystemService.appendBlock showNumber blocks path content options fresh
  = FileSystemService.Threw m ->
  exists pu, missing_parent options blocks = Some pu /\
             m = str "Parent block not found: " ++ pu.
Proof.
  unfold FileSystemService.appendBlock, missing_parent, given_parent.
  destruct options as [[[[|c pu]|] ou op]|];
    cbn [FileSystemService.parentUuid FileSystemService.uuid
         FileSystemService.properties]; try discriminate.
  set (p := c :: pu).
  pose proof (change_among_spec p) as Hc.
  destruct (findBlockByUuid blocks p) as [parent|] eqn:Ef.
  - match goal with
    | |- context [FileSystemService.change_among p ?f blocks] =>
        specialize (Hc f blocks);
        destruct (FileSystemService.change_among p f blocks) as [blocks'|]
    end; [discriminate|].
    apply find_uuid_none in Hc. congruence.
  - intros H. injection H as <-. now exists p.
Qed.

(** X19. [appendBlock] throws in three cases only: [readPage] throws, and
    it throws the same; a parent is asked for that no block of the page
    has as its [uuid], and it throws "Parent block not found: " and that
    [uuid]; its call of [writePage] throws, and it throws the same.  It
    calls [writePage] at most once, and not at all in the first two
    cases.  When it returns, it has written the page at its path with
    the front matter that [readPage] returned and the serialized
    forest; the new block has the content, the path, the [uuid] and the
    properties that were given, and no children; without a parent it
    has level 0 and is the last root; with a parent it has the parent's
    level plus 1 and the parent's [uuid] as its [parentUuid], and in the
    forest that is written it stands right behind the last descendant of
    the first block with that [uuid], all other blocks in place. *)
Theorem appendBlock_places_the_block :
  forall (Frontmatter : Type) showNumber
         (readPage : jsstring ->
                     FileSystemService.Outcome
                       (FileSystemService.Method.ParsedPage Frontmatter))
         writePage path content options fresh,
    match FileSystemService.Method.appendBlock Frontmatter showNumber readPage writePage
            path content options fresh with
    | (FileSystemService.Threw message, writes) =>
        threw_because readPage writePage path (missing_parent options)
                      (str "Parent block not found: ") message writes
    | (FileSystemService.Returned newBlock, writes) =>
        exists page blocks',
          readPage path = FileSystemService.Returned page /\
          missing_parent options (FileSystemService.Method.page_blocks page) = None /\
          writes =
          [FileSystemService.Method.mkWrite path (serializeBlocks showNumber blocks')
             (FileSystemService.Method.page_frontmatter page) (str "overwrite")] /\
          writePage
            (FileSystemService.Method.mkWrite path (serializeBlocks showNumber blocks')
               (FileSystemService.Method.page_frontmatter page) (str "overwrite")) =
          FileSystemService.Returned tt /\
          uuid newBlock = asked_uuid options fresh /\
          BlockParser.content newBlock = content /\
          properties newBlock = asked_properties options /\
          sourcePath newBlock = path /\ children newBlock = [] /\
          match given_parent options with
          | None =>
              level newBlock = 0 /\ parentUuid newBlock = None /\
              blocks' = FileSystemService.Method.page_blocks page ++ [newBlock]
          | Some pu =>
              exists l1 parent l2,
                findBlockByUuid (FileSystemService.Method.page_blocks page) pu = Some parent /\
                level newBlock = level parent + 1 /\
                parentUuid newBlock = Some (uuid parent) /\
                flattenBlocks (FileSystemService.Method.page_blocks page) =
                l1 ++ visit_flat parent ++ l2 /\
                map bare (flattenBlocks blocks') =
                map bare (l1 ++ visit_flat parent ++ newBlock :: l2)
          end
    end.
Proof.
  intros Frontmatter showNumber readPage writePage path content options
         fresh.
  unfold FileSystemService.Method.appendBlock, threw_because.
  destruct (readPage path) as [m|page] eqn:Er; [now left|].
  pose proof (appendBlock_structure showNumber (FileSystemService.Method.page_blocks page)
                path content options fresh) as H.
  pose proof (appendBlock_message showNumber (FileSystemService.Method.page_blocks page)
                path content options fresh) as Hm.
  destruct (FileSystemService.appendBlock _ _ _ _ _ _)
    as [m|[serialized newBlock]].
  - right. left. destruct (Hm m eq_refl) as [pu [Hpu ->]].
    now exists page, pu.
  - destruct H as (Hu & Hc & Hps & Hp & Hk & blocks' & -> & H).
    destruct (writePage _) as [m|[]] eqn:Ew.
    + right. right. exists page.
      match type of Ew with writePage ?p = _ => exists p end.
      split; [reflexivity|]. split; [reflexivity|].
      split; [reflexivity|]. split; [reflexivity|exact Ew].
    + exists page, blocks'. split; [reflexivity|]. split.
      { unfold missing_parent. destruct (given_parent options) as [pu|];
          [|reflexivity].
        destruct H as (l1 & parent & l2 & -> & _). reflexivity. }
      split; [reflexivity|]. split; [exact Ew|].
      repeat (split; [assumption|]). exact H.
Qed.

Lemma writable_bare b : writable_block (bare b) -> writable_block b.
Proof. now destruct b. Qed.

Lemma bare_writable b : writable_block b -> writable_block (bare b).
Proof. now destruct b. Qed.

Lemma Forall_via_bare (P : LogseqBlock -> Prop) l l' :
  (forall b, P (bare b) -> P b) -> (forall b, P b -> P (bare b)) ->
  map bare l' = map bare l -> Forall P l -> Forall P l'.
Proof.
  intros H1 H2 Hm Hl. apply Forall_forall. intros x Hx.
  apply H1. apply (in_map bare) in Hx. rewrite Hm in Hx.
  apply in_map_iff in Hx as [y [<- Hy]]. apply H2.
  rewrite Forall_forall in Hl. now apply Hl.
Qed.

Lemma map_via_bare' {A} (g : LogseqBlock -> A) l l' :
  (forall b, g (bare b) = g b) ->
  map bare l' = map bare l -> map g l' = map g l.
Proof.
  intros Hg H.
  rewrite (map_via_bare g l' Hg), (map_via_bare g l Hg). now rewrite H.
Qed.

(** X20. [parseBlocks] on the text that [appendBlock] hands to [writePage]
    (called without a [uuid] and without properties in its options, on
    the blocks that [parseBlocks] made of the page) gives the blocks of
    the page as they were, with their [uuid] and content, and the new
    block with the [uuid] that [uuidv4()] returned and the trimmed
    content: at the end without a parent, right behind the last
    descendant of the parent otherwise.  The content is assumed to hold
    no line terminator, [uuidv4()] to return UUIDs and numbers to print
    on one line. *)
Theorem appendBlock_page_reads_back :
  forall uuidv4 uuidv4' showNumber text path path' content parent fresh,
    (forall n, UUID_REGEX (uuidv4 n) = true) ->
    (forall l, one_line (showNumber l) = true) ->
    UUID_REGEX fresh = true -> one_line content = true ->
    let blocks := parseBlocks uuidv4 text path in
    let options := Some (FileSystemService.mkOptions parent None None) in
    match FileSystemService.appendBlock showNumber blocks path content
            options fresh with
    | FileSystemService.Threw _ => True
    | FileSystemService.Returned (written, newBlock) =>
        exists l1 l2,
          flattenBlocks blocks = l1 ++ l2 /\
          match given_parent options with
          | None => l2 = []
          | Some pu =>
              exists l0 p, findBlockByUuid blocks pu = Some p /\
                           l1 = l0 ++ visit_flat p
          end /\
          map uuid_content
              (flattenBlocks (parseBlocks uuidv4' written path')) =
          map uuid_content l1 ++ (fresh, trim content) ::
          map uuid_content l2
    end.
Proof.
  intros uuidv4 uuidv4' showNumber text path path' content parent fresh
         Hg Hn Hf Ho blocks options.
  pose proof (appendBlock_structure showNumber blocks path content
                options fresh) as H.
  destruct (FileSystemService.appendBlock _ _ _ _ _ _) as [|[written nb]];
    [exact I|].
  destruct H as [Hu [Hc [Hps [Hp [Hk [blocks' [-> H]]]]]]].
  cbn in Hu, Hps.
  pose proof (parseBlocks_clean uuidv4 text path Hg) as Hclean.
  fold blocks in Hclean.
  assert (writable_block nb) as Hnb.
  { unfold writable_block. rewrite Hu, Hc, Hps.
    repeat split; auto; constructor. }
  assert (Forall writable_block (flattenBlocks blocks)) as Hw.
  { revert Hclean. apply Forall_impl. exact clean_writable. }
  assert (forall l, Forall block_clean l ->
                    map (fun b => (uuid b, trim (BlockParser.content b)))
                        l =
                    map uuid_content l) as Htrim.
  { intros l Hl. apply map_ext_in. intros b Hb. unfold uuid_content.
    rewrite Forall_forall in Hl. destruct (Hl b Hb) as [Ht _].
    now rewrite (trimmed_trim _ Ht). }
  destruct (given_parent options) as [pu|].
  - destruct H as [l1 [p [l2 [Hfind [_ [_ [Hflat Hbare]]]]]]].
    exists (l1 ++ visit_flat p), l2. rewrite <- app_assoc.
    split; [exact Hflat|]. split; [now exists l1, p|].
    rewrite Hflat in Hclean, Hw.
    rewrite (reparse_writable showNumber Hn).
    + rewrite (map_via_bare'
                 (fun b => (uuid b, trim (BlockParser.content b))) _ _
                 (fun b => eq_refl) Hbare).
      rewrite !map_app. cbn [map]. rewrite Hu, Hc, <- !app_assoc.
      apply Forall_app in Hclean as [C1 C2].
      apply Forall_app in C2 as [C2 C3].
      now rewrite !Htrim by assumption.
    + apply (Forall_via_bare _ _ _ writable_bare bare_writable Hbare).
      apply Forall_app in Hw as [W1 W2]. apply Forall_app in W2 as [W2 W3].
      apply Forall_app. split; [exact W1|].
      apply Forall_app. split; [exact W2|]. now constructor.
  - destruct H as [_ [_ ->]].
    exists (flattenBlocks blocks), []. rewrite app_nil_r.
    split; [reflexivity|]. split; [reflexivity|].
    rewrite (reparse_writable showNumber Hn).
    + rewrite flattenBlocks_app, map_app.
      unfold flattenBlocks at 2. cbn [flat_map]. rewrite app_nil_r.
      rewrite visit_flat_eq, Hk. cbn [flat_map map].
      now rewrite Hu, Hc, Htrim.
    + rewrite flattenBlocks_app. apply Forall_app. split; [exact Hw|].
      unfold flattenBlocks. cbn [flat_map]. rewrite app_nil_r.
      rewrite visit_flat_eq, Hk. now constructor.
Qed.

Lemma appendBlock_page_reads_back_witness :
  (forall n, UUID_REGEX (fixed_uuid n) = true) /\
  (forall l, one_line (plain_number l) = true) /\
  UUID_REGEX lower_id = true /\ one_line (str " Second child ") = true /\
  let blocks := parseBlocks fixed_uuid tab_scenario (str "p.md") in
  let options := Some (FileSystemService.mkOptions (Some id1) None None) in
  match FileSystemService.appendBlock plain_number blocks (str "p.md")
          (str " Second child ") options lower_id with
  | FileSystemService.Threw _ => True
  | FileSystemService.Returned (written, newBlock) =>
      exists l1 l2,
        flattenBlocks blocks = l1 ++ l2 /\
        match given_parent options with
        | None => l2 = []
        | Some pu =>
            exists l0 p, findBlockByUuid blocks pu = Some p /\
                         l1 = l0 ++ visit_flat p
        end /\
        map uuid_content
            (flattenBlocks (parseBlocks fixed_uuid written (str "p.md"))) =
        map uuid_content l1 ++ (lower_id, trim (str " Second child ")) ::
        map uuid_content l2
  end.
Proof.
  split; [intros n; reflexivity|].
  split; [exact plain_number_one_line|].
  split; [reflexivity|]. split; [reflexivity|].
  apply (appendBlock_page_reads_back fixed_uuid fixed_uuid plain_number
           tab_scenario (str "p.md") (str "p.md") (str " Second child ")
           (Some id1) lower_id).
  - intros n; reflexivity.
  - exact plain_number_one_line.
  - reflexivity.
  - reflexivity.
Defined.

(* ------------------------------------------------------------ *)
(* createBlockRef and getBlockRefs *)









(** X22. [getBlockRefs] returns exactly the blocks, with the path of their
    page, of the listed pages that the path filter allows and that can
    be read, whose content holds a reference to the given [uuid], the
    letter case of the reference and of the [uuid] aside. *)
Theorem getBlockRefs_spec :
  forall isAllowed files readPage uuid0 b rel,
    In (b, rel)
       (FileSystemService.getBlockRefs isAllowed files readPage uuid0) <->
    In rel files /\ isAllowed rel = true /\
    exists blocks,
      readPage rel = Some blocks /\ In b (flattenBlocks blocks) /\
      exists u, isValidBlockUuid u = true /\ holds_ref (content b) u /\
                toLowerCase u = toLowerCase uuid0.
Proof.
  intros isAllowed files readPage uuid0 b rel.
  unfold FileSystemService.getBlockRefs. rewrite in_flat_map. split.
  - intros [rel' [Hin H]].
    destruct (isAllowed rel') eqn:Ea; [|contradiction]. cbn [negb] in H.
    destruct (readPage rel') as [blocks|] eqn:Er; [|contradiction].
    unfold FileSystemService.page_refs in H.
    apply in_map_iff in H as [x [Hx H]]. injection Hx as -> ->.
    apply filter_In in H as [Hb H].
    apply existsb_exists in H as [v [Hv Hlv]]. apply eqb_eq in Hlv.
    subst v. apply extract_in_iff in Hv as [u [Hu [Hh Hl]]].
    split; [exact Hin|]. split; [exact Ea|].
    exists blocks. split; [exact Er|]. split; [exact Hb|].
    exists u. now repeat split.
  - intros [Hin [Ea [blocks [Er [Hb [u [Hu [Hh Hl]]]]]]]].
    exists rel. split; [exact Hin|]. rewrite Ea, Er. cbn [negb].
    unfold FileSystemService.page_refs.
    apply (in_map (fun x => (x, rel))). apply filter_In.
    split; [exact Hb|]. apply existsb_exists.
    exists (toLowerCase uuid0). split; [|apply eqb_refl].
    apply extract_in_iff. exists u. now repeat split.
Qed.

(** X23. [findBlockByUuid] of the service goes through the listed pages in
    their order and returns the first block in document order with the
    given [uuid] of the first page that the path filter allows, that
    can be read and that has such a block; pages that are not allowed or
    cannot be read are passed over, and it returns nothing exactly when
    every page gives nothing. *)
Theorem service_findBlockByUuid_first_page :
  forall isAllowed files readPage u,
    match FileSystemService.findBlockByUuid isAllowed files readPage u with
    | Some b =>
        exists before rel behind blocks,
          files = before ++ rel :: behind /\
          Forall (gives_no_block isAllowed readPage u) before /\
          isAllowed rel = true /\ readPage rel = Some blocks /\
          findBlockByUuid blocks u = Some b
    | None => Forall (gives_no_block isAllowed readPage u) files
    end.
Proof.
  intros isAllowed files readPage u.
  unfold FileSystemService.findBlockByUuid.
  induction files as [|rel files IH]; [constructor|].
  cbn [FileSystemService.find_in_files].
  assert (gives_no_block isAllowed readPage u rel ->
          match FileSystemService.find_in_files isAllowed readPage files u
          with
          | Some b =>
              exists before rel0 behind blocks,
                rel :: files = before ++ rel0 :: behind /\
                Forall (gives_no_block isAllowed readPage u) before /\
                isAllowed rel0 = true /\ readPage rel0 = Some blocks /\
                findBlockByUuid blocks u = Some b
          | None => Forall (gives_no_block isAllowed readPage u) (rel :: files)
          end) as Hskip.
  { intros Hrel.
    destruct (FileSystemService.find_in_files isAllowed readPage files u)
      as [b|].
    - destruct IH as [before [rel0 [behind [blocks [-> [H1 H2]]]]]].
      exists (rel :: before), rel0, behind, blocks.
      split; [reflexivity|]. split; [now constructor|exact H2].
    - now constructor. }
  destruct (isAllowed rel) eqn:Ea; cbn [negb].
  - destruct (readPage rel) as [blocks|] eqn:Er.
    + destruct (findBlockByUuid blocks u) as [b|] eqn:Ef.
      * exists [], rel, files, blocks. repeat split; auto.
      * apply Hskip. right. right. now exists blocks.
    + apply Hskip. right. now left.
  - apply Hskip. now left.
Qed.

(* ================================================================== *)
(** ** Further properties: the path filter *)
(* ================================================================== *)

Import PathFilter FilterNotions.

(* ------------------------------------------------------------ *)

Lemma slashes_no_backslash p :
  Forall (fun c => c <> "\"%char) (slashes p).
Proof.
  induction p as [|c p IH]; simpl; constructor; [|exact IH].
  destruct (Ascii.eqb_spec c "\"); [discriminate|assumption].
Qed.

Lemma tokens_ok n : forall p,
  length p <= n -> Forall (fun c => c <> "\"%char) p ->
  Forall tok_ok (tokens p).
Proof.
  induction n as [|n IH]; intros p Hn Hp.
  - destruct p; [constructor|simpl in Hn; lia].
  - destruct p as [|c p]; [constructor|]. simpl in Hn.
    inversion Hp as [|? ? Hc Hp']; subst. simpl.
    destruct (Ascii.eqb_spec c "*").
    + destruct p as [|d p]; [repeat constructor|].
      inversion Hp' as [|? ? Hd Hp'']; subst.
      destruct (Ascii.eqb d "*").
      * constructor; [exact I|]. apply IH; [simpl in Hn; lia|exact Hp''].
      * constructor; [exact I|]. apply IH; [lia|exact Hp'].
    + destruct (Ascii.eqb_spec c "?").
      * constructor; [exact I|]. apply IH; [lia|exact Hp'].
      * constructor; [now repeat split|]. apply IH; [lia|exact Hp'].
Qed.

Lemma replace_from_miss pat repl c s :
  starts_with pat (c :: s) = false ->
  replace_from pat repl 0 (c :: s) = c :: replace_from pat repl 0 s.
Proof. intros H. simpl replace_from. now rewrite H. Qed.

Lemma replace_from_hit pat repl c s :
  starts_with pat (c :: s) = true ->
  replace_from pat repl 0 (c :: s) =
  repl ++ replace_from pat repl (length pat - 1) s.
Proof. intros H. simpl replace_from. now rewrite H. Qed.

Lemma meta_backslash : is_meta "\" = true.
Proof. reflexivity. Qed.

Lemma escape_cons c p :
  escape (c :: p) = (if is_meta c then ["\"%char; c] else [c]) ++ escape p.
Proof. reflexivity. Qed.

Lemma starts_cons a p b s :
  starts_with (a :: p) (b :: s) = Ascii.eqb a b && starts_with p s.
Proof. reflexivity. Qed.

(** A chunk of the escaped pattern for a character that is no star. *)
Lemma replace1_chunk c rest :
  c <> "*"%char -> c <> "\"%char ->
  replace_from (str "\*\*") (str ".*") 0
    ((if is_meta c then ["\"%char; c] else [c]) ++ rest) =
  (if is_meta c then ["\"%char; c] else [c]) ++
  replace_from (str "\*\*") (str ".*") 0 rest.
Proof.
  intros H1 H2.
  assert (Ascii.eqb "\" c = false) as E2 by now apply Ascii.eqb_neq.
  assert (Ascii.eqb "*" c = false) as E1 by now apply Ascii.eqb_neq.
  destruct (is_meta c); cbn [app].
  - rewrite replace_from_miss.
    + rewrite replace_from_miss; [reflexivity|].
      change (str "\*\*") with ("\"%char :: str "*\*").
      now rewrite starts_cons, E2.
    + change (str "\*\*") with ("\"%char :: "*"%char :: str "\*").
      now rewrite !starts_cons, E1, andb_false_r.
  - rewrite replace_from_miss; [reflexivity|].
    change (str "\*\*") with ("\"%char :: str "*\*").
    now rewrite starts_cons, E2.
Qed.

Lemma escape_head p :
  Forall (fun c => c <> "\"%char) p ->
  match p with
  | d :: _ =>
      if Ascii.eqb d "*" then True
      else starts_with (str "\*") (escape p) = false
  | [] => escape p = []
  end.
Proof.
  intros Hp. destruct p as [|d p]; [reflexivity|].
  inversion Hp as [|? ? Hd _]; subst.
  destruct (Ascii.eqb_spec d "*") as [|Hn]; [exact I|].
  rewrite escape_cons.
  assert (Ascii.eqb "\" d = false) as E2 by now apply Ascii.eqb_neq.
  assert (Ascii.eqb "*" d = false) as E1 by now apply Ascii.eqb_neq.
  change (str "\*") with ["\"%char; "*"%char].
  destruct (is_meta d); cbn [app]; rewrite !starts_cons.
  - now rewrite E1, andb_false_r.
  - now rewrite E2.
Qed.

Lemma replace1 n : forall p,
  length p <= n -> Forall (fun c => c <> "\"%char) p ->
  replace_all (str "\*\*") (str ".*") (escape p) =
  flat_map text1 (tokens p).
Proof.
  unfold replace_all.
  induction n as [|n IH]; intros p Hn Hp.
  - destruct p; [reflexivity|simpl in Hn; lia].
  - destruct p as [|c p]; [reflexivity|]. simpl in Hn.
    inversion Hp as [|? ? Hc Hp']; subst.
    cbn [tokens].
    destruct (Ascii.eqb_spec c "*") as [->|Hns].
    + destruct p as [|d p].
      { reflexivity. }
      inversion Hp' as [|? ? Hd Hp'']; subst.
      destruct (Ascii.eqb_spec d "*") as [->|Hnd].
      * cbn [flat_map text1].
        rewrite <- IH by (simpl in Hn; lia || exact Hp'').
        reflexivity.
      * cbn [flat_map text1].
        rewrite <- IH by (lia || exact Hp').
        pose proof (escape_head (d :: p) Hp') as Hh. cbn beta iota in Hh.
        destruct (Ascii.eqb_spec d "*") as [|_]; [contradiction|].
        rewrite escape_cons. change (is_meta "*") with true. cbn [app].
        rewrite replace_from_miss.
        -- rewrite replace_from_miss; [reflexivity|reflexivity].
        -- change (str "\*\*") with ("\"%char :: "*"%char :: str "\*").
           rewrite !starts_cons. cbn [Ascii.eqb]. simpl andb.
           exact Hh.
    + destruct (Ascii.eqb_spec c "?") as [->|Hnq].
      * cbn [flat_map text1].
        rewrite <- IH by (lia || exact Hp').
        reflexivity.
      * cbn [flat_map text1].
        rewrite <- IH by (lia || exact Hp').
        rewrite escape_cons. now apply replace1_chunk.
Qed.

Lemma replace2 ts :
  Forall tok_ok ts ->
  replace_all (str "\*") (str "[^/]*") (flat_map text1 ts) =
  flat_map text2 ts.
Proof.
  unfold replace_all.
  induction 1 as [|t ts Ht _ IH]; [reflexivity|].
  cbn [flat_map]. rewrite <- IH.
  destruct t as [| | |c]; try reflexivity.
  destruct Ht as [H1 [H2 H3]].
  assert (Ascii.eqb "\" c = false) as E3 by now apply Ascii.eqb_neq.
  assert (Ascii.eqb "*" c = false) as E1 by now apply Ascii.eqb_neq.
  change (str "\*") with ["\"%char; "*"%char].
  cbn [text2 text1]. destruct (is_meta c); cbn [app].
  - rewrite replace_from_miss.
    + rewrite replace_from_miss; [reflexivity|].
      now rewrite starts_cons, E3.
    + now rewrite !starts_cons, E1, andb_false_r.
  - rewrite replace_from_miss; [reflexivity|].
    now rewrite starts_cons, E3.
Qed.

Lemma replace3 ts :
  Forall tok_ok ts ->
  replace_all (str "\?") (str "[^/]") (flat_map text2 ts) =
  flat_map text3 ts.
Proof.
  unfold replace_all.
  induction 1 as [|t ts Ht _ IH]; [reflexivity|].
  cbn [flat_map]. rewrite <- IH.
  destruct t as [| | |c]; try reflexivity.
  destruct Ht as [H1 [H2 H3]].
  assert (Ascii.eqb "\" c = false) as E3 by now apply Ascii.eqb_neq.
  assert (Ascii.eqb "?" c = false) as E2 by now apply Ascii.eqb_neq.
  change (str "\?") with ["\"%char; "?"%char].
  cbn [text3 text2 text1]. destruct (is_meta c); cbn [app].
  - rewrite replace_from_miss.
    + rewrite replace_from_miss; [reflexivity|].
      now rewrite starts_cons, E3.
    + now rewrite !starts_cons, E2, andb_false_r.
  - rewrite replace_from_miss; [reflexivity|].
    now rewrite starts_cons, E3.
Qed.

Lemma not_meta c :
  is_meta c = false ->
  Ascii.eqb c "\" = false /\ Ascii.eqb c "." = false /\
  Ascii.eqb c "[" = false /\ Ascii.eqb c "*" = false.
Proof.
  destruct c as [[] [] [] [] [] [] [] []]; vm_compute; intros H;
    try discriminate H; repeat split.
Qed.

(** The source of a regular expression never starts with a star. *)
Lemma text3_head ts :
  Forall tok_ok ts ->
  match flat_map text3 ts with
  | q :: _ => Ascii.eqb q "*" = false
  | [] => True
  end.
Proof.
  intros H. destruct H as [|t ts Ht _]; [exact I|].
  cbn [flat_map]. destruct t as [| | |c]; try reflexivity.
  cbn [text3 text2 text1]. destruct (is_meta c) eqn:E; [reflexivity|].
  cbn [app]. now apply not_meta in E.
Qed.

Lemma compile_text3 ts :
  Forall tok_ok ts -> compile (flat_map text3 ts) = Some (map atom ts).
Proof.
  induction 1 as [|t ts Ht Hts IH]; [reflexivity|].
  pose proof (text3_head ts Hts) as Hh.
  cbn [flat_map map]. destruct t as [| | |c].
  - cbn [text3 text2 text1 str list_ascii_of_string app atom].
    cbn [compile]. cbn [Ascii.eqb Bool.eqb andb]. simpl.
    now rewrite IH.
  - change (text3 TSeg ++ flat_map text3 ts)
      with ("["%char :: "^"%char :: "/"%char :: "]"%char :: "*"%char ::
            flat_map text3 ts).
    cbn [compile]. cbn [Ascii.eqb Bool.eqb andb]. simpl.
    now rewrite IH.
  - change (text3 TOne ++ flat_map text3 ts)
      with ("["%char :: "^"%char :: "/"%char :: "]"%char ::
            flat_map text3 ts).
    cbn [compile]. cbn [Ascii.eqb Bool.eqb andb]. simpl.
    destruct (flat_map text3 ts) as [|q r] eqn:E.
    + simpl in IH. now injection IH as <-.
    + rewrite Hh. now rewrite IH.
  - cbn [text3 text2 text1 atom]. destruct (is_meta c) eqn:E.
    + change (["\"%char; c] ++ flat_map text3 ts)
        with ("\"%char :: c :: flat_map text3 ts).
      cbn [compile]. cbn [Ascii.eqb Bool.eqb andb]. simpl.
      destruct (flat_map text3 ts) as [|q r] eqn:E'.
      * simpl in IH. now injection IH as <-.
      * rewrite Hh. now rewrite IH.
    + apply not_meta in E as E'. destruct E' as [E1 [E2 [E3 E4]]].
      change ([c] ++ flat_map text3 ts) with (c :: flat_map text3 ts).
      cbn [compile]. rewrite E1, E2, E3, E.
      destruct (flat_map text3 ts) as [|q r] eqn:E'.
      * simpl in IH. now injection IH as <-.
      * rewrite Hh. now rewrite IH.
Qed.

Lemma simpleGlobMatch_glob pattern path :
  simpleGlobMatch pattern path = matches (glob (slashes pattern)) path.
Proof.
  unfold simpleGlobMatch, glob.
  pose proof (slashes_no_backslash pattern) as Hp.
  pose proof (tokens_ok _ _ (le_n _) Hp) as Hok.
  rewrite (replace1 _ _ (le_n _) Hp), (replace2 _ Hok), (replace3 _ Hok).
  now rewrite (compile_text3 _ Hok).
Qed.

(** X24. [simpleGlobMatch] reads the pattern, with its backslashes turned
    into slashes, as a glob and matches all of the path against it:
    [**] stands for any run of characters other than line terminators,
    [*] for any run of characters other than [/], [?] for one character
    other than [/], and every other character, the special characters of
    regular expressions included, for itself. *)
Theorem simpleGlobMatch_is_glob_matching :
  forall pattern path,
    simpleGlobMatch pattern path = matches (glob (slashes pattern)) path.
Proof. exact simpleGlobMatch_glob. Qed.

(* ------------------------------------------------------------ *)
(* the matcher *)

Lemma matches_lits w : forall re s,
  matches (map (fun c => (Lit c, false)) w ++ re) s =
  starts_with w s && matches re (skipn (length w) s).
Proof.
  induction w as [|a w IH]; intros re s; [reflexivity|].
  destruct s as [|b s]; [reflexivity|].
  cbn [map app matches accepts starts_with length skipn].
  rewrite IH, (Ascii.eqb_sym b a). now rewrite andb_assoc.
Qed.

Lemma starts_with_eq w s :
  starts_with w s && match skipn (length w) s with [] => true | _ => false end
  = Js.eqb w s.
Proof.
  revert s. induction w as [|a w IH]; intros s.
  - destruct s; reflexivity.
  - destruct s as [|b s]; [reflexivity|]. cbn [starts_with length skipn].
    rewrite <- andb_assoc, IH.
    destruct (Ascii.eqb_spec a b) as [->|Hn]; simpl.
    + destruct (Js.eqb w s) eqn:E.
      * apply eqb_eq in E. subst. symmetry. apply eqb_refl.
      * apply eqb_neq in E. symmetry. apply eqb_neq. congruence.
    + symmetry. apply eqb_neq. congruence.
Qed.

Lemma matches_plain w s :
  matches (map (fun c => (Lit c, false)) w) s = Js.eqb w s.
Proof.
  rewrite <- (app_nil_r (map _ w)), matches_lits. apply starts_with_eq.
Qed.

Lemma matches_dot_star s : matches [(Dot, true)] s = one_line s.
Proof.
  induction s as [|c s IH]; [reflexivity|].
  cbn [matches] in *. cbn [one_line forallb accepts].
  unfold one_line in IH. rewrite <- IH.
  now destruct (negb (is_line_terminator c)).
Qed.

Lemma tokens_plain p :
  forallb (fun c => negb (Ascii.eqb c "*" || Ascii.eqb c "?")) p = true ->
  tokens p = map TChar p.
Proof.
  induction p as [|c p IH]; [reflexivity|]. cbn [forallb tokens map].
  intros H. apply andb_true_iff in H as [Hc Hp].
  apply negb_true_iff, orb_false_iff in Hc as [-> ->].
  now rewrite IH.
Qed.

Lemma slashes_plain p :
  forallb (fun c => negb (Ascii.eqb c "*" || Ascii.eqb c "?")) p = true ->
  forallb (fun c => negb (Ascii.eqb c "*" || Ascii.eqb c "?")) (slashes p)
  = true.
Proof.
  unfold slashes.
  induction p as [|c p IH]; [reflexivity|]. cbn [forallb map].
  intros H. apply andb_true_iff in H as [Hc Hp].
  rewrite (IH Hp), andb_true_r.
  destruct (Ascii.eqb c "\"); [reflexivity|exact Hc].
Qed.

Lemma plain_pattern pattern path :
  forallb (fun c => negb (Ascii.eqb c "*" || Ascii.eqb c "?")) pattern
  = true ->
  simpleGlobMatch pattern path = Js.eqb (slashes pattern) path.
Proof.
  intros H. rewrite simpleGlobMatch_glob. unfold glob.
  rewrite (tokens_plain _ (slashes_plain _ H)), map_map.
  apply matches_plain.
Qed.

(** X25. A pattern without [*] and [?] matches exactly one path: the
    pattern itself with its backslashes turned into slashes. *)
Theorem simpleGlobMatch_plain_pattern :
  forall pattern path,
    forallb (fun c => negb (Ascii.eqb c "*" || Ascii.eqb c "?")) pattern
    = true ->
    simpleGlobMatch pattern path = Js.eqb (slashes pattern) path.
Proof. exact plain_pattern. Qed.

Lemma simpleGlobMatch_plain_pattern_witness :
  forallb (fun c => negb (Ascii.eqb c "*" || Ascii.eqb c "?"))
          (str "a.b\(c)+[d]") = true /\
  simpleGlobMatch (str "a.b\(c)+[d]") (str "a.b/(c)+[d]") =
  Js.eqb (slashes (str "a.b\(c)+[d]")) (str "a.b/(c)+[d]").
Proof.
  split; [reflexivity|].
  apply (simpleGlobMatch_plain_pattern (str "a.b\(c)+[d]")
           (str "a.b/(c)+[d]")).
  reflexivity.
Defined.

(* ------------------------------------------------------------ *)
(* isAllowed *)

Lemma slashes_app a b : slashes (a ++ b) = slashes a ++ slashes b.
Proof. apply map_app. Qed.

Lemma one_line_slashes s : one_line (slashes s) = one_line s.
Proof.
  induction s as [|c s IH]; [reflexivity|].
  unfold one_line in *. cbn [slashes map forallb]. fold (slashes s).
  rewrite IH. destruct (Ascii.eqb_spec c "\") as [->|]; reflexivity.
Qed.

Lemma directory_pattern dir rest :
  forallb (fun c => negb (Ascii.eqb c "*" || Ascii.eqb c "?")) dir = true ->
  slashes dir = dir ->
  simpleGlobMatch (dir ++ str "/**") (dir ++ "/"%char :: rest) =
  one_line rest.
Proof.
  intros Hd Hs. rewrite simpleGlobMatch_glob.
  assert (glob (slashes (dir ++ str "/**")) =
          map (fun c => (Lit c, false)) (dir ++ ["/"%char]) ++ [(Dot, true)])
    as ->.
  { unfold glob. rewrite slashes_app, Hs. clear Hs.
    induction dir as [|c dir IH]; [reflexivity|].
    cbn [forallb] in Hd. apply andb_true_iff in Hd as [Hc Hd].
    apply negb_true_iff, orb_false_iff in Hc as [E1 E2].
    cbn [app tokens map]. rewrite E1, E2. cbn [map]. now rewrite IH. }
  rewrite matches_lits, length_app. cbn [length].
  replace (dir ++ "/"%char :: rest) with ((dir ++ ["/"%char]) ++ rest)
    by now rewrite <- app_assoc.
  assert (forall w s, starts_with w (w ++ s) = true) as Hsw.
  { induction w as [|a w IH]; intros s; [reflexivity|].
    cbn [app starts_with]. now rewrite Ascii.eqb_refl, IH. }
  rewrite Hsw. cbn [andb].
  replace (length dir + 1) with (length (dir ++ ["/"%char]) + 0)
    by (rewrite length_app; simpl; lia).
  rewrite skipn_app, skipn_all2 by lia.
  replace (length (dir ++ ["/"%char]) + 0 - length (dir ++ ["/"%char]))
    with 0 by lia.
  cbn [app skipn]. apply matches_dot_star.
Qed.

Lemma system_directory_rejected config dir sep rest :
  In dir [str ".logseq"; str ".git"; str "node_modules"] ->
  sep = "/"%char \/ sep = "\"%char ->
  one_line rest = true ->
  isAllowed (new config) (dir ++ sep :: rest) = false.
Proof.
  intros Hdir Hsep Hrest. unfold isAllowed.
  assert (slashes (dir ++ sep :: rest) = dir ++ "/"%char :: slashes rest)
    as ->.
  { rewrite slashes_app. cbn [slashes map].
    assert (slashes dir = dir) as ->.
    { simpl in Hdir.
      destruct Hdir as [<-|[<-|[<-|[]]]]; reflexivity. }
    now destruct Hsep as [-> | ->]. }
  assert (existsb
            (fun pattern =>
               simpleGlobMatch pattern (dir ++ "/"%char :: slashes rest))
            (ignoredPatterns (new config)) = true) as ->; [|reflexivity].
  apply existsb_exists. exists (dir ++ str "/**"). split.
  - unfold new. cbn [ignoredPatterns]. apply in_or_app. left.
    simpl in Hdir. simpl.
    destruct Hdir as [<-|[<-|[<-|[]]]]; auto.
  - rewrite directory_pattern, one_line_slashes; [exact Hrest| |];
      simpl in Hdir; destruct Hdir as [<-|[<-|[<-|[]]]]; reflexivity.
Qed.

(** X26. Whatever the configuration, the path filter rejects every path
    below [.logseq], [.git] and [node_modules] at the root of the graph,
    written with a slash or a backslash, provided the path holds no line
    terminator. *)
Theorem filter_rejects_system_directories :
  forall config dir sep rest,
    In dir [str ".logseq"; str ".git"; str "node_modules"] ->
    sep = "/"%char \/ sep = "\"%char ->
    one_line rest = true ->
    isAllowed (new config) (dir ++ sep :: rest) = false.
Proof. exact system_directory_rejected. Qed.

Lemma filter_rejects_system_directories_witness :
  In (str ".git") [str ".logseq"; str ".git"; str "node_modules"] /\
  ("\"%char = "/"%char \/ "\"%char = "\"%char) /\
  one_line (str "hooks\pre-commit.md") = true /\
  isAllowed (new None) (str ".git" ++ "\"%char :: str "hooks\pre-commit.md")
  = false.
Proof.
  split; [simpl; auto|]. split; [now right|]. split; [reflexivity|].
  apply (filter_rejects_system_directories None (str ".git") "\"%char
           (str "hooks\pre-commit.md")); [simpl; auto|now right|reflexivity].
Defined.

Lemma directory_pattern_prefix dir p :
  forallb (fun c => negb (Ascii.eqb c "*" || Ascii.eqb c "?")) dir = true ->
  slashes dir = dir ->
  simpleGlobMatch (dir ++ str "/**") p = true ->
  starts_with (dir ++ ["/"%char]) p = true.
Proof.
  intros Hd Hs. rewrite simpleGlobMatch_glob.
  assert (glob (slashes (dir ++ str "/**")) =
          map (fun c => (Lit c, false)) (dir ++ ["/"%char]) ++ [(Dot, true)])
    as ->.
  { unfold glob. rewrite slashes_app, Hs. clear Hs.
    induction dir as [|c dir IH]; [reflexivity|].
    cbn [forallb] in Hd. apply andb_true_iff in Hd as [Hc Hd].
    apply negb_true_iff, orb_false_iff in Hc as [E1 E2].
    cbn [app tokens map]. rewrite E1, E2. cbn [map]. now rewrite IH. }
  rewrite matches_lits. intros H. now apply andb_true_iff in H.
Qed.

Lemma default_not_ignored p ext :
  In ext [str ".md"; str ".markdown"; str ".txt"] ->
  endsWith (toLowerCase p) ext = true ->
  starts_with (str ".logseq/") p = false ->
  starts_with (str ".git/") p = false ->
  starts_with (str "node_modules/") p = false ->
  existsb (fun pattern => simpleGlobMatch pattern p)
          (ignoredPatterns (new None)) = false.
Proof.
  intros Hext He H1 H2 H3.
  assert (forall w, In w [str ".DS_Store"; str "Thumbs.db"] ->
                    simpleGlobMatch w p = false) as Hplain.
  { intros w Hw. rewrite plain_pattern
      by (simpl in Hw; destruct Hw as [<-|[<-|[]]]; reflexivity).
    apply eqb_neq. intros Hp. subst p. revert He.
    simpl in Hw, Hext.
    destruct Hw as [<-|[<-|[]]];
      destruct Hext as [<-|[<-|[<-|[]]]]; vm_compute; discriminate. }
  assert (forall dir,
             In dir [str ".logseq"; str ".git"; str "node_modules"] ->
             starts_with (dir ++ ["/"%char]) p = false ->
             simpleGlobMatch (dir ++ str "/**") p = false) as Hdir.
  { intros dir Hd Hs.
    destruct (simpleGlobMatch (dir ++ str "/**") p) eqn:E; [|reflexivity].
    apply directory_pattern_prefix in E; [congruence| |];
      simpl in Hd; destruct Hd as [<-|[<-|[<-|[]]]]; reflexivity. }
  assert (simpleGlobMatch (str ".logseq/**") p = false) as D1
      by (apply (Hdir (str ".logseq")); simpl; auto).
  assert (simpleGlobMatch (str ".git/**") p = false) as D2
      by (apply (Hdir (str ".git")); simpl; auto).
  assert (simpleGlobMatch (str "node_modules/**") p = false) as D3
      by (apply (Hdir (str "node_modules")); simpl; auto).
  unfold new. cbn [ignoredPatterns app existsb].
  rewrite D1, D2, D3, (Hplain (str ".DS_Store")), (Hplain (str "Thumbs.db"));
    simpl; auto.
Qed.

(** X27. The default path filter allows every path that ends in [.md],
    [.markdown] or [.txt], in any letter case, and does not lie below
    [.logseq], [.git] or [node_modules] at the root of the graph. *)
Theorem default_filter_allows_notes :
  forall path ext,
    In ext [str ".md"; str ".markdown"; str ".txt"] ->
    endsWith (toLowerCase (slashes path)) ext = true ->
    starts_with (str ".logseq/") (slashes path) = false ->
    starts_with (str ".git/") (slashes path) = false ->
    starts_with (str "node_modules/") (slashes path) = false ->
    isAllowed (new None) path = true.
Proof.
  intros path ext Hext He H1 H2 H3. unfold isAllowed.
  rewrite (default_not_ignored _ ext Hext He H1 H2 H3).
  destruct (_ && _); [|reflexivity].
  assert (existsb (fun e => endsWith (toLowerCase (slashes path))
                                     (toLowerCase e))
                  (allowedExtensions (new None)) = true) as ->;
    [|reflexivity].
  apply existsb_exists. exists ext. split.
  - exact Hext.
  - simpl in Hext. destruct Hext as [<-|[<-|[<-|[]]]]; exact He.
Qed.

Lemma default_filter_allows_notes_witness :
  In (str ".md") [str ".md"; str ".markdown"; str ".txt"] /\
  endsWith (toLowerCase (slashes (str "journals\2024_01_01.MD"))) (str ".md")
  = true /\
  starts_with (str ".logseq/") (slashes (str "journals\2024_01_01.MD"))
  = false /\
  starts_with (str ".git/") (slashes (str "journals\2024_01_01.MD"))
  = false /\
  starts_with (str "node_modules/") (slashes (str "journals\2024_01_01.MD"))
  = false /\
  isAllowed (new None) (str "journals\2024_01_01.MD") = true.
Proof.
  repeat (split; [first [reflexivity | simpl; auto]|]).
  apply (default_filter_allows_notes (str "journals\2024_01_01.MD")
           (str ".md")); first [reflexivity | simpl; auto].
Defined.

(* ------------------------------------------------------------ *)
(* isFile *)

Lemma lastIndexOf_none s c :
  forallb (fun x => negb (Ascii.eqb x c)) s = true -> lastIndexOf s c = None.
Proof.
  induction s as [|x s IH]; [reflexivity|]. cbn [forallb lastIndexOf].
  intros H. apply andb_true_iff in H as [Hx Hs].
  rewrite (IH Hs). apply negb_true_iff in Hx. now rewrite Hx.
Qed.

Lemma lastIndexOf_last a c b :
  forallb (fun x => negb (Ascii.eqb x c)) b = true ->
  lastIndexOf (a ++ c :: b) c = Some (length a).
Proof.
  intros Hb. induction a as [|x a IH].
  - cbn [app lastIndexOf length]. rewrite (lastIndexOf_none _ _ Hb).
    now rewrite Ascii.eqb_refl.
  - cbn [app lastIndexOf length]. now rewrite IH.
Qed.

Lemma split_at_last c s :
  forallb (fun x => negb (Ascii.eqb x c)) s = true \/
  exists a b, s = a ++ c :: b /\
              forallb (fun x => negb (Ascii.eqb x c)) b = true.
Proof.
  induction s as [|x s IH]; [now left|].
  destruct IH as [IH|[a [b [-> Hb]]]].
  - destruct (Ascii.eqb_spec x c) as [->|Hn].
    + right. exists [], s. now split.
    + left. cbn [forallb]. rewrite IH.
      apply Ascii.eqb_neq in Hn. now rewrite Hn.
  - right. exists (x :: a), b. now split.
Qed.

Lemma skipn_exact {A} (a b : list A) n :
  length a = n -> skipn n (a ++ b) = b.
Proof.
  intros <-. rewrite skipn_app, skipn_all, Nat.sub_diag. reflexivity.
Qed.

Lemma endsWith_last s c suffix :
  endsWith (s ++ [c]) (suffix ++ [c]) = endsWith s suffix.
Proof.
  unfold endsWith. rewrite !rev_app_distr. cbn [rev app starts_with].
  now rewrite Ascii.eqb_refl.
Qed.


Lemma alnum_plain c :
  alnum c = true ->
  Ascii.eqb c "/" = false /\ Ascii.eqb c "." = false /\
  Ascii.eqb "/" c = false.
Proof.
  destruct c as [[] [] [] [] [] [] [] []]; vm_compute; intros H;
    try discriminate H; repeat split.
Qed.

Lemma alnum_no c ext x :
  forallb alnum ext = true -> (forall y, alnum y = true -> Ascii.eqb y c = false)
  -> x = ext -> forallb (fun y => negb (Ascii.eqb y c)) x = true.
Proof.
  intros H Hc ->. apply forallb_forall. intros y Hy.
  rewrite forallb_forall in H. now rewrite (Hc y (H y Hy)).
Qed.

Lemma isFile_extension stem ext :
  stem <> [] -> last stem "x"%char <> "/"%char ->
  ext <> [] -> length ext <= 10 -> forallb alnum ext = true ->
  isFile (stem ++ "."%char :: ext) = true.
Proof.
  intros Hs Hl He Hlen Ha.
  assert (forallb (fun y => negb (Ascii.eqb y "/")) ext = true) as Hslash.
  { apply forallb_forall. intros y Hy. rewrite forallb_forall in Ha.
    now destruct (alnum_plain y (Ha y Hy)) as [-> _]. }
  assert (forallb (fun y => negb (Ascii.eqb y ".")) ext = true) as Hdot.
  { apply forallb_forall. intros y Hy. rewrite forallb_forall in Ha.
    now destruct (alnum_plain y (Ha y Hy)) as [_ [-> _]]. }
  unfold isFile.
  assert (endsWith (stem ++ "."%char :: ext) (str "/") = false) as ->.
  { unfold endsWith. rewrite rev_app_distr. cbn [rev].
    destruct (exists_last He) as [ext' [y Hy]]. subst ext.
    rewrite rev_app_distr. cbn [rev app str list_ascii_of_string starts_with].
    rewrite forallb_app in Ha. apply andb_true_iff in Ha as [_ Ha].
    cbn [forallb] in Ha.
    apply andb_true_iff in Ha as [Ha _].
    destruct (alnum_plain y Ha) as [_ [_ ->]]. reflexivity. }
  assert (forall comp,
             comp <> [] ->
             forallb (fun y => negb (Ascii.eqb y "/")) comp = true ->
             match lastIndexOf (comp ++ "."%char :: ext) "." with
             | Some 0 | None => false
             | Some (S _ as lastDotIndex) =>
                 (1 <=? length (skipn (lastDotIndex + 1)
                                      (comp ++ "."%char :: ext))) &&
                 (length (skipn (lastDotIndex + 1)
                                (comp ++ "."%char :: ext)) <=? 10) &&
                 match skipn (lastDotIndex + 1) (comp ++ "."%char :: ext) with
                 | [] => false
                 | _ :: _ =>
                     forallb (fun c => is_lower c || is_upper c || is_digit c)
                       (skipn (lastDotIndex + 1) (comp ++ "."%char :: ext))
                 end
             end = true) as Hcomp.
  { intros comp Hc _. rewrite (lastIndexOf_last comp "." ext Hdot).
    destruct comp as [|c0 comp]; [contradiction|]. cbn [length].
    replace (comp ++ "."%char :: ext)
      with ((comp ++ ["."%char]) ++ ext) by now rewrite <- app_assoc.
    change ((c0 :: comp) ++ "."%char :: ext)
      with (c0 :: (comp ++ "."%char :: ext)).
    replace (c0 :: comp ++ "."%char :: ext)
      with ((c0 :: comp ++ ["."%char]) ++ ext)
      by (cbn [app]; now rewrite <- app_assoc).
    rewrite skipn_exact by (cbn [length]; rewrite length_app; simpl; lia).
    destruct ext as [|e0 ext]; [contradiction|].
    cbn [length] in *.
    destruct (Nat.leb_spec (S (length ext)) 10); [|lia].
    cbn [Nat.leb andb]. exact Ha. }
  destruct (split_at_last "/" stem) as [Hno|[a [b [-> Hb]]]].
  - rewrite (lastIndexOf_none (stem ++ "."%char :: ext) "/").
    + now apply Hcomp.
    + rewrite forallb_app. cbn [forallb]. now rewrite Hno, Hslash.
  - replace ((a ++ "/"%char :: b) ++ "."%char :: ext)
      with (a ++ "/"%char :: (b ++ "."%char :: ext))
      by now rewrite <- app_assoc.
    rewrite (lastIndexOf_last a "/" (b ++ "."%char :: ext))
      by (rewrite forallb_app; cbn [forallb]; now rewrite Hb, Hslash).
    replace (a ++ "/"%char :: b ++ "."%char :: ext)
      with ((a ++ ["/"%char]) ++ b ++ "."%char :: ext)
      by now rewrite <- app_assoc.
    rewrite skipn_exact by (rewrite length_app; simpl; lia).
    apply Hcomp; [|exact Hb].
    intros ->. apply Hl. now rewrite last_last.
Qed.

Lemma starts_with_pivot d : forall u v w,
  forallb (fun y => negb (Ascii.eqb y d)) u = true ->
  forallb (fun y => negb (Ascii.eqb y d)) v = true ->
  starts_with (u ++ [d]) (v ++ d :: w) = true -> u = v.
Proof.
  induction u as [|a u IH]; intros v w Hu Hv H.
  - destruct v as [|b v]; [reflexivity|]. exfalso.
    cbn [app starts_with forallb] in *.
    apply andb_true_iff in Hv as [Hb _]. apply andb_true_iff in H as [H _].
    apply Ascii.eqb_eq in H. subst b. now rewrite Ascii.eqb_refl in Hb.
  - cbn [forallb] in Hu. apply andb_true_iff in Hu as [Ha Hu].
    destruct v as [|b v].
    + exfalso. cbn [app starts_with] in H.
      apply andb_true_iff in H as [H _].
      apply Ascii.eqb_eq in H. subst a. now rewrite Ascii.eqb_refl in Ha.
    + cbn [app starts_with forallb] in *.
      apply andb_true_iff in Hv as [_ Hv]. apply andb_true_iff in H as [E H].
      apply Ascii.eqb_eq in E. subst b. f_equal. now apply (IH v w).
Qed.

Lemma forallb_rev_any {A} (f : A -> bool) l : forallb f (rev l) = forallb f l.
Proof.
  induction l as [|x l IH]; [reflexivity|]. cbn [rev forallb].
  rewrite forallb_app, IH. cbn [forallb]. now rewrite andb_true_r, andb_comm.
Qed.

Lemma endsWith_extension a x y :
  forallb (fun c => negb (Ascii.eqb c ".")) x = true ->
  forallb (fun c => negb (Ascii.eqb c ".")) y = true ->
  endsWith (a ++ "."%char :: y) ("."%char :: x) = true -> y = x.
Proof.
  intros Hx Hy H. unfold endsWith in H.
  rewrite rev_app_distr in H. cbn [rev] in H. rewrite <- app_assoc in H.
  cbn [app] in H.
  apply starts_with_pivot in H; [|now rewrite forallb_rev_any..].
  apply (f_equal (@rev ascii)) in H. now rewrite !rev_involutive in H.
Qed.

Lemma lower_alnum_no_dot c :
  alnum c = true -> negb (Ascii.eqb (lower_char c) ".") = true.
Proof.
  destruct c as [[] [] [] [] [] [] [] []]; vm_compute; intros H;
    try discriminate H; reflexivity.
Qed.

(** X28. The default path filter rejects every path whose last component
    has a name, a dot, and an extension of one to ten letters and digits
    other than [md], [markdown] and [txt] in any letter case. *)
Theorem default_filter_rejects_other_files :
  forall path stem ext,
    slashes path = stem ++ "."%char :: ext ->
    stem <> [] -> last stem "x"%char <> "/"%char ->
    ext <> [] -> length ext <= 10 ->
    forallb (fun c => is_lower c || is_upper c || is_digit c) ext = true ->
    ~ In (toLowerCase ext) [str "md"; str "markdown"; str "txt"] ->
    isAllowed (new None) path = false.
Proof.
  intros path stem ext Hp Hs Hl He Hlen Ha Hno. unfold isAllowed.
  destruct (existsb _ (ignoredPatterns (new None))); [reflexivity|].
  rewrite Hp, (isFile_extension stem ext Hs Hl He Hlen Ha).
  assert (forall x, In x [str "md"; str "markdown"; str "txt"] ->
                    endsWith (toLowerCase (stem ++ "."%char :: ext))
                             ("."%char :: x) = false) as Hx.
  { intros x Hin.
    destruct (endsWith _ _) eqn:E; [exfalso|reflexivity].
    unfold toLowerCase in E. rewrite map_app in E. cbn [map] in E.
    change (lower_char ".") with "."%char in E.
    apply endsWith_extension in E.
    - apply Hno. unfold toLowerCase. now rewrite E.
    - simpl in Hin. destruct Hin as [<-|[<-|[<-|[]]]]; reflexivity.
    - rewrite forallb_forall in *. intros c Hc.
      apply in_map_iff in Hc as [y [<- Hy]].
      now apply lower_alnum_no_dot, Ha. }
  unfold new. cbn [allowedExtensions app existsb length Nat.ltb Nat.leb andb].
  change (toLowerCase (str ".md")) with ("."%char :: str "md").
  change (toLowerCase (str ".markdown")) with ("."%char :: str "markdown").
  change (toLowerCase (str ".txt")) with ("."%char :: str "txt").
  rewrite !Hx; simpl; auto.
Qed.

Lemma default_filter_rejects_other_files_witness :
  slashes (str "assets\scan.v2.PDF") = str "assets/scan.v2" ++ "."%char :: str "PDF" /\
  str "assets/scan.v2" <> [] /\
  last (str "assets/scan.v2") "x"%char <> "/"%char /\
  str "PDF" <> [] /\ length (str "PDF") <= 10 /\
  forallb (fun c => is_lower c || is_upper c || is_digit c) (str "PDF")
  = true /\
  ~ In (toLowerCase (str "PDF")) [str "md"; str "markdown"; str "txt"] /\
  isAllowed (new None) (str "assets\scan.v2.PDF") = false.
Proof.
  assert (~ In (toLowerCase (str "PDF")) [str "md"; str "markdown"; str "txt"])
    as Hno.
  { vm_compute. intros [H|[H|[H|[]]]]; discriminate H. }
  split; [reflexivity|]. split; [vm_compute; discriminate|].
  split; [vm_compute; discriminate|]. split; [vm_compute; discriminate|].
  split; [simpl; lia|]. split; [reflexivity|]. split; [exact Hno|].
  apply (default_filter_rejects_other_files (str "assets\scan.v2.PDF")
           (str "assets/scan.v2") (str "PDF"));
    [reflexivity|vm_compute; discriminate|vm_compute; discriminate
    |vm_compute; discriminate|simpl; lia|reflexivity|exact Hno].
Defined.

(* ================================================================== *)
(** ** Further properties: the search behind the path filter *)
(* ================================================================== *)

Lemma starts_with_split w : forall p,
  starts_with w p = true -> p = w ++ skipn (length w) p.
Proof.
  induction w as [|a w IH]; intros [|b p] H; try reflexivity;
    try discriminate H.
  cbn [starts_with] in H. apply andb_true_iff in H as [Hab H].
  apply Ascii.eqb_eq in Hab. subst b. cbn [app length skipn].
  f_equal. now apply IH.
Qed.

Lemma directory_pattern_iff dir p :
  forallb (fun c => negb (Ascii.eqb c "*" || Ascii.eqb c "?")) dir = true ->
  slashes dir = dir ->
  simpleGlobMatch (dir ++ str "/**") p = true <->
  exists rest, p = dir ++ "/"%char :: rest /\ one_line rest = true.
Proof.
  intros Hd Hs. split.
  - intros H. pose proof (directory_pattern_prefix dir p Hd Hs H) as Hp.
    apply starts_with_split in Hp. rewrite <- app_assoc in Hp.
    cbn [app] in Hp. exists (skipn (length (dir ++ ["/"%char])) p).
    split; [exact Hp|]. rewrite Hp in H.
    now rewrite (directory_pattern dir _ Hd Hs) in H.
  - intros [rest [-> Hr]]. now rewrite (directory_pattern dir _ Hd Hs).
Qed.

Lemma default_ignored_iff p :
  existsb (fun pattern => simpleGlobMatch pattern p)
          (ignoredPatterns (new None)) = true <->
  ignored_by_default p.
Proof.
  unfold new, ignored_by_default, below_system_directory.
  cbn [ignoredPatterns app existsb].
  rewrite orb_false_r, !orb_true_iff.
  change (str ".logseq/**") with (str ".logseq" ++ str "/**").
  change (str ".git/**") with (str ".git" ++ str "/**").
  change (str "node_modules/**") with (str "node_modules" ++ str "/**").
  rewrite !directory_pattern_iff by reflexivity.
  rewrite !plain_pattern by reflexivity.
  change (slashes (str ".DS_Store")) with (str ".DS_Store").
  change (slashes (str "Thumbs.db")) with (str "Thumbs.db").
  rewrite !eqb_eq. split.
  - intros [[rest [H1 H2]]|[[rest [H1 H2]]|[[rest [H1 H2]]|[H|H]]]].
    + left. exists (str ".logseq"), rest. simpl; auto.
    + left. exists (str ".git"), rest. simpl; auto.
    + left. exists (str "node_modules"), rest. simpl; auto.
    + right. left. now symmetry.
    + right. right. now symmetry.
  - intros [[dir [rest [Hd [H1 H2]]]]|[H|H]].
    + simpl in Hd. destruct Hd as [<-|[<-|[<-|[]]]].
      * left. now exists rest.
      * right. left. now exists rest.
      * right. right. left. now exists rest.
    + right. right. right. left. now symmetry.
    + right. right. right. right. now symmetry.
Qed.

(** X29. The default path filter rejects exactly these paths, read with
    their backslashes turned into slashes: the paths [.DS_Store] and
    [Thumbs.db], the paths below [.logseq], [.git] and [node_modules]
    at the root of the graph that hold no line terminator behind the
    slash, and the paths that [isFile] takes for a file and that end in
    none of [.md], [.markdown] and [.txt] in any letter case. *)
Theorem default_filter_rejects_exactly :
  forall path,
    isAllowed (new None) path = false <->
    ignored_by_default (slashes path) \/
    (isFile (slashes path) = true /\
     forall ext, In ext [str ".md"; str ".markdown"; str ".txt"] ->
                 endsWith (toLowerCase (slashes path)) ext = false).
Proof.
  intros path. unfold isAllowed.
  pose proof (default_ignored_iff (slashes path)) as Hi.
  destruct (existsb _ (ignoredPatterns (new None))).
  - split; [intros _; left; now apply Hi|reflexivity].
  - assert (~ ignored_by_default (slashes path)) as Hn.
    { intros H. apply Hi in H. discriminate H. }
    change (0 <? length (allowedExtensions (new None))) with true.
    cbn [andb].
    destruct (isFile (slashes path)).
    + destruct (existsb _ (allowedExtensions (new None))) eqn:E.
      * split; [discriminate|]. intros [H|[_ H]]; [contradiction|].
        apply existsb_exists in E as [ext [Hin He]].
        unfold new in Hin. cbn [allowedExtensions app] in Hin.
        assert (toLowerCase ext = ext) as Hl.
        { simpl in Hin. destruct Hin as [<-|[<-|[<-|[]]]]; reflexivity. }
        rewrite Hl, (H ext Hin) in He. discriminate He.
      * split; [|reflexivity]. intros _. right. split; [reflexivity|].
        intros ext Hin.
        assert (toLowerCase ext = ext) as Hl.
        { simpl in Hin. destruct Hin as [<-|[<-|[<-|[]]]]; reflexivity. }
        destruct (endsWith (toLowerCase (slashes path)) ext) eqn:E2;
          [|reflexivity].
        assert (existsb
                  (fun e => endsWith (toLowerCase (slashes path))
                                     (toLowerCase e))
                  (allowedExtensions (new None)) = true) as E3.
        { apply existsb_exists. exists ext. rewrite Hl. split; [|exact E2].
          exact Hin. }
        rewrite E3 in E. discriminate E.
    + split; [discriminate|]. intros [H|[H _]]; [contradiction|discriminate].
Qed.

Lemma allowed_outside config p :
  isAllowed (new config) p = true -> ~ below_system_directory p.
Proof.
  intros Ha [dir [rest [Hd [-> Hr]]]].
  rewrite (system_directory_rejected config dir "/"%char rest Hd) in Ha;
    [discriminate Ha|now left|exact Hr].
Qed.

Lemma relative_path_below graphPath sep rel :
  relative_path graphPath (graphPath ++ sep :: rel) = slashes rel.
Proof.
  unfold relative_path, slashes. f_equal.
  replace (length graphPath + 1) with (length (graphPath ++ [sep]) + 0)
    by (rewrite length_app; simpl; lia).
  replace (graphPath ++ sep :: rel) with ((graphPath ++ [sep]) ++ rel)
    by now rewrite <- app_assoc.
  now rewrite skipn_app, skipn_all2, Nat.add_0_r, Nat.sub_diag by lia.
Qed.

Lemma allowed_not_in_system_directory config graphPath path :
  isAllowed (new config) (relative_path graphPath path) = true ->
  ~ in_system_directory graphPath path.
Proof.
  intros Ha [sep [dir [sep' [rest [Hd [Hs [Hr ->]]]]]]].
  rewrite relative_path_below, slashes_app in Ha. cbn [slashes map] in Ha.
  fold (slashes rest) in Ha.
  assert (slashes dir = dir) as Hdir.
  { simpl in Hd. destruct Hd as [<-|[<-|[<-|[]]]]; reflexivity. }
  rewrite Hdir in Ha.
  rewrite (system_directory_rejected config dir _ (slashes rest) Hd)
    in Ha.
  - discriminate Ha.
  - destruct Hs as [-> | ->]; now left.
  - now rewrite one_line_slashes.
Qed.

(** X30. With a [PathFilter] of any configuration as its path filter,
    [search] reads no file whose full path is the graph path, one more
    character, [.logseq], [.git] or [node_modules], a slash or
    backslash and a rest without line terminator, and returns no result
    whose path [p] is one of these names, a slash and such a rest.  The
    form of the full path matters: for the graph path [/g/], which ends
    in a slash, [search] reads the file [/g/.git/x.md] and returns its
    block with the path [git/x.md]. *)
Theorem search_skips_system_directories :
  forall uuidv4 jsonNumber config graphPath fs params,
    let found :=
      SearchService.search uuidv4 jsonNumber (isAllowed (new config))
        graphPath fs params in
    Forall (outside_system_directories graphPath) (snd found) /\
    Forall (fun r => ~ below_system_directory (SearchService.p r))
           (results_of (fst found)) /\
    SearchService.search uuidv4 jsonNumber (isAllowed (new None))
      (str "/g/") git_graph foo_everywhere =
    (SearchService.Returned
       [SearchService.mkResult (str "git/x.md") (str "x")
          (Some (uuidv4 (str "git/x.md") 0)) (str "foo") 1 (Some 0)],
     [SearchService.ListFiles; SearchService.ReadFile (str "/g/.git/x.md")]).
Proof.
  intros uuidv4 jsonNumber config graphPath fs params found.
  split; [|split].
  - pose proof (search_reads_ok uuidv4 jsonNumber (isAllowed (new config))
                  graphPath fs params) as H.
    revert H. apply Forall_impl. intros [|path]; [intros _; exact I|].
    intros [_ Ha]. now apply (allowed_not_in_system_directory config).
  - pose proof (search_results_ok uuidv4 jsonNumber (isAllowed (new config))
                  graphPath fs params) as H.
    revert H. apply Forall_impl. intros r [_ [Ha _]].
    now apply (allowed_outside config).
  - vm_compute. reflexivity.
Qed.
